(** * Hamiltonian cycles in 2-interval bipartite graphs

    A shallow embedding of the [hamilton_dp] package: the 2-interval graph
    model ([intervals.py]), the dynamic-programming engine ([dp_solver.py])
    and the backtracking validator ([backtracking.py]), together with the
    properties of these programs that the specification states.

    Conventions of the embedding.
    - Python integers are [Z]; a list is a [list], indexed through
      [py_index], which writes out Python's wrap-around for negative
      indices and raises [IndexError] out of range.
    - A Python [set] of integers is a [gset Z]; a [for] loop over a set walks
      [elements s].  As in CPython the order of that walk is fixed for a
      given set but carries no meaning; the proofs below use nothing of it
      but [elem_of_elements].
    - A Python [dict] whose insertion order is observable (the engine's
      [reachable] map is walked with [keys()]) is an association list in
      insertion order.
    - Exceptions are explicit: every operation that can raise returns a
      [result]. *)

From stdpp Require Import base option list sorting gmap strings.
From Stdlib Require Import ZArith Lia.

Open Scope Z_scope.

(** ** Exceptions *)

(** The exceptions the modelled code can raise.  [RecursionError] is what the
    interpreter raises for a call that would nest deeper than its recursion
    limit allows. *)

Inductive exn : Type :=
  | AssertionError
  | IndexError
  | TypeError
  | RecursionError.

Inductive result (A : Type) : Type :=
  | Ok (a : A)
  | Raise (e : exn).
Arguments Ok {A} a.
Arguments Raise {A} e.

#[global] Instance result_ret : MRet result := λ A a, Ok a.
#[global] Instance result_bind : MBind result := λ A B f m,
  match m with
  | Ok a => f a
  | Raise e => Raise e
  end.

(** [for x in xs: st = body(st, x)], stopping at the first exception. *)
Fixpoint foldM {A S : Type} (body : S → A → result S) (xs : list A) (st : S)
  : result S :=
  match xs with
  | [] => Ok st
  | x :: xs' => st' ← body st x ; foldM body xs' st'
  end.

(** ** Python list primitives *)

(** [l[i]]: negative indices count from the end. *)
Definition py_index {A : Type} (l : list A) (i : Z) : result A :=
  let len := Z.of_nat (length l) in
  let j := if decide (i < 0) then i + len else i in
  if decide (0 ≤ j < len) then
    match l !! Z.to_nat j with
    | Some a => Ok a
    | None => Raise IndexError
    end
  else Raise IndexError.

(** [l[i] = a]. *)
Definition py_setitem {A : Type} (l : list A) (i : Z) (a : A) : result (list A) :=
  let len := Z.of_nat (length l) in
  let j := if decide (i < 0) then i + len else i in
  if decide (0 ≤ j < len) then Ok (<[Z.to_nat j := a]> l)
  else Raise IndexError.

(** [range(a, b)]. *)
Definition py_range (a b : Z) : list Z :=
  (λ j : nat, a + Z.of_nat j) <$> seq 0 (Z.to_nat (b - a)).

(** [enumerate(l)]. *)
Definition py_enumerate {A : Type} (l : list A) : list (Z * A) :=
  imap (λ j a, (Z.of_nat j, a)) l.

(** [sorted(...)] on integers. *)
Definition py_sorted (l : list Z) : list Z := merge_sort Z.le l.

(** ** intervals.py *)

Record TwoInterval : Type := mkTwoInterval {
  l : option Z;
  r : option Z
}.

Definition is_empty (it : TwoInterval) : bool :=
  match l it, r it with
  | Some _, Some _ => false
  | _, _ => true
  end.

Definition contains (it : TwoInterval) (i : Z) : bool :=
  if is_empty it then false
  else match l it, r it with
       | Some a, Some b => bool_decide (a ≤ i ≤ b)
       | _, _ => false
       end.

Definition is_left_endpoint (it : TwoInterval) (i : Z) : bool :=
  negb (is_empty it) && bool_decide (l it = Some i).

Definition is_right_endpoint (it : TwoInterval) (i : Z) : bool :=
  negb (is_empty it) && bool_decide (r it = Some i).

Definition strictly_inside (it : TwoInterval) (i : Z) : bool :=
  if is_empty it then false
  else match l it, r it with
       | Some a, Some b => bool_decide (a < i < b)
       | _, _ => false
       end.

Record YVertex : Type := mkYVertex {
  first : TwoInterval;
  second : TwoInterval
}.

(** An edge is the tuple [("X", i, "Y", y)]. *)
Definition Edge : Type := string * Z * string * Z.

Definition x_edge (i y : Z) : Edge := ("X"%string, i, "Y"%string, y).

Record TwoIntervalBipartiteGraph : Type := mkGraph {
  n : Z;
  y_vertices : list YVertex;
  neighbors_x : list (list Z);
  edges : gset Edge
}.

(** The assertion on one interval: [assert 0 <= it.l <= it.r < n] when the
    interval is not empty. *)
Definition interval_ok (n : Z) (it : TwoInterval) : bool :=
  if is_empty it then true
  else match l it, r it with
       | Some a, Some b => bool_decide (0 ≤ a ∧ a ≤ b ∧ b < n)
       | _, _ => true
       end.

(** The assertion on the pair: [assert yv.first.r < yv.second.l] when both
    are not empty. *)
Definition ordered_ok (yv : YVertex) : bool :=
  if negb (is_empty (first yv)) && negb (is_empty (second yv)) then
    match r (first yv), l (second yv) with
    | Some b, Some a => bool_decide (b < a)
    | _, _ => true
    end
  else true.

Definition yvertex_ok (n : Z) (yv : YVertex) : bool :=
  interval_ok n (first yv) && interval_ok n (second yv) && ordered_ok yv.

(** The first loop of [__post_init__]. *)
Definition check_vertices (n : Z) (ys : list YVertex) : result unit :=
  foldM (λ _ yv, if yvertex_ok n yv then Ok () else Raise AssertionError) ys ().

(** The body of the innermost loop: [neighbors_x[i].append(y_idx)] and
    [edges.add(("X", i, "Y", y_idx))]. *)
Definition add_edge (y_idx : Z) (st : list (list Z) * gset Edge) (i : Z)
  : result (list (list Z) * gset Edge) :=
  row ← py_index st.1 i ;
  nx ← py_setitem st.1 i (row ++ [y_idx]) ;
  Ok (nx, {[x_edge i y_idx]} ∪ st.2).

Definition add_interval (y_idx : Z) (st : list (list Z) * gset Edge)
    (it : TwoInterval) : result (list (list Z) * gset Edge) :=
  if is_empty it then Ok st
  else match l it, r it with
       | Some a, Some b => foldM (add_edge y_idx) (py_range a (b + 1)) st
       | _, _ => Raise TypeError
       end.

Definition add_vertex (st : list (list Z) * gset Edge) (p : Z * YVertex)
  : result (list (list Z) * gset Edge) :=
  foldM (add_interval p.1) [first p.2; second p.2] st.

Definition build_adjacency (n : Z) (ys : list YVertex)
  : result (list (list Z) * gset Edge) :=
  foldM add_vertex (py_enumerate ys) (replicate (Z.to_nat n) [], ∅).

(** [TwoIntervalBipartiteGraph(n=n, y_vertices=ys)]: the dataclass
    constructor followed by [__post_init__]. *)
Definition construct (n : Z) (ys : list YVertex)
  : result TwoIntervalBipartiteGraph :=
  if decide (Z.of_nat (length ys) = n) then
    _ ← check_vertices n ys ;
    '(nx, es) ← build_adjacency n ys ;
    Ok (mkGraph n ys nx es)
  else Raise AssertionError.

(** [classify_events_at]. *)
Definition classify_step (i : Z) (E : gset Z * gset Z * gset Z * gset Z)
    (p : Z * YVertex) : gset Z * gset Z * gset Z * gset Z :=
  let '(E1, E2, E3, E4) := E in
  let '(y, yv) := p in
  (if is_left_endpoint (first yv) i then E1 ∪ {[y]} else E1,
   if is_right_endpoint (first yv) i then E2 ∪ {[y]} else E2,
   if is_left_endpoint (second yv) i then E3 ∪ {[y]} else E3,
   if is_right_endpoint (second yv) i then E4 ∪ {[y]} else E4).

Definition classify_events_at (g : TwoIntervalBipartiteGraph) (i : Z)
  : gset Z * gset Z * gset Z * gset Z :=
  foldl (classify_step i) (∅, ∅, ∅, ∅) (py_enumerate (y_vertices g)).

Definition neighbors_of_x (g : TwoIntervalBipartiteGraph) (i : Z)
  : result (list Z) :=
  if decide (0 ≤ i < n g) then py_index (neighbors_x g) i else Ok [].

(** [max(rs)]; both callers test that [rs] is not empty first. *)
Definition py_max (rs : list Z) : Z :=
  match rs with
  | [] => 0
  | x :: rs' => foldl Z.max x rs'
  end.

Definition is_convex_at (g : TwoIntervalBipartiteGraph) (y i : Z) : result bool :=
  yv ← py_index (y_vertices g) y ;
  let rs1 := if is_empty (first yv) then [] else option_list (r (first yv)) in
  let rs := rs1 ++ (if is_empty (second yv) then [] else option_list (r (second yv))) in
  match rs with
  | [] => Ok false
  | _ => Ok (bool_decide (py_max rs ≤ i))
  end.

(** The two graphs of [tests/test_small_graphs.py]. *)
Definition iv (a b : Z) : TwoInterval := mkTwoInterval (Some a) (Some b).
Definition iv_none : TwoInterval := mkTwoInterval None None.

Definition hamiltonian_n3_vertices : list YVertex :=
  [ mkYVertex (iv 0 1) iv_none;
    mkYVertex (iv 1 2) iv_none;
    mkYVertex (iv 0 0) (iv 2 2) ].

Definition non_hamiltonian_n3_vertices : list YVertex :=
  [ mkYVertex (iv 0 1) iv_none;
    mkYVertex (iv 1 2) iv_none;
    mkYVertex (iv 0 0) iv_none ].

Definition build_hamiltonian_n3_graph : result TwoIntervalBipartiteGraph :=
  construct 3 hamiltonian_n3_vertices.

Definition build_non_hamiltonian_n3_graph : result TwoIntervalBipartiteGraph :=
  construct 3 non_hamiltonian_n3_vertices.


(** ** Insertion-ordered dictionaries *)

Section odict.
Context {K V : Type} `{EqDecision K}.

(** [d.get(key)] *)
Fixpoint od_get (d : list (K * V)) (key : K) : option V :=
  match d with
  | [] => None
  | (k', v) :: d' => if decide (k' = key) then Some v else od_get d' key
  end.

(** [key in d] *)
Definition od_mem (d : list (K * V)) (key : K) : bool :=
  bool_decide (is_Some (od_get d key)).

(** [d[key] = v]: an existing key keeps its position. *)
Fixpoint od_set (d : list (K * V)) (key : K) (v : V) : list (K * V) :=
  match d with
  | [] => [(key, v)]
  | (k', v') :: d' =>
      if decide (k' = key) then (k', v) :: d' else (k', v') :: od_set d' key v
  end.

(** [d.keys()] *)
Definition od_keys (d : list (K * V)) : list K := d.*1.

(** [d.values()] *)
Definition od_values (d : list (K * V)) : list V := d.*2.
End odict.

(** ** dp_solver.py *)

Record DPState : Type := mkDPState {
  k : Z;
  open_set : list Z;
  loose_flag : Z
}.

#[global] Instance DPState_eq_dec : EqDecision DPState.
Proof. solve_decision. Defined.

Record DPPredecessor : Type := mkDPPredecessor {
  prev_state : DPState;
  transition_type : string;
  added_edges : list Edge
}.

Record DPStats : Type := mkDPStats {
  total_states : Z;
  states_per_k : list (Z * Z);
  max_states_per_k : Z;
  stats_transitions_per_type : list (string * Z);
  accepted : bool
}.

Definition check_stack_order (g : TwoIntervalBipartiteGraph) (y1 y2 : Z)
  : result bool :=
  yv1 ← py_index (y_vertices g) y1 ;
  yv2 ← py_index (y_vertices g) y2 ;
  if is_empty (second yv1) || is_empty (first yv2) then Ok false
  else match l (second yv1), r (first yv2) with
       | Some a, Some b => Ok (bool_decide (b < a))
       | _, _ => Raise TypeError
       end.

(** The mutable fields of a [HamiltonianDPSolver]; [self.g] and
    [self.n = graph.n] never change and are passed as the graph. *)
Record solver : Type := mkSolver {
  reachable : list (DPState * bool);
  predecessor : list (DPState * DPPredecessor);
  transitions_per_type : list (string * Z)
}.

(** A solver as [__init__] leaves it, and as the three [clear()] calls do. *)
Definition solver_empty : solver := mkSolver [] [] [].

(** [transitions_per_type[ttype] += 1] on a [defaultdict(int)]. *)
Definition count_transition (d : list (string * Z)) (ttype : string)
  : list (string * Z) :=
  od_set d ttype (default 0 (od_get d ttype) + 1).

(** The guarded insertion shared by [_initial_states] and [run]:
    [if s not in self.reachable: ...]. *)
Definition discover (st : solver) (s prev : DPState) (ttype : string)
    (es : list Edge) : solver :=
  if od_mem (reachable st) s then st
  else mkSolver (od_set (reachable st) s true)
                (od_set (predecessor st) s (mkDPPredecessor prev ttype es))
                (count_transition (transitions_per_type st) ttype).

(** The test [(not yv.second.is_empty) and (yv.second.l > 0)] of
    [_initial_states]. *)
Definition second_right_of_x0 (yv : YVertex) : bool :=
  negb (is_empty (second yv))
  && match l (second yv) with
     | Some a => bool_decide (0 < a)
     | None => false
     end.

Definition initial_states_step (g : TwoIntervalBipartiteGraph) (st : solver)
    (y : Z) : result solver :=
  yv ← py_index (y_vertices g) y ;
  let O := if second_right_of_x0 yv then [y] else [] in
  let s := mkDPState 1 O 1 in
  Ok (discover st s (mkDPState 0 [] 1) "INIT" [x_edge 0 y]).

Definition initial_states (g : TwoIntervalBipartiteGraph) (st : solver)
  : result solver :=
  let base := mkDPState 1 [] 1 in
  let st := mkSolver (od_set (reachable st) base true)
                     (predecessor st) (transitions_per_type st) in
  x0_neighbors ← neighbors_of_x g 0 ;
  foldM (initial_states_step g) x0_neighbors st.

Definition transition : Type := DPState * string * list Edge.

Definition t1_step (k : Z) (O : list Z) (results : list transition)
    (yclose : Z) : list transition :=
  let new_O := py_sorted (filter (λ y, y ≠ yclose) O) in
  results ++ [(mkDPState (k + 1) new_O 0, "T1"%string, [x_edge k yclose])].

Definition t2_step (g : TwoIntervalBipartiteGraph) (k : Z) (O : list Z)
    (results : list transition) (yopen : Z) : result (list transition) :=
  if decide (2 ≤ Z.of_nat (length O)) then Ok results
  else
    O_after ←
      (if decide (Z.of_nat (length O) = 1) then
         y_old ← py_index O 0 ;
         ok ← check_stack_order g y_old yopen ;
         Ok (if (ok : bool) then Some ({[y_old; yopen]} : gset Z) else None)
       else Ok (Some ({[yopen]} : gset Z))) ;
    match O_after with
    | None => Ok results
    | Some O_after =>
        let new_O := py_sorted (elements O_after) in
        Ok (results ++ [(mkDPState (k + 1) new_O 0, "T2"%string, [x_edge k yopen])])
    end.

Definition t3_step (g : TwoIntervalBipartiteGraph) (k : Z) (O : list Z)
    (yclose : Z) (results : list transition) (yopen : Z)
  : result (list transition) :=
  let O_before := filter (λ y, y ≠ yclose) O in
  if decide (1 < Z.of_nat (length O_before)) then Ok results
  else
    O_after ←
      (if decide (Z.of_nat (length O_before) = 1) then
         y_old ← py_index O_before 0 ;
         ok ← check_stack_order g y_old yopen ;
         Ok (if (ok : bool) then Some ({[y_old; yopen]} : gset Z) else None)
       else Ok (Some ({[yopen]} : gset Z))) ;
    match O_after with
    | None => Ok results
    | Some O_after =>
        let new_O := py_sorted (elements O_after) in
        Ok (results ++ [(mkDPState (k + 1) new_O 0, "T3"%string,
                         [x_edge k yclose; x_edge k yopen])])
    end.

Definition t4_step (g : TwoIntervalBipartiteGraph) (k : Z) (O : list Z)
    (results : list transition) (y : Z) : result (list transition) :=
  convex ← is_convex_at g y k ;
  if (convex : bool) then
    Ok (results ++ [(mkDPState (k + 1) (py_sorted O) 1, "T4"%string, [x_edge k y])])
  else Ok results.

(** [_enumerate_transitions(state)]; the current X-index [i] is [k]. *)
Definition enumerate_transitions (g : TwoIntervalBipartiteGraph)
    (state : DPState) : result (list transition) :=
  let k := k state in
  let O := open_set state in
  let L := loose_flag state in
  if decide (n g ≤ k) then Ok []
  else
    v_neighbors ← neighbors_of_x g k ;
    match v_neighbors with
    | [] => Ok []
    | _ =>
      let '(E1, E2, E3, E4) := classify_events_at g k in
      let Oset : gset Z := list_to_set O in
      let results : list transition := [] in
      let results :=
        if decide (L = 1) then foldl (t1_step k O) results (elements (Oset ∩ E3))
        else results in
      results ←
        (if decide (L = 1)
         then foldM (t2_step g k O) (elements ((E1 ∪ E2) ∖ Oset)) results
         else Ok results) ;
      results ←
        (if decide (L = 0)
         then foldM (λ results yclose,
                       foldM (t3_step g k O yclose) (elements (E2 ∖ Oset)) results)
                    (elements (Oset ∩ E3)) results
         else Ok results) ;
      results ←
        (if decide (L = 1) then foldM (t4_step g k O) v_neighbors results
         else Ok results) ;
      if bool_decide (E1 = ∅) && bool_decide (E2 = ∅)
         && bool_decide (E3 = ∅) && bool_decide (E4 = ∅)
      then Ok (results ++ [(mkDPState (k + 1) (py_sorted O) L, "T5"%string, [])])
      else Ok results
    end.

(** The body of [for state in current_states]. *)
Definition run_state (g : TwoIntervalBipartiteGraph) (st : solver)
    (state : DPState) : result solver :=
  if negb (default false (od_get (reachable st) state)) then Ok st
  else
    ts ← enumerate_transitions g state ;
    Ok (foldl (λ st (t : transition), discover st t.1.1 state t.1.2 t.2) st ts).

(** The body of [for k in range(1, self.n)]. *)
Definition run_layer (g : TwoIntervalBipartiteGraph)
    (acc : solver * list (Z * Z)) (kk : Z) : result (solver * list (Z * Z)) :=
  let '(st, states_per_k) := acc in
  let current_states := filter (λ s, k s = kk) (od_keys (reachable st)) in
  let states_per_k := od_set states_per_k kk (Z.of_nat (length current_states)) in
  st ← foldM (run_state g) current_states st ;
  Ok (st, states_per_k).

(** [run()]: returns the statistics and the solver as the call leaves it.
    The three [clear()] calls make the incoming maps irrelevant; the
    statistics hold copies ([dict(...)]) of the maps, so a later run does not
    change statistics already returned. *)
Definition run (g : TwoIntervalBipartiteGraph) (st : solver)
  : result (DPStats * solver) :=
  let st := solver_empty in
  st ← initial_states g st ;
  '(st, states_per_k) ← foldM (run_layer g) (py_range 1 (n g)) (st, []) ;
  let final_state := mkDPState (n g) [] 0 in
  let accepted := default false (od_get (reachable st) final_state) in
  let total_states := Z.of_nat (length (reachable st)) in
  let max_states_per_k :=
    match states_per_k with
    | [] => 0
    | _ => py_max (od_values states_per_k)
    end in
  Ok (mkDPStats total_states states_per_k max_states_per_k
                (transitions_per_type st) accepted, st).

Definition has_hamiltonian_cycle (g : TwoIntervalBipartiteGraph) (st : solver)
  : result (bool * solver) :=
  '(stats, st) ← run g st ;
  Ok (accepted stats, st).


(** ** backtracking.py *)

(** The variables [visited_x], [visited_y] and [path] of one [find_cycle]
    call, which the nested [dfs] closure mutates. *)
Record search : Type := mkSearch {
  visited_x : list bool;
  visited_y : list bool;
  path : list (string * Z)
}.

(** The side a step moves to: [true] for the loop [Y -> X], [false] for the
    loop [X -> Y].  The two loops of [dfs] differ only in the marker array
    and the tag they use. *)
Definition visited (to_x : bool) (st : search) : list bool :=
  if to_x then visited_x st else visited_y st.

Definition set_visited (to_x : bool) (st : search) (v : list bool) : search :=
  if to_x then mkSearch v (visited_y st) (path st)
  else mkSearch (visited_x st) v (path st).

Definition tag (is_x : bool) : string := if is_x then "X"%string else "Y"%string.

(** [path.pop()] *)
Definition py_pop {A : Type} (l : list A) : result (list A) :=
  match l with
  | [] => Raise IndexError
  | _ => Ok (removelast l)
  end.

(** A call of a Python function when the interpreter allows [depth] further
    nested calls: with none left the call raises [RecursionError]. *)
Definition py_call {A : Type} (depth : nat) (m : result A) : result A :=
  match depth with
  | O => Raise RecursionError
  | S _ => m
  end.

(** [is_edge(i, y)]: [y in x_neighbors[i]]. *)
Definition is_edge (x_neighbors : list (list Z)) (i y : Z) : result bool :=
  row ← py_index x_neighbors i ;
  Ok (bool_decide (y ∈ row)).

(** One of the two [for] loops of [dfs], over the candidates [cands];
    [rec] is the recursive call [dfs(to_x, _)]. *)
Fixpoint dfs_loop (rec : Z → search → result (bool * search)) (to_x : bool)
    (cands : list Z) (st : search) : result (bool * search) :=
  match cands with
  | [] => Ok (false, st)
  | c :: cands' =>
      seen ← py_index (visited to_x st) c ;
      if (seen : bool) then dfs_loop rec to_x cands' st
      else
        v ← py_setitem (visited to_x st) c true ;
        let st := set_visited to_x st v in
        let st := mkSearch (visited_x st) (visited_y st) (path st ++ [(tag to_x, c)]) in
        '(found, st) ← rec c st ;
        if (found : bool) then Ok (true, st)
        else
          p ← py_pop (path st) ;
          let st := mkSearch (visited_x st) (visited_y st) p in
          v ← py_setitem (visited to_x st) c false ;
          dfs_loop rec to_x cands' (set_visited to_x st v)
  end.

(** [dfs(current_is_x, current_idx)].  The source recurses once for every
    entry it appends to [path], and calls [is_edge] on a full path; each of
    these calls takes an interpreter frame.  [depth] is the number of nested
    calls the interpreter still allows: a call made with none left raises
    [RecursionError], which nothing in [find_cycle] catches. *)
Fixpoint dfs (depth : nat) (n : Z) (x_neighbors y_neighbors : list (list Z))
    (current_is_x : bool) (current_idx : Z) (st : search)
  : result (bool * search) :=
  match depth with
  | O => Raise RecursionError
  | S depth' =>
      if decide (Z.of_nat (length (path st)) = 2 * n) then
        '(first_type, first_idx) ← py_index (path st) 0 ;
        if bool_decide (current_is_x = bool_decide (first_type = "X"%string))
        then Ok (false, st)
        else if current_is_x then
          b ← py_call depth' (is_edge x_neighbors current_idx first_idx) ; Ok (b, st)
        else
          b ← py_call depth' (is_edge x_neighbors first_idx current_idx) ; Ok (b, st)
      else if current_is_x then
        row ← py_index x_neighbors current_idx ;
        dfs_loop (dfs depth' n x_neighbors y_neighbors false) false row st
      else
        row ← py_index y_neighbors current_idx ;
        dfs_loop (dfs depth' n x_neighbors y_neighbors true) true row st
  end.

(** [y_neighbors[y].append(i)] for every [y] in [x_neighbors[i]]. *)
Definition y_neighbors_row (x_neighbors : list (list Z))
    (yn : list (list Z)) (i : Z) : result (list (list Z)) :=
  row ← py_index x_neighbors i ;
  foldM (λ yn y, old ← py_index yn y ; py_setitem yn y (old ++ [i])) row yn.

Definition build_y_neighbors (n : Z) (x_neighbors : list (list Z))
  : result (list (list Z)) :=
  foldM (y_neighbors_row x_neighbors) (py_range 0 n) (replicate (Z.to_nat n) []).

(** [for i in range(n): visited_x[i] = False; visited_y[i] = False]. *)
Definition reset_visited (n : Z) (st : search) : result search :=
  foldM (λ st i,
           vx ← py_setitem (visited_x st) i false ;
           vy ← py_setitem (visited_y st) i false ;
           Ok (mkSearch vx vy (path st)))
        (py_range 0 n) st.

(** The loop [for start in range(n)] with its early return. *)
Fixpoint try_starts (depth : nat) (n : Z) (x_neighbors y_neighbors : list (list Z))
    (starts : list Z) (st : search) : result (option (list (string * Z))) :=
  match starts with
  | [] => Ok None
  | start :: starts' =>
      st ← reset_visited n st ;
      let st := mkSearch (visited_x st) (visited_y st) [] in
      vx ← py_setitem (visited_x st) start true ;
      let st := mkSearch vx (visited_y st) (path st ++ [("X"%string, start)]) in
      '(found, st) ← dfs depth n x_neighbors y_neighbors true start st ;
      if (found : bool) then Ok (Some (path st))
      else try_starts depth n x_neighbors y_neighbors starts' st
  end.

(** [find_cycle()]: [Some] cycle, or [None].  [depth] is the number of
    nested calls the interpreter still allows inside the body of
    [find_cycle]: its recursion limit less the frames already in use. *)
Definition find_cycle (depth : nat) (g : TwoIntervalBipartiteGraph)
  : result (option (list (string * Z))) :=
  let n := n g in
  if decide (n = 0) then Ok (Some [])
  else
    let x_neighbors := neighbors_x g in
    y_neighbors ← build_y_neighbors n x_neighbors ;
    let st := mkSearch (replicate (Z.to_nat n) false)
                       (replicate (Z.to_nat n) false) [] in
    try_starts depth n x_neighbors y_neighbors (py_range 0 n) st.


(* ================================================================== *)
(** * Specification predicates *)

Definition is_raise {A : Type} (m : result A) : Prop := ∃ e, m = Raise e.

(** A non-empty interval with a bound outside [[0, n-1]] or with [l > r]. *)
Definition interval_violation (n : Z) (it : TwoInterval) : Prop :=
  ∃ a b, l it = Some a ∧ r it = Some b
         ∧ ¬ (0 ≤ a ≤ n - 1 ∧ 0 ≤ b ≤ n - 1 ∧ a ≤ b).

(** Both intervals non-empty without [first.r < second.l]. *)
Definition order_violation (yv : YVertex) : Prop :=
  ∃ a1 b1 a2 b2, l (first yv) = Some a1 ∧ r (first yv) = Some b1
                 ∧ l (second yv) = Some a2 ∧ r (second yv) = Some b2
                 ∧ ¬ (b1 < a2).

Definition structural_violation (n : Z) (ys : list YVertex) : Prop :=
  Z.of_nat (length ys) ≠ n
  ∨ ∃ yv, yv ∈ ys ∧ (interval_violation n (first yv)
                     ∨ interval_violation n (second yv)
                     ∨ order_violation yv).

(** X-index [i] lies in one of the intervals of Y-vertex [y]. *)
Definition adjacent (ys : list YVertex) (i y : Z) : Prop :=
  0 ≤ y ∧ ∃ yv, ys !! Z.to_nat y = Some yv
                ∧ (contains (first yv) i = true ∨ contains (second yv) i = true).

Definition row (nx : list (list Z)) (i : Z) : list Z :=
  default [] (nx !! Z.to_nat i).

(** The adjacency lists and the edge set hold exactly the pairs that the
    intervals describe. *)
Definition fully_built (g : TwoIntervalBipartiteGraph) : Prop :=
  Z.of_nat (length (neighbors_x g)) = n g
  ∧ (∀ i y, 0 ≤ i < n g → y ∈ row (neighbors_x g) i ↔ adjacent (y_vertices g) i y)
  ∧ (∀ e, e ∈ edges g ↔ ∃ i y, adjacent (y_vertices g) i y ∧ e = x_edge i y).

(** A graph that the constructor returned. *)
Definition valid_graph (g : TwoIntervalBipartiteGraph) : Prop :=
  construct (n g) (y_vertices g) = Ok g.

(** [grows P st st']: the adjacency under construction gained exactly the
    pairs [P]. *)
Definition grows (P : Z → Z → Prop) (st st' : list (list Z) * gset Edge) : Prop :=
  length st'.1 = length st.1
  ∧ (∀ i y, 0 ≤ i → y ∈ row st'.1 i ↔ y ∈ row st.1 i ∨ P i y)
  ∧ (∀ e, e ∈ st'.2 ↔ e ∈ st.2 ∨ ∃ i y, P i y ∧ e = x_edge i y).


(** The four event sets of [classify_events_at]. *)
Definition ev1 (E : gset Z * gset Z * gset Z * gset Z) : gset Z := E.1.1.1.
Definition ev2 (E : gset Z * gset Z * gset Z * gset Z) : gset Z := E.1.1.2.
Definition ev3 (E : gset Z * gset Z * gset Z * gset Z) : gset Z := E.1.2.
Definition ev4 (E : gset Z * gset Z * gset Z * gset Z) : gset Z := E.2.

(** The open set after opening [yopen] next to the open vertices [O_rest]
    that stay: the block shared by T2 and T3. *)
Definition opens (g : TwoIntervalBipartiteGraph) (O_rest : list Z) (yopen : Z)
    (O_after : gset Z) : Prop :=
  (O_rest = [] ∧ O_after = {[yopen]})
  ∨ (∃ y_old, O_rest = [y_old] ∧ check_stack_order g y_old yopen = Ok true
              ∧ O_after = {[y_old; yopen]}).

(** The transitions of [_enumerate_transitions] as a relation, one
    constructor for each way a triple is appended to [results]. *)
Inductive fires (g : TwoIntervalBipartiteGraph) (s : DPState) (vn : list Z)
  : transition → Prop :=
  | fires_T1 yclose :
      loose_flag s = 1 →
      yclose ∈ open_set s → yclose ∈ ev3 (classify_events_at g (k s)) →
      fires g s vn
        (mkDPState (k s + 1)
                   (py_sorted (filter (λ y, y ≠ yclose) (open_set s))) 0,
         "T1"%string, [x_edge (k s) yclose])
  | fires_T2 yopen O_after :
      loose_flag s = 1 →
      yopen ∈ ev1 (classify_events_at g (k s)) ∪ ev2 (classify_events_at g (k s)) →
      yopen ∉ open_set s →
      opens g (open_set s) yopen O_after →
      fires g s vn
        (mkDPState (k s + 1) (py_sorted (elements O_after)) 0,
         "T2"%string, [x_edge (k s) yopen])
  | fires_T3 yclose yopen O_after :
      loose_flag s = 0 →
      yclose ∈ open_set s → yclose ∈ ev3 (classify_events_at g (k s)) →
      yopen ∈ ev2 (classify_events_at g (k s)) → yopen ∉ open_set s →
      opens g (filter (λ y, y ≠ yclose) (open_set s)) yopen O_after →
      fires g s vn
        (mkDPState (k s + 1) (py_sorted (elements O_after)) 0,
         "T3"%string, [x_edge (k s) yclose; x_edge (k s) yopen])
  | fires_T4 y :
      loose_flag s = 1 →
      y ∈ vn → is_convex_at g y (k s) = Ok true →
      fires g s vn
        (mkDPState (k s + 1) (py_sorted (open_set s)) 1,
         "T4"%string, [x_edge (k s) y])
  | fires_T5 :
      ev1 (classify_events_at g (k s)) = ∅ → ev2 (classify_events_at g (k s)) = ∅ →
      ev3 (classify_events_at g (k s)) = ∅ → ev4 (classify_events_at g (k s)) = ∅ →
      fires g s vn
        (mkDPState (k s + 1) (py_sorted (open_set s)) (loose_flag s),
         "T5"%string, []).

(** The bounds a DP state has to respect. *)
Definition state_ok (g : TwoIntervalBipartiteGraph) (s : DPState) : Prop :=
  0 ≤ k s ≤ n g
  ∧ (length (open_set s) ≤ 2)%nat
  ∧ (loose_flag s = 0 ∨ loose_flag s = 1).

(** Every open vertex is the index of a Y-vertex. *)
Definition open_in_range (g : TwoIntervalBipartiteGraph) (s : DPState) : Prop :=
  Forall (λ y, 0 ≤ y < n g) (open_set s).

(** The graphs that [build_hamiltonian_n3_graph] and
    [build_non_hamiltonian_n3_graph] return. *)
Definition hamiltonian_n3_graph : TwoIntervalBipartiteGraph :=
  mkGraph 3 hamiltonian_n3_vertices [[0; 2]; [0; 1]; [1; 2]]
    (list_to_set [x_edge 0 0; x_edge 1 0; x_edge 1 1; x_edge 2 1;
                  x_edge 0 2; x_edge 2 2]).

Definition non_hamiltonian_n3_graph : TwoIntervalBipartiteGraph :=
  mkGraph 3 non_hamiltonian_n3_vertices [[0; 2]; [0; 1]; [1]]
    (list_to_set [x_edge 0 0; x_edge 1 0; x_edge 1 1; x_edge 2 1; x_edge 0 2]).

(** The graph on one X- and one Y-vertex joined by an edge. *)
Definition single_edge_graph : TwoIntervalBipartiteGraph :=
  mkGraph 1 [mkYVertex (iv 0 0) iv_none] [[0]] {[x_edge 0 0]}.

(** The initial frontier: the loose state, and one state for every Y-vertex
    adjacent to X-index 0, open exactly when its second interval is not empty
    and starts to the right of 0. *)
Definition seed (g : TwoIntervalBipartiteGraph) (s : DPState) : Prop :=
  s = mkDPState 1 [] 1
  ∨ ∃ y yv, adjacent (y_vertices g) 0 y
            ∧ y_vertices g !! Z.to_nat y = Some yv
            ∧ s = mkDPState 1 (if second_right_of_x0 yv then [y] else []) 1.

(** The states the run protocol discovers: the seeds of layer 1 and, for
    [k] from 1 to [n-1], every successor of a discovered layer-[k] state. *)
Inductive Reach (g : TwoIntervalBipartiteGraph) : DPState → Prop :=
  | Reach_seed s : seed g s → Reach g s
  | Reach_step s ts t :
      Reach g s → 1 ≤ k s ≤ n g - 1 →
      enumerate_transitions g s = Ok ts → t ∈ ts →
      Reach g t.1.1.

(** [s'] is a successor state of [c]. *)
Definition succs (g : TwoIntervalBipartiteGraph) (c s' : DPState) : Prop :=
  ∃ ts t, enumerate_transitions g c = Ok ts ∧ t ∈ ts ∧ s' = t.1.1.

(** Every value stored in [reachable] is [True]. *)
Definition all_true (st : solver) : Prop :=
  Forall (λ p : DPState * bool, p.2 = true) (reachable st).

(** The solver between two layers: [reachable] holds the discovered states
    of the layers up to [j]. *)
Definition layer_inv (g : TwoIntervalBipartiteGraph) (j : Z) (st : solver) : Prop :=
  all_true st
  ∧ ∀ s, s ∈ od_keys (reachable st) ↔ Reach g s ∧ k s ≤ j.

(** The accepting state [(n, ∅, 0)]. *)
Definition final_state (g : TwoIntervalBipartiteGraph) : DPState :=
  mkDPState (n g) [] 0.

(** No interval boundary touches X-index [i]. *)
Definition no_events (g : TwoIntervalBipartiteGraph) (i : Z) : Prop :=
  ev1 (classify_events_at g i) = ∅ ∧ ev2 (classify_events_at g i) = ∅
  ∧ ev3 (classify_events_at g i) = ∅ ∧ ev4 (classify_events_at g i) = ∅.

(** ** Cycles *)

(** The tags alternate, starting with ["X"]. *)
Definition alternates (p : list (string * Z)) : Prop :=
  ∀ (j : nat) a, p !! j = Some a → a.1 = tag (Nat.even j).

Definition in_range (N : Z) (p : list (string * Z)) : Prop :=
  ∀ a, a ∈ p → 0 ≤ a.2 < N.

(** [a] and [b] lie on opposite sides and are related by [E], read as
    "X-index, Y-index". *)
Definition joined (E : Z → Z → Prop) (a b : string * Z) : Prop :=
  (a.1 = "X"%string ∧ b.1 = "Y"%string ∧ E a.2 b.2)
  ∨ (a.1 = "Y"%string ∧ b.1 = "X"%string ∧ E b.2 a.2).

Definition chained (E : Z → Z → Prop) (p : list (string * Z)) : Prop :=
  ∀ (j : nat) a b, p !! j = Some a → p !! S j = Some b → joined E a b.

Definition closes (E : Z → Z → Prop) (p : list (string * Z)) : Prop :=
  ∀ a b, last p = Some a → head p = Some b → joined E a b.

Definition graph_edge (g : TwoIntervalBipartiteGraph) (i y : Z) : Prop :=
  x_edge i y ∈ edges g.

(** An alternating Hamiltonian cycle of the graph: [2n] side-tagged indices,
    every X-index and every Y-index exactly once, consecutive ones joined by
    an edge and the last one joined to the first. *)
Definition hamiltonian_cycle (g : TwoIntervalBipartiteGraph)
    (c : list (string * Z)) : Prop :=
  Z.of_nat (length c) = 2 * n g
  ∧ alternates c
  ∧ NoDup c
  ∧ (∀ i, 0 ≤ i < n g → ("X"%string, i) ∈ c ∧ ("Y"%string, i) ∈ c)
  ∧ chained (graph_edge g) c
  ∧ closes (graph_edge g) c.

(** Membership in the adjacency lists [xn], for an X-index in range. *)
Definition list_edge (N : Z) (xn : list (list Z)) (i y : Z) : Prop :=
  0 ≤ i < N ∧ y ∈ row xn i.

(** What [dfs] returns [True] on: a full path that closes. *)
Definition cycle_ok (N : Z) (xn : list (list Z)) (p : list (string * Z)) : Prop :=
  Z.of_nat (length p) = 2 * N
  ∧ alternates p ∧ NoDup p ∧ in_range N p
  ∧ chained (list_edge N xn) p ∧ closes (list_edge N xn) p.

(** The state of the search when [dfs(current_is_x, current_idx)] is
    entered. *)
Definition search_inv (N : Z) (xn : list (list Z)) (st : search)
    (current_is_x : bool) (current_idx : Z) : Prop :=
  Z.of_nat (length (visited_x st)) = N
  ∧ Z.of_nat (length (visited_y st)) = N
  ∧ last (path st) = Some (tag current_is_x, current_idx)
  ∧ alternates (path st) ∧ NoDup (path st) ∧ in_range N (path st)
  ∧ chained (list_edge N xn) (path st)
  ∧ ∀ (b : bool) i, 0 ≤ i < N →
      visited b st !! Z.to_nat i = Some true ↔ (tag b, i) ∈ path st.

(** The adjacency lists of the Y side are the transpose of [xn]. *)
Definition transposed (N : Z) (xn yn : list (list Z)) : Prop :=
  Z.of_nat (length yn) = N
  ∧ ∀ y i, 0 ≤ y < N → i ∈ row yn y ↔ list_edge N xn i y.

(** The adjacency lists have [N] rows whose entries are below [N]. *)
Definition rows_in_range (N : Z) (xn : list (list Z)) : Prop :=
  Z.of_nat (length xn) = N
  ∧ ∀ i y, 0 ≤ i < N → y ∈ row xn i → 0 ≤ y < N.

(* ================================================================== *)
(** * Further properties: definitions *)

(** The bounds of a non-empty interval are in order. *)
Definition bounds_ordered (it : TwoInterval) : Prop :=
  ∀ a b, l it = Some a → r it = Some b → a ≤ b.

(** [y] is a position of a list of length [len], counted from either end. *)
Definition index_ok (len y : Z) : Prop := - len ≤ y < len.

(** [i in yv.first or i in yv.second] for the Y-vertex at position [y]. *)
Definition adjacentb (ys : list YVertex) (i y : Z) : bool :=
  match ys !! Z.to_nat y with
  | Some yv => contains (first yv) i || contains (second yv) i
  | None => false
  end.

(** [appends P y nx nx']: the adjacency lists [nx'] are [nx] with [y]
    appended to the rows selected by [P]. *)
Definition appends (P : Z → bool) (y : Z) (nx nx' : list (list Z)) : Prop :=
  length nx' = length nx
  ∧ ∀ i, 0 ≤ i → row nx' i = row nx i ++ (if P i then [y] else []).

(** The complete bipartite graph on two X- and two Y-vertices: both
    Y-vertices have the single interval [[0, 1]]. *)
Definition square_graph : TwoIntervalBipartiteGraph :=
  mkGraph 2 [mkYVertex (iv 0 1) iv_none; mkYVertex (iv 0 1) iv_none]
    [[0; 1]; [0; 1]]
    (list_to_set [x_edge 0 0; x_edge 1 0; x_edge 0 1; x_edge 1 1]).

(** [sum(d.values())] *)
Definition sum_values {K : Type} (d : list (K * Z)) : Z :=
  foldr Z.add 0 (od_values d).

(** The loose state that [_initial_states] inserts first. *)
Definition base_state : DPState := mkDPState 1 [] 1.

(** The maps are in step: every state but the loose one was entered into
    [reachable] and [predecessor] together, and counted once. *)
Definition maps_in_step (st : solver) : Prop :=
  od_keys (reachable st) = base_state :: od_keys (predecessor st)
  ∧ NoDup (od_keys (reachable st))
  ∧ sum_values (transitions_per_type st) = Z.of_nat (length (predecessor st)).

(** The record [p] stored for [s] describes how [s] was first reached:
    from the virtual state [(0, ∅, 1)] by INIT, or from a state of
    [reachable] by one of its transitions. *)
Definition record_ok (g : TwoIntervalBipartiteGraph) (st : solver)
    (s : DPState) (p : DPPredecessor) : Prop :=
  s ∈ od_keys (reachable st)
  ∧ ((transition_type p = "INIT"%string ∧ prev_state p = mkDPState 0 [] 1
      ∧ k s = 1
      ∧ ∃ y, added_edges p = [x_edge 0 y]
             ∧ ∃ x0, neighbors_of_x g 0 = Ok x0 ∧ y ∈ x0)
     ∨ (prev_state p ∈ od_keys (reachable st)
        ∧ ∃ ts, enumerate_transitions g (prev_state p) = Ok ts
                ∧ (s, transition_type p, added_edges p) ∈ ts)).

(** The number of states of layer [j] stored in [reachable]. *)
Definition count_layer (j : Z) (st : solver) : Z :=
  Z.of_nat (length (filter (λ s, k s = j) (od_keys (reachable st)))).

(** Two X- and two Y-vertices; [Y0 = [0,0] ∪ [1,1]] and [Y1 = [0,0]], so that
    X-index 1 has the single neighbour Y0. *)
Definition pendant_graph : TwoIntervalBipartiteGraph :=
  mkGraph 2 [mkYVertex (iv 0 0) (iv 1 1); mkYVertex (iv 0 0) iv_none]
    [[0; 1]; [0]]
    (list_to_set [x_edge 0 0; x_edge 1 0; x_edge 0 1]).
(* ================================================================== *)
(** * Proofs *)

(** ** The exception monad *)

Lemma bind_Ok {A B : Type} (m : result A) (f : A → result B) (b : B) :
  (m ≫= f) = Ok b ↔ ∃ a, m = Ok a ∧ f a = Ok b.
Proof.
  destruct m as [a|e]; simpl; split.
  - eauto.
  - intros (a' & [= <-] & ?). done.
  - done.
  - intros (a' & ? & ?). done.
Qed.

Ltac inv_bind H :=
  repeat match type of H with
  | (_ ≫= _) = Ok _ =>
      let a := fresh "a" in let Ha := fresh "Ha" in
      apply bind_Ok in H as (a & Ha & H)
  end.

(** Step over a bind whose first computation has returned. *)
Ltac ok_step :=
  match goal with
  | |- context [mbind ?f (Ok ?a)] => change (mbind f (Ok a)) with (f a); cbv beta
  end.

Lemma foldM_app {A S : Type} (body : S → A → result S) xs ys st :
  foldM body (xs ++ ys) st = (foldM body xs st ≫= foldM body ys).
Proof.
  revert st. induction xs as [|x xs IH]; intros st; simpl; [done|].
  destruct (body st x); simpl; auto.
Qed.

(** A loop whose body preserves [P] and never raises under [P] neither
    raises nor breaks [P]. *)
Lemma foldM_inv {A S : Type} (P : S → Prop) (Q : A → Prop)
    (body : S → A → result S) xs st :
  (∀ st x, P st → Q x → ∃ st', body st x = Ok st' ∧ P st') →
  Forall Q xs → P st → ∃ st', foldM body xs st = Ok st' ∧ P st'.
Proof.
  intros Hbody HQ. revert st. induction HQ as [|x xs Hx _ IH]; intros st HP; simpl.
  - eauto.
  - destruct (Hbody st x HP Hx) as (st' & -> & HP'). simpl. auto.
Qed.

(** ** Python list primitives *)

Lemma py_index_range {A : Type} (xs : list A) (i : Z) :
  0 ≤ i < Z.of_nat (length xs) →
  ∃ a, py_index xs i = Ok a ∧ xs !! Z.to_nat i = Some a.
Proof.
  intros Hi. unfold py_index.
  destruct (decide (i < 0)); [lia|].
  destruct (decide _) as [_|]; [|lia].
  destruct (lookup_lt_is_Some_2 xs (Z.to_nat i)) as [a Ha]; [lia|].
  rewrite Ha. eauto.
Qed.

Lemma py_setitem_range {A : Type} (xs : list A) (i : Z) (a : A) :
  0 ≤ i < Z.of_nat (length xs) →
  py_setitem xs i a = Ok (<[Z.to_nat i := a]> xs).
Proof.
  intros Hi. unfold py_setitem.
  destruct (decide (i < 0)); [lia|].
  destruct (decide _) as [_|]; [done|lia].
Qed.

Lemma elem_of_py_range (a b i : Z) : i ∈ py_range a b ↔ a ≤ i < b.
Proof.
  unfold py_range. rewrite list_elem_of_fmap. split.
  - intros (j & -> & Hj). apply elem_of_seq in Hj. lia.
  - intros Hi. exists (Z.to_nat (i - a)). split; [lia|].
    apply elem_of_seq. lia.
Qed.

Lemma py_range_empty (a b : Z) : b ≤ a → py_range a b = [].
Proof. intros H. unfold py_range. by replace (Z.to_nat (b - a)) with 0%nat by lia. Qed.

Lemma py_range_snoc (a b : Z) : a ≤ b → py_range a (b + 1) = py_range a b ++ [b].
Proof.
  intros H. unfold py_range.
  replace (Z.to_nat (b + 1 - a)) with (Z.to_nat (b - a) + 1)%nat by lia.
  rewrite seq_app, fmap_app. simpl. do 2 f_equal. lia.
Qed.

Lemma elem_of_py_enumerate {A : Type} (xs : list A) (j : Z) (a : A) :
  (j, a) ∈ py_enumerate xs ↔ 0 ≤ j ∧ xs !! Z.to_nat j = Some a.
Proof.
  unfold py_enumerate. rewrite list_elem_of_lookup. split.
  - intros (i & Hi). rewrite list_lookup_imap in Hi.
    destruct (xs !! i) eqn:E; simplify_eq/=. split; [lia|]. by rewrite Nat2Z.id.
  - intros (Hj & Hl). exists (Z.to_nat j). rewrite list_lookup_imap, Hl. simpl.
    f_equal. f_equal. lia.
Qed.

Lemma py_enumerate_snoc {A : Type} (xs : list A) (a : A) :
  py_enumerate (xs ++ [a]) = py_enumerate xs ++ [(Z.of_nat (length xs), a)].
Proof.
  unfold py_enumerate. rewrite imap_app. simpl. by rewrite Nat.add_0_r.
Qed.

(** ** Graph construction *)

Lemma check_vertices_spec (n : Z) (ys : list YVertex) :
  check_vertices n ys
  = if forallb (yvertex_ok n) ys then Ok () else Raise AssertionError.
Proof.
  unfold check_vertices. induction ys as [|yv ys IH]; simpl; [done|].
  destruct (yvertex_ok n yv); simpl; [|done]. apply IH.
Qed.

Lemma interval_ok_spec (n : Z) (it : TwoInterval) :
  interval_ok n it = true ↔ ¬ interval_violation n it.
Proof.
  unfold interval_ok, interval_violation, is_empty.
  destruct (l it) as [a|], (r it) as [b|]; simpl.
  - rewrite bool_decide_eq_true. split.
    + intros H (a' & b' & [= <-] & [= <-] & Hn). lia.
    + intros H. destruct (decide (0 ≤ a ∧ a ≤ b ∧ b < n)); [done|].
      exfalso. apply H. exists a, b. repeat split; try done. lia.
  - split; [|done]. intros _ (a' & b' & _ & [=] & _).
  - split; [|done]. intros _ (a' & b' & [=] & _).
  - split; [|done]. intros _ (a' & b' & [=] & _).
Qed.

Lemma ordered_ok_spec (yv : YVertex) :
  ordered_ok yv = true ↔ ¬ order_violation yv.
Proof.
  unfold ordered_ok, order_violation, is_empty.
  destruct (l (first yv)) as [a1|], (r (first yv)) as [b1|],
           (l (second yv)) as [a2|], (r (second yv)) as [b2|]; simpl;
    try (split; [intros _ (? & ? & ? & ? & ? & ? & ? & ? & ?); congruence | done]).
  rewrite bool_decide_eq_true. split.
  - intros H (? & ? & ? & ? & ? & [= <-] & [= <-] & ? & Hn). lia.
  - intros H. destruct (decide (b1 < a2)); [done|].
    exfalso. apply H. by exists a1, b1, a2, b2.
Qed.

Lemma yvertex_ok_spec (n : Z) (yv : YVertex) :
  yvertex_ok n yv = true
  ↔ ¬ (interval_violation n (first yv) ∨ interval_violation n (second yv)
       ∨ order_violation yv).
Proof.
  unfold yvertex_ok. rewrite !andb_true_iff, !interval_ok_spec, ordered_ok_spec.
  tauto.
Qed.

Lemma forallb_yvertex_ok (n : Z) (ys : list YVertex) :
  forallb (yvertex_ok n) ys = true
  ↔ ¬ ∃ yv, yv ∈ ys ∧ (interval_violation n (first yv)
                       ∨ interval_violation n (second yv)
                       ∨ order_violation yv).
Proof.
  rewrite forallb_forall. split.
  - intros H (yv & Hin & Hv). apply list_elem_of_In, H, yvertex_ok_spec in Hin. done.
  - intros H yv Hin. apply yvertex_ok_spec. intros Hv. apply H. exists yv.
    split; [by apply list_elem_of_In|done].
Qed.

Lemma contains_spec (it : TwoInterval) (i : Z) :
  contains it i = true ↔ ∃ a b, l it = Some a ∧ r it = Some b ∧ a ≤ i ≤ b.
Proof.
  unfold contains, is_empty.
  destruct (l it) as [a|], (r it) as [b|]; simpl;
    try (split; [done | intros (? & ? & ? & ? & ?); congruence]).
  rewrite bool_decide_eq_true. split.
  - intros ?. by exists a, b.
  - intros (? & ? & [= <-] & [= <-] & ?). done.
Qed.

Lemma grows_refl (P : Z → Z → Prop) st : (∀ i y, ¬ P i y) → grows P st st.
Proof.
  intros HP. split; [done|]. split.
  - intros i y _. specialize (HP i y). tauto.
  - intros e. split; [auto|]. intros [?|(i & y & ? & _)]; [done|]. by destruct (HP i y).
Qed.

Lemma grows_trans (P Q R : Z → Z → Prop) st1 st2 st3 :
  grows P st1 st2 → grows Q st2 st3 → (∀ i y, R i y ↔ P i y ∨ Q i y) →
  grows R st1 st3.
Proof.
  intros (Hl1 & Hr1 & He1) (Hl2 & Hr2 & He2) HR. split; [congruence|]. split.
  - intros i y Hi. rewrite Hr2, Hr1, HR by done. tauto.
  - intros e. rewrite He2, He1. split.
    + intros [[?|(i & y & ? & ?)]|(i & y & ? & ?)]; auto;
        right; exists i, y; rewrite HR; auto.
    + intros [?|(i & y & [?|?]%HR & ?)]; eauto 8.
Qed.

Lemma add_edge_grows (y_idx : Z) st (i : Z) :
  0 ≤ i < Z.of_nat (length st.1) →
  ∃ st', add_edge y_idx st i = Ok st'
         ∧ grows (λ i' y', i' = i ∧ y' = y_idx) st st'.
Proof.
  intros Hi. unfold add_edge.
  destruct (py_index_range st.1 i Hi) as (rw & -> & Hrw). simpl.
  rewrite py_setitem_range by done. simpl. eexists. split; [done|].
  split; [simpl; by rewrite length_insert|]. split; simpl.
  - intros i' y' Hi'. unfold row.
    destruct (decide (i' = i)) as [->|Hne].
    + rewrite list_lookup_insert_eq by lia. rewrite Hrw. simpl.
      rewrite elem_of_app, list_elem_of_singleton. tauto.
    + rewrite list_lookup_insert_ne by lia. tauto.
  - intros e. rewrite elem_of_union, elem_of_singleton. split.
    + intros [->|?]; [|by left]. right. by exists i, y_idx.
    + intros [?|(i' & y' & [-> ->] & ->)]; auto.
Qed.

Lemma add_edges_grows (y_idx : Z) (idxs : list Z) st :
  Forall (λ i, 0 ≤ i < Z.of_nat (length st.1)) idxs →
  ∃ st', foldM (add_edge y_idx) idxs st = Ok st'
         ∧ grows (λ i' y', i' ∈ idxs ∧ y' = y_idx) st st'.
Proof.
  revert st. induction idxs as [|i idxs IH]; intros st Hall; simpl.
  - eexists. split; [done|]. apply grows_refl. intros i y [H _]. by apply elem_of_nil in H.
  - apply Forall_cons in Hall as [Hi Hall].
    destruct (add_edge_grows y_idx st i Hi) as (st1 & -> & Hg1). simpl.
    destruct (IH st1) as (st2 & -> & Hg2).
    { destruct Hg1 as (Hlen & _). by rewrite Hlen. }
    eexists. split; [done|]. eapply grows_trans; [done..|].
    intros i' y'. simpl. rewrite elem_of_cons. tauto.
Qed.

Lemma add_interval_grows (n y_idx : Z) (it : TwoInterval) st :
  interval_ok n it = true → Z.of_nat (length st.1) = n →
  ∃ st', add_interval y_idx st it = Ok st'
         ∧ grows (λ i' y', contains it i' = true ∧ y' = y_idx) st st'.
Proof.
  intros Hok Hlen. unfold add_interval.
  destruct (is_empty it) eqn:Hemp.
  - eexists. split; [done|]. apply grows_refl. intros i y [H _].
    unfold contains in H. by rewrite Hemp in H.
  - unfold interval_ok in Hok. rewrite Hemp in Hok.
    unfold is_empty in Hemp.
    destruct (l it) as [a|] eqn:Hl, (r it) as [b|] eqn:Hr; try done.
    apply bool_decide_eq_true in Hok.
    destruct (add_edges_grows y_idx (py_range a (b + 1)) st) as (st' & -> & Hg).
    { apply Forall_forall. intros i Hi%elem_of_py_range. lia. }
    eexists. split; [done|]. eapply grows_trans; [exact Hg|apply (grows_refl (λ _ _, False)); auto|].
    intros i y. simpl. rewrite elem_of_py_range, contains_spec, Hl, Hr. split.
    + intros ((a' & b' & [= <-] & [= <-] & ?) & ->). left. split; [lia|done].
    + intros [[? ->]|[]]. split; [|done]. exists a, b. repeat split; try done; lia.
Qed.

Lemma add_vertex_grows (n y_idx : Z) (yv : YVertex) st :
  yvertex_ok n yv = true → Z.of_nat (length st.1) = n →
  ∃ st', add_vertex st (y_idx, yv) = Ok st'
         ∧ grows (λ i' y', (contains (first yv) i' = true
                            ∨ contains (second yv) i' = true) ∧ y' = y_idx) st st'.
Proof.
  intros Hok Hlen. unfold yvertex_ok in Hok.
  apply andb_true_iff in Hok as [[Hok1 Hok2]%andb_true_iff _].
  unfold add_vertex. simpl.
  destruct (add_interval_grows n y_idx (first yv) st Hok1 Hlen) as (st1 & -> & Hg1).
  simpl.
  destruct (add_interval_grows n y_idx (second yv) st1 Hok2) as (st2 & -> & Hg2).
  { destruct Hg1 as (-> & _). done. }
  simpl. eexists. split; [done|]. eapply grows_trans; [done..|].
  intros i y. simpl. tauto.
Qed.

Lemma adjacent_snoc (ys : list YVertex) (yv : YVertex) (i y : Z) :
  adjacent (ys ++ [yv]) i y
  ↔ adjacent ys i y
    ∨ ((contains (first yv) i = true ∨ contains (second yv) i = true)
       ∧ y = Z.of_nat (length ys)).
Proof.
  unfold adjacent. split.
  - intros (Hy & yv' & Hl & Hc).
    apply lookup_app_Some in Hl as [Hl|[Hge Hl]].
    + left. eauto.
    + apply list_lookup_singleton_Some in Hl as [Hz ->]. right. split; [done|lia].
  - intros [(Hy & yv' & Hl & Hc)|[Hc ->]].
    + split; [done|]. exists yv'. split; [|done]. by apply lookup_app_l_Some.
    + split; [lia|]. exists yv. split; [|done].
      rewrite Nat2Z.id. by rewrite list_lookup_middle.
Qed.

Lemma build_adjacency_prefix (n : Z) (ys : list YVertex) :
  0 ≤ n → forallb (yvertex_ok n) ys = true →
  ∃ st, foldM add_vertex (py_enumerate ys) (replicate (Z.to_nat n) [], ∅) = Ok st
        ∧ grows (adjacent ys) (replicate (Z.to_nat n) [], ∅) st.
Proof.
  intros Hn. induction ys as [|yv ys IH] using rev_ind; intros Hall.
  - simpl. eexists. split; [done|]. apply grows_refl.
    intros i y (_ & yv & Hl & _). done.
  - rewrite forallb_app in Hall. apply andb_true_iff in Hall as [Hall Hyv].
    simpl in Hyv. rewrite andb_true_r in Hyv.
    destruct (IH Hall) as (st & Hst & Hg).
    rewrite py_enumerate_snoc, foldM_app, Hst. simpl.
    destruct (add_vertex_grows n (Z.of_nat (length ys)) yv st Hyv) as (st' & -> & Hg').
    { destruct Hg as (-> & _). simpl. rewrite length_replicate. lia. }
    simpl. eexists. split; [done|]. eapply grows_trans; [done..|].
    intros i y. apply adjacent_snoc.
Qed.

Lemma construct_Ok_inv (nn : Z) (ys : list YVertex) (g : TwoIntervalBipartiteGraph) :
  construct nn ys = Ok g →
  n g = nn ∧ y_vertices g = ys ∧ Z.of_nat (length ys) = nn
  ∧ forallb (yvertex_ok nn) ys = true
  ∧ foldM add_vertex (py_enumerate ys) (replicate (Z.to_nat nn) [], ∅)
    = Ok (neighbors_x g, edges g).
Proof.
  unfold construct. destruct (decide _) as [Hlen|]; [|done].
  rewrite check_vertices_spec. destruct (forallb _ _) eqn:Hall; [|done]. simpl.
  unfold build_adjacency. destruct (foldM _ _ _) as [[nx es]|] eqn:Hb; [|done].
  simpl. intros [= <-]. done.
Qed.

Lemma construct_fully_built (nn : Z) (ys : list YVertex) (g : TwoIntervalBipartiteGraph) :
  construct nn ys = Ok g → fully_built g.
Proof.
  intros (Hn & Hys & Hlen & Hall & Hb)%construct_Ok_inv.
  destruct (build_adjacency_prefix nn ys) as (st & Hst & Hlen' & Hrow & Hedge);
    [lia|done|].
  rewrite Hb in Hst. injection Hst as <-. simpl in *.
  unfold fully_built. rewrite Hn, Hys. split; [|split].
  - rewrite Hlen', length_replicate. lia.
  - intros i y Hi. rewrite Hrow by lia.
    unfold row. rewrite lookup_replicate_2 by lia. simpl.
    rewrite elem_of_nil. tauto.
  - intros e. rewrite Hedge, elem_of_empty. tauto.
Qed.

Lemma interval_ok_false (n : Z) (it : TwoInterval) :
  interval_ok n it = false → interval_violation n it.
Proof.
  unfold interval_ok, interval_violation, is_empty.
  destruct (l it) as [a|], (r it) as [b|]; simpl; try done.
  intros H%bool_decide_eq_false. exists a, b. repeat split; try done. lia.
Qed.

Lemma ordered_ok_false (yv : YVertex) :
  ordered_ok yv = false → order_violation yv.
Proof.
  unfold ordered_ok, order_violation, is_empty.
  destruct (l (first yv)) as [a1|], (r (first yv)) as [b1|],
           (l (second yv)) as [a2|], (r (second yv)) as [b2|]; simpl; try done.
  intros H%bool_decide_eq_false. by exists a1, b1, a2, b2.
Qed.

(** Whether the input violates the structural invariant is decided by the
    checks the constructor runs. *)
Lemma classic_violation (nn : Z) (ys : list YVertex) :
  structural_violation nn ys ∨ ¬ structural_violation nn ys.
Proof.
  destruct (decide (Z.of_nat (length ys) = nn)) as [Hlen|Hlen]; [|left; by left].
  destruct (forallb (yvertex_ok nn) ys) eqn:Hall.
  - right. intros [?|Hv]; [done|]. by apply forallb_yvertex_ok in Hall.
  - left. right. clear Hlen. induction ys as [|yv ys IH]; simpl in Hall; [done|].
    apply andb_false_iff in Hall as [Hyv|Hall].
    + exists yv. split; [left|].
      unfold yvertex_ok in Hyv.
      apply andb_false_iff in Hyv as [[?|?]%andb_false_iff|?];
        auto using interval_ok_false, ordered_ok_false.
    + destruct (IH Hall) as (yv' & ? & ?). exists yv'. split; [by right|done].
Qed.

(** C7. Graph construction raises (an [AssertionError]) if and only if the
    number of Y-vertex descriptors differs from [n], or a non-empty interval
    has a bound outside [[0, n-1]] or [l > r], or a Y-vertex has both
    intervals non-empty without [first.r < second.l]; on every other input it
    returns a graph holding [n] and the descriptors, whose adjacency lists and
    edge set contain exactly the pairs the intervals describe. *)
Theorem construct_raises_iff (nn : Z) (ys : list YVertex) :
  (is_raise (construct nn ys) ↔ structural_violation nn ys)
  ∧ (structural_violation nn ys ↔ construct nn ys = Raise AssertionError)
  ∧ (¬ structural_violation nn ys
     ↔ ∃ g, construct nn ys = Ok g ∧ n g = nn ∧ y_vertices g = ys ∧ fully_built g).
Proof.
  assert (Hbad : structural_violation nn ys → construct nn ys = Raise AssertionError).
  { intros [Hlen|Hv]; unfold construct.
    - destruct (decide _); done.
    - destruct (decide _); [|done]. rewrite check_vertices_spec.
      destruct (forallb _ _) eqn:Hall; [|done].
      apply forallb_yvertex_ok in Hall. done. }
  assert (Hgood : ¬ structural_violation nn ys →
     ∃ g, construct nn ys = Ok g ∧ n g = nn ∧ y_vertices g = ys ∧ fully_built g).
  { intros Hnv.
    assert (Hlen : Z.of_nat (length ys) = nn).
    { destruct (decide (Z.of_nat (length ys) = nn)); [done|]. destruct Hnv. by left. }
    assert (Hall : forallb (yvertex_ok nn) ys = true).
    { apply forallb_yvertex_ok. intros Hv. apply Hnv. by right. }
    destruct (build_adjacency_prefix nn ys) as ([nx es] & Hst & _); [lia|done|].
    assert (Hc : construct nn ys = Ok (mkGraph nn ys nx es)).
    { unfold construct. destruct (decide _); [|done].
      rewrite check_vertices_spec, Hall. simpl. unfold build_adjacency.
      rewrite Hst. done. }
    eexists. split; [exact Hc|]. split; [done|]. split; [done|].
    eapply construct_fully_built, Hc. }
  split; [|split].
  - split.
    + intros [e He]. destruct (classic_violation nn ys) as [?|Hnv]; [done|].
      destruct (Hgood Hnv) as (g & Hg & _). congruence.
    + intros Hv. exists AssertionError. auto.
  - split; [auto|]. intros He.
    destruct (classic_violation nn ys) as [?|Hnv]; [done|].
    destruct (Hgood Hnv) as (g & Hg & _). congruence.
  - split; [auto|]. intros (g & Hg & _) Hv. rewrite (Hbad Hv) in Hg. done.
Qed.

(** ** Loops that collect results *)

Lemma foldl_collect {A T : Type} (f : A → T) (xs : list A) (results : list T) (t : T) :
  t ∈ foldl (λ rs x, rs ++ [f x]) results xs
  ↔ t ∈ results ∨ ∃ x, x ∈ xs ∧ t = f x.
Proof.
  revert results. induction xs as [|x xs IH]; intros results; simpl.
  - split; [auto|]. intros [?|(x & Hx & _)]; [done|]. by apply elem_of_nil in Hx.
  - rewrite IH, elem_of_app, list_elem_of_singleton. split.
    + intros [[?| ->]|(x' & ? & ->)]; auto.
      * right. exists x. split; [left|done].
      * right. exists x'. split; [by right|done].
    + intros [?|(x' & [->|?]%elem_of_cons & ->)]; eauto.
Qed.

Lemma foldM_collect {A T : Type} (P : A → T → Prop)
    (body : list T → A → result (list T)) (xs : list A) (results results' : list T) :
  (∀ rs x rs', x ∈ xs → body rs x = Ok rs' → ∀ t, t ∈ rs' ↔ t ∈ rs ∨ P x t) →
  foldM body xs results = Ok results' →
  ∀ t, t ∈ results' ↔ t ∈ results ∨ ∃ x, x ∈ xs ∧ P x t.
Proof.
  revert results. induction xs as [|x xs IH]; intros results Hbody; simpl.
  - intros [= <-] t. split; [auto|]. intros [?|(x & Hx & _)]; [done|].
    by apply elem_of_nil in Hx.
  - intros H t. inv_bind H.
    rewrite (IH a) by (try done; intros ? ? ? ?; apply Hbody; by right).
    rewrite (Hbody results x a) by (done || left). split.
    + intros [[?|?]|(x' & ? & ?)]; auto.
      * right. exists x. split; [left|done].
      * right. exists x'. split; [by right|done].
    + intros [?|(x' & [->|?]%elem_of_cons & ?)]; eauto.
Qed.

(** ** Events *)

Lemma classify_fold_spec (i : Z) (ps : list (Z * YVertex))
    (E : gset Z * gset Z * gset Z * gset Z) (y : Z) :
  let E' := foldl (classify_step i) E ps in
  (y ∈ ev1 E' ↔ y ∈ ev1 E ∨ ∃ yv, (y, yv) ∈ ps ∧ is_left_endpoint (first yv) i = true)
  ∧ (y ∈ ev2 E' ↔ y ∈ ev2 E ∨ ∃ yv, (y, yv) ∈ ps ∧ is_right_endpoint (first yv) i = true)
  ∧ (y ∈ ev3 E' ↔ y ∈ ev3 E ∨ ∃ yv, (y, yv) ∈ ps ∧ is_left_endpoint (second yv) i = true)
  ∧ (y ∈ ev4 E' ↔ y ∈ ev4 E ∨ ∃ yv, (y, yv) ∈ ps ∧ is_right_endpoint (second yv) i = true).
Proof.
  revert E. induction ps as [|[y0 yv0] ps IH]; intros E; simpl.
  - repeat split; auto; intros [?|(yv & Hin & _)]; try done; by apply elem_of_nil in Hin.
  - destruct (IH (classify_step i E (y0, yv0))) as (H1 & H2 & H3 & H4).
    rewrite H1, H2, H3, H4. clear IH H1 H2 H3 H4.
    destruct E as [[[E1 E2] E3] E4]. unfold ev1, ev2, ev3, ev4. simpl.
    repeat split.
    all: try (intros [Hy|(yv & Hin & Hev)];
              [ match goal with
                | H : _ ∈ (if ?b then _ else _) |- _ => destruct b eqn:Hb
                end;
                [ apply elem_of_union in Hy as [?| ->%elem_of_singleton];
                  [by left | right; exists yv0; split; [left|done]]
                | by left ]
              | right; exists yv; split; [by right|done] ]).
    all: intros [Hy|(yv & [[= -> ->]|Hin]%elem_of_cons & Hev)];
      [ left; match goal with |- _ ∈ (if ?b then _ else _) => destruct b end;
        set_solver
      | left; rewrite Hev; set_solver
      | right; eauto ].
Qed.

Lemma classify_events_spec (g : TwoIntervalBipartiteGraph) (i y : Z) :
  let E := classify_events_at g i in
  (y ∈ ev1 E ↔ 0 ≤ y ∧ ∃ yv, y_vertices g !! Z.to_nat y = Some yv
                             ∧ is_left_endpoint (first yv) i = true)
  ∧ (y ∈ ev2 E ↔ 0 ≤ y ∧ ∃ yv, y_vertices g !! Z.to_nat y = Some yv
                               ∧ is_right_endpoint (first yv) i = true)
  ∧ (y ∈ ev3 E ↔ 0 ≤ y ∧ ∃ yv, y_vertices g !! Z.to_nat y = Some yv
                               ∧ is_left_endpoint (second yv) i = true)
  ∧ (y ∈ ev4 E ↔ 0 ≤ y ∧ ∃ yv, y_vertices g !! Z.to_nat y = Some yv
                               ∧ is_right_endpoint (second yv) i = true).
Proof.
  unfold classify_events_at.
  destruct (classify_fold_spec i (py_enumerate (y_vertices g)) (∅, ∅, ∅, ∅) y)
    as (H1 & H2 & H3 & H4).
  simpl. rewrite H1, H2, H3, H4. unfold ev1, ev2, ev3, ev4. simpl.
  split; [|split; [|split]].
  all: split;
    [ intros [?|(yv & [? ?]%elem_of_py_enumerate & ?)]; [set_solver|eauto]
    | intros (? & yv & ? & ?); right; exists yv; split;
      [by apply elem_of_py_enumerate|done] ].
Qed.

(** Every index in an event set is the index of a Y-vertex. *)
Lemma event_index_range (g : TwoIntervalBipartiteGraph) (i y : Z) :
  y ∈ ev1 (classify_events_at g i) ∨ y ∈ ev2 (classify_events_at g i)
  ∨ y ∈ ev3 (classify_events_at g i) ∨ y ∈ ev4 (classify_events_at g i) →
  0 ≤ y < Z.of_nat (length (y_vertices g)).
Proof.
  destruct (classify_events_spec g i y) as (H1 & H2 & H3 & H4).
  intros [H|[H|[H|H]]];
    [apply H1 in H|apply H2 in H|apply H3 in H|apply H4 in H];
    destruct H as (? & yv & Hl%lookup_lt_Some & _); lia.
Qed.

(** ** Transitions *)

Lemma py_index_singleton_0 {A : Type} (x : A) : py_index [x] 0 = Ok x.
Proof. done. Qed.

Lemma length_one_inv {A : Type} (xs : list A) :
  Z.of_nat (length xs) = 1 → ∃ x, xs = [x].
Proof. destruct xs as [|x [|? ?]]; simpl; intros; try lia. eauto. Qed.

Lemma open_block_spec (g : TwoIntervalBipartiteGraph) (X : list Z) (yopen : Z)
    (res : option (gset Z)) :
  ¬ 1 < Z.of_nat (length X) →
  (if decide (Z.of_nat (length X) = 1) then
     y_old ← py_index X 0 ;
     ok ← check_stack_order g y_old yopen ;
     Ok (if (ok : bool) then Some ({[y_old; yopen]} : gset Z) else None)
   else Ok (Some ({[yopen]} : gset Z))) = Ok res →
  ∀ Oa, res = Some Oa ↔ opens g X yopen Oa.
Proof.
  intros Hlen. destruct (decide _) as [H1|H1].
  - apply length_one_inv in H1 as [y_old ->]. rewrite py_index_singleton_0. simpl.
    intros H. inv_bind H. destruct a; injection H as <-; intros Oa; split.
    + intros [= <-]. right. eauto.
    + intros [[? _]|(y' & [= <-] & _ & ->)]; done.
    + done.
    + intros [[? _]|(y' & [= <-] & ? & _)]; congruence.
  - assert (X = []) as -> by (destruct X; simpl in *; [done|lia]).
    intros [= <-] Oa. split.
    + intros [= <-]. by left.
    + intros [[_ ->]|(y' & ? & _)]; done.
Qed.

Lemma opens_length (g : TwoIntervalBipartiteGraph) (X : list Z) (yopen : Z)
    (Oa : gset Z) :
  opens g X yopen Oa → ¬ 1 < Z.of_nat (length X).
Proof. intros [[-> _]|(y & -> & _)]; simpl; lia. Qed.

Lemma t2_step_spec (g : TwoIntervalBipartiteGraph) (k : Z) (O : list Z)
    (results results' : list transition) (yopen : Z) :
  t2_step g k O results yopen = Ok results' →
  ∀ t, t ∈ results'
       ↔ t ∈ results
         ∨ ∃ Oa, opens g O yopen Oa
                 ∧ t = (mkDPState (k + 1) (py_sorted (elements Oa)) 0,
                        "T2"%string, [x_edge k yopen]).
Proof.
  unfold t2_step. destruct (decide (2 ≤ _)) as [Hlen|Hlen].
  - intros [= <-] t. split; [auto|]. intros [?|(Oa & Ho%opens_length & _)]; [done|lia].
  - intros H. apply bind_Ok in H as (res & Hres & H).
    pose proof (open_block_spec g O yopen res ltac:(lia) Hres) as Hspec.
    destruct res as [Oa|]; injection H as <-; intros t.
    + rewrite elem_of_app, list_elem_of_singleton. split.
      * intros [?| ->]; [by left|]. right. exists Oa. split; [by apply Hspec|done].
      * intros [?|(Oa' & [= <-]%Hspec & ->)]; auto.
    + split; [auto|]. intros [?|(Oa' & ?%Hspec & _)]; done.
Qed.

Lemma t3_step_spec (g : TwoIntervalBipartiteGraph) (k : Z) (O : list Z) (yclose : Z)
    (results results' : list transition) (yopen : Z) :
  t3_step g k O yclose results yopen = Ok results' →
  ∀ t, t ∈ results'
       ↔ t ∈ results
         ∨ ∃ Oa, opens g (filter (λ y, y ≠ yclose) O) yopen Oa
                 ∧ t = (mkDPState (k + 1) (py_sorted (elements Oa)) 0,
                        "T3"%string, [x_edge k yclose; x_edge k yopen]).
Proof.
  unfold t3_step. destruct (decide (1 < _)) as [Hlen|Hlen].
  - intros [= <-] t. split; [auto|]. intros [?|(Oa & Ho%opens_length & _)]; [done|lia].
  - intros H. apply bind_Ok in H as (res & Hres & H).
    pose proof (open_block_spec g _ yopen res Hlen Hres) as Hspec.
    destruct res as [Oa|]; injection H as <-; intros t.
    + rewrite elem_of_app, list_elem_of_singleton. split.
      * intros [?| ->]; [by left|]. right. exists Oa. split; [by apply Hspec|done].
      * intros [?|(Oa' & [= <-]%Hspec & ->)]; auto.
    + split; [auto|]. intros [?|(Oa' & ?%Hspec & _)]; done.
Qed.

Lemma t4_step_spec (g : TwoIntervalBipartiteGraph) (k : Z) (O : list Z)
    (results results' : list transition) (y : Z) :
  t4_step g k O results y = Ok results' →
  ∀ t, t ∈ results'
       ↔ t ∈ results
         ∨ (is_convex_at g y k = Ok true
            ∧ t = (mkDPState (k + 1) (py_sorted O) 1, "T4"%string, [x_edge k y])).
Proof.
  unfold t4_step. intros H. apply bind_Ok in H as (c & Hc & H).
  destruct c; injection H as <-; intros t.
  - rewrite elem_of_app, list_elem_of_singleton. tauto.
  - split; [auto|]. intros [?|[? _]]; [done|congruence].
Qed.

(** What [_enumerate_transitions] returns is exactly what [fires]. *)
Lemma enumerate_transitions_fires (g : TwoIntervalBipartiteGraph) (s : DPState)
    (ts : list transition) :
  enumerate_transitions g s = Ok ts →
  ((n g ≤ k s ∨ neighbors_of_x g (k s) = Ok []) ∧ ts = [])
  ∨ (k s < n g ∧ ∃ vn, neighbors_of_x g (k s) = Ok vn ∧ vn ≠ []
                       ∧ ∀ t, t ∈ ts ↔ fires g s vn t).
Proof.
  unfold enumerate_transitions. destruct (decide (n g ≤ k s)) as [Hk|Hk].
  { intros [= <-]. left. auto. }
  intros H. apply bind_Ok in H as (vn & Hvn & H).
  destruct vn as [|v0 vn0] eqn:Evn.
  { injection H as <-. left. auto. }
  rewrite <- Evn in *. right. split; [lia|]. exists vn. split; [done|].
  split; [by subst|]. clear Evn.
  pose proof (classify_events_spec g (k s)) as HE.
  destruct (classify_events_at g (k s)) as [[[E1 E2] E3] E4] eqn:Eev.
  apply bind_Ok in H as (r2 & H2 & H). apply bind_Ok in H as (r3 & H3 & H).
  apply bind_Ok in H as (r4 & H4 & H).
  set (r1 := if decide (loose_flag s = 1)
             then foldl (t1_step (k s) (open_set s)) [] (elements (list_to_set (open_set s) ∩ E3))
             else []) in *.
  assert (Hr1 : ∀ t, t ∈ r1 ↔ ∃ yclose, loose_flag s = 1 ∧ yclose ∈ open_set s ∧ yclose ∈ E3
      ∧ t = (mkDPState (k s + 1)
                       (py_sorted (filter (λ y, y ≠ yclose) (open_set s))) 0,
             "T1"%string, [x_edge (k s) yclose])).
  { intros t. unfold r1. destruct (decide (loose_flag s = 1)) as [HL|HL].
    - unfold t1_step.
      rewrite (foldl_collect (λ yclose, (mkDPState (k s + 1)
                 (py_sorted (filter (λ y, y ≠ yclose) (open_set s))) 0,
               "T1"%string, [x_edge (k s) yclose]))).
      split.
      + intros [[]%elem_of_nil|(y & Hy & ->)]. exists y.
        apply elem_of_elements, elem_of_intersection in Hy as [Hy1%elem_of_list_to_set Hy2].
        done.
      + intros (y & _ & Hy1 & Hy2 & ->). right. exists y. split; [|done].
        apply elem_of_elements, elem_of_intersection. split; [|done].
        by apply elem_of_list_to_set.
    - split; [intros []%elem_of_nil|]. intros (? & ? & _). done. }
  assert (Hr2 : ∀ t, t ∈ r2 ↔ t ∈ r1 ∨ ∃ yopen Oa, loose_flag s = 1
      ∧ yopen ∈ E1 ∪ E2 ∧ (yopen ∉ open_set s) ∧ opens g (open_set s) yopen Oa
      ∧ t = (mkDPState (k s + 1) (py_sorted (elements Oa)) 0,
             "T2"%string, [x_edge (k s) yopen])).
  { intros t. destruct (decide (loose_flag s = 1)) as [HL|HL].
    - rewrite (foldM_collect _ _ _ _ _ (λ rs x rs' _ Hb, t2_step_spec g _ _ rs rs' x Hb) H2).
      split.
      + intros [?|(y & Hy & Oa & ? & ->)]; [by left|]. right. exists y, Oa.
        apply elem_of_elements, elem_of_difference in Hy as [Hy1 Hy2].
        rewrite elem_of_list_to_set in Hy2. done.
      + intros [?|(y & Oa & _ & Hy1 & Hy2 & ? & ->)]; [by left|]. right. exists y.
        split; [|eauto]. apply elem_of_elements, elem_of_difference.
        by rewrite elem_of_list_to_set.
    - injection H2 as <-. split; [auto|]. intros [?|(? & ? & ? & _)]; done. }
  assert (Hr3 : ∀ t, t ∈ r3 ↔ t ∈ r2 ∨ ∃ yclose yopen Oa, loose_flag s = 0
      ∧ yclose ∈ open_set s ∧ yclose ∈ E3 ∧ yopen ∈ E2 ∧ (yopen ∉ open_set s)
      ∧ opens g (filter (λ y, y ≠ yclose) (open_set s)) yopen Oa
      ∧ t = (mkDPState (k s + 1) (py_sorted (elements Oa)) 0,
             "T3"%string, [x_edge (k s) yclose; x_edge (k s) yopen])).
  { intros t. destruct (decide (loose_flag s = 0)) as [HL|HL].
    - rewrite (foldM_collect
        (λ yclose t, ∃ yopen, yopen ∈ elements (E2 ∖ list_to_set (open_set s))
           ∧ ∃ Oa, opens g (filter (λ y, y ≠ yclose) (open_set s)) yopen Oa
           ∧ t = (mkDPState (k s + 1) (py_sorted (elements Oa)) 0,
                  "T3"%string, [x_edge (k s) yclose; x_edge (k s) yopen]))
        _ _ _ _ (λ rs x rs' _ Hb,
           foldM_collect _ _ _ _ _ (λ rs0 x0 rs0' _ Hb0,
              t3_step_spec g _ _ x rs0 rs0' x0 Hb0) Hb) H3).
      split.
      + intros [?|(yc & Hyc & yo & Hyo & Oa & ? & ->)]; [by left|]. right.
        exists yc, yo, Oa.
        apply elem_of_elements, elem_of_intersection in Hyc as [Hyc1%elem_of_list_to_set Hyc2].
        apply elem_of_elements, elem_of_difference in Hyo as [Hyo1 Hyo2].
        rewrite elem_of_list_to_set in Hyo2. done.
      + intros [?|(yc & yo & Oa & _ & ? & ? & ? & ? & ? & ->)]; [by left|]. right.
        exists yc. split.
        { apply elem_of_elements, elem_of_intersection. by rewrite elem_of_list_to_set. }
        exists yo. split; [|eauto].
        apply elem_of_elements, elem_of_difference. by rewrite elem_of_list_to_set.
    - injection H3 as <-. split; [auto|]. intros [?|(? & ? & ? & ? & _)]; done. }
  assert (Hr4 : ∀ t, t ∈ r4 ↔ t ∈ r3 ∨ ∃ y, loose_flag s = 1 ∧ y ∈ vn
      ∧ is_convex_at g y (k s) = Ok true
      ∧ t = (mkDPState (k s + 1) (py_sorted (open_set s)) 1,
             "T4"%string, [x_edge (k s) y])).
  { intros t. destruct (decide (loose_flag s = 1)) as [HL|HL].
    - rewrite (foldM_collect _ _ _ _ _ (λ rs x rs' _ Hb, t4_step_spec g _ _ rs rs' x Hb) H4).
      split.
      + intros [?|(y & ? & ? & ->)]; [by left|]. right. eauto.
      + intros [?|(y & _ & ? & ? & ->)]; [by left|]. right. eauto.
    - injection H4 as <-. split; [auto|]. intros [?|(? & ? & _)]; done. }
  assert (Hts : ∀ t, t ∈ ts ↔ t ∈ r4 ∨ (E1 = ∅ ∧ E2 = ∅ ∧ E3 = ∅ ∧ E4 = ∅
      ∧ t = (mkDPState (k s + 1) (py_sorted (open_set s)) (loose_flag s),
             "T5"%string, []))).
  { intros t.
    destruct (bool_decide (E1 = ∅)) eqn:B1, (bool_decide (E2 = ∅)) eqn:B2,
             (bool_decide (E3 = ∅)) eqn:B3, (bool_decide (E4 = ∅)) eqn:B4;
      simpl in H; injection H as <-;
      repeat match goal with
             | Hb : bool_decide _ = true |- _ => apply bool_decide_eq_true in Hb
             | Hb : bool_decide _ = false |- _ => apply bool_decide_eq_false in Hb
             end;
      rewrite ?elem_of_app, ?list_elem_of_singleton; tauto. }
  intros t. rewrite Hts, Hr4, Hr3, Hr2, Hr1. unfold ev1, ev2, ev3, ev4. simpl. split.
  - intros [[[[(yc & ? & ? & ? & ->)|(yo & Oa & ? & ? & ? & ? & ->)]
             |(yc & yo & Oa & ? & ? & ? & ? & ? & ? & ->)]
            |(y & ? & ? & ? & ->)]
           |(? & ? & ? & ? & ->)].
    + apply fires_T1; rewrite ?Eev; done.
    + apply fires_T2; rewrite ?Eev; done.
    + apply fires_T3; rewrite ?Eev; done.
    + by apply fires_T4.
    + apply fires_T5; by rewrite Eev.
  - intros Hf. destruct Hf as [yc ? ? ?|yo Oa ? ? ? ?|yc yo Oa ? ? ? ? ? ?|y ? ? ?|? ? ? ?];
      rewrite ?Eev in *; unfold ev1, ev2, ev3, ev4 in *; simpl in *.
    + do 4 left. eauto 10.
    + do 3 left. right. eauto 10.
    + do 2 left. right. eauto 12.
    + left. right. eauto 10.
    + right. done.
Qed.

(** ** Sorting *)

Lemma py_sorted_length (xs : list Z) : length (py_sorted xs) = length xs.
Proof. unfold py_sorted. by rewrite merge_sort_Permutation. Qed.

Lemma elem_of_py_sorted (xs : list Z) (y : Z) : y ∈ py_sorted xs ↔ y ∈ xs.
Proof. unfold py_sorted. by rewrite merge_sort_Permutation. Qed.

Lemma elem_of_py_sorted_1 (xs : list Z) (y : Z) : y ∈ py_sorted xs → y ∈ xs.
Proof. apply elem_of_py_sorted. Qed.

Lemma py_sorted_Sorted (xs : list Z) : Sorted Z.le (py_sorted xs).
Proof. apply Sorted_merge_sort, _. Qed.

Lemma py_sorted_id (xs : list Z) : Sorted Z.le xs → py_sorted xs = xs.
Proof.
  intros Hs. apply (Sorted_unique Z.le); [apply py_sorted_Sorted|done|].
  apply merge_sort_Permutation.
Qed.

(** ** Successor states *)

Lemma opens_elem (g : TwoIntervalBipartiteGraph) (X : list Z) (yopen : Z) (Oa : gset Z) :
  opens g X yopen Oa → ∀ y, y ∈ elements Oa ↔ y ∈ X ∨ y = yopen.
Proof.
  intros [[-> ->]|(y_old & -> & _ & ->)] y; rewrite elem_of_elements.
  - rewrite elem_of_singleton, elem_of_nil. tauto.
  - rewrite elem_of_union, !elem_of_singleton, list_elem_of_singleton. tauto.
Qed.

Lemma opens_size (g : TwoIntervalBipartiteGraph) (X : list Z) (yopen : Z) (Oa : gset Z) :
  opens g X yopen Oa → (length (elements Oa) ≤ 2)%nat.
Proof.
  intros [[-> ->]|(y_old & -> & _ & ->)].
  - rewrite elements_singleton. simpl. lia.
  - change (length (elements ?X)) with (size X).
    rewrite size_union_alt, size_singleton.
    assert (Hsub : ({[yopen]} ∖ {[y_old]} : gset Z) ⊆ {[yopen]}).
    { intros x [Hx _]%elem_of_difference. exact Hx. }
    apply subseteq_size in Hsub as Hs.
    rewrite size_singleton in Hs. lia.
Qed.

Lemma fires_successor (g : TwoIntervalBipartiteGraph) (s : DPState) (vn : list Z)
    (t : transition) :
  fires g s vn t →
  k t.1.1 = k s + 1
  ∧ Sorted Z.le (open_set t.1.1)
  ∧ ((length (open_set t.1.1) ≤ 2)%nat
     ∨ (length (open_set t.1.1) ≤ length (open_set s))%nat)
  ∧ (loose_flag t.1.1 = 0 ∨ loose_flag t.1.1 = 1
     ∨ loose_flag t.1.1 = loose_flag s)
  ∧ (∀ y, y ∈ open_set t.1.1 →
          y ∈ open_set s ∨ 0 ≤ y < Z.of_nat (length (y_vertices g))).
Proof.
  intros Hf.
  destruct Hf as [yc ? ? ?|yo Oa ? Hyo ? Ho|yc yo Oa ? ? ? Hyo ? Ho|y0 ? ? ?|? ? ? ?];
    simpl; (split; [done|]); (split; [apply py_sorted_Sorted|]).
  - split; [|split; [auto|]].
    + right. rewrite py_sorted_length. apply length_filter.
    + intros y' Hy%elem_of_py_sorted_1. apply list_elem_of_filter in Hy as [_ ?]. auto.
  - split; [|split; [auto|]].
    + left. rewrite py_sorted_length. by eapply opens_size.
    + intros y' Hy%elem_of_py_sorted_1. apply (opens_elem _ _ _ _ Ho) in Hy as [?| ->]; [auto|].
      right. apply (event_index_range g (k s)).
      apply elem_of_union in Hyo as [?|?]; auto.
  - split; [|split; [auto|]].
    + left. rewrite py_sorted_length. by eapply opens_size.
    + intros y' Hy%elem_of_py_sorted_1. apply (opens_elem _ _ _ _ Ho) in Hy as [Hy| ->].
      * apply list_elem_of_filter in Hy as [_ ?]. auto.
      * right. apply (event_index_range g (k s)). auto.
  - split; [|split; [auto|]].
    + right. by rewrite py_sorted_length.
    + intros y' Hy%elem_of_py_sorted_1. auto.
  - split; [|split; [auto|]].
    + right. by rewrite py_sorted_length.
    + intros y' Hy%elem_of_py_sorted_1. auto.
Qed.

(** Every successor that [_enumerate_transitions] returns is a [fires]
    successor of a state below the last layer. *)
Lemma enumerate_transitions_elem (g : TwoIntervalBipartiteGraph) (s : DPState)
    (ts : list transition) (t : transition) :
  enumerate_transitions g s = Ok ts → t ∈ ts →
  k s < n g ∧ ∃ vn, neighbors_of_x g (k s) = Ok vn ∧ vn ≠ [] ∧ fires g s vn t.
Proof.
  intros [[_ ->]|(Hk & vn & Hvn & Hne & Hts)]%enumerate_transitions_fires Ht.
  - by apply elem_of_nil in Ht.
  - split; [done|]. exists vn. by rewrite <- Hts.
Qed.

(** ** No exception on the states of a constructed graph *)

Lemma valid_graph_built (g : TwoIntervalBipartiteGraph) :
  valid_graph g →
  fully_built g ∧ Z.of_nat (length (y_vertices g)) = n g
  ∧ forallb (yvertex_ok (n g)) (y_vertices g) = true.
Proof.
  intros Hv. split; [by eapply construct_fully_built|].
  apply construct_Ok_inv in Hv as (_ & _ & ? & ? & _). done.
Qed.

Lemma adjacent_range (ys : list YVertex) (i y : Z) :
  adjacent ys i y → 0 ≤ y < Z.of_nat (length ys).
Proof. intros (? & yv & Hl%lookup_lt_Some & _). lia. Qed.

Lemma neighbors_of_x_total (g : TwoIntervalBipartiteGraph) (i : Z) :
  fully_built g →
  ∃ vn, neighbors_of_x g i = Ok vn
        ∧ ∀ y, y ∈ vn ↔ 0 ≤ i < n g ∧ adjacent (y_vertices g) i y.
Proof.
  intros (Hlen & Hrow & _). unfold neighbors_of_x.
  destruct (decide (0 ≤ i < n g)) as [Hi|Hi].
  - destruct (py_index_range (neighbors_x g) i) as (vn & -> & Hl); [lia|].
    exists vn. split; [done|]. intros y. rewrite <- Hrow by done.
    unfold row. rewrite Hl. simpl. tauto.
  - exists []. split; [done|]. intros y. rewrite elem_of_nil. tauto.
Qed.

Lemma check_stack_order_total (g : TwoIntervalBipartiteGraph) (y1 y2 : Z) :
  0 ≤ y1 < Z.of_nat (length (y_vertices g)) →
  0 ≤ y2 < Z.of_nat (length (y_vertices g)) →
  ∃ b, check_stack_order g y1 y2 = Ok b.
Proof.
  intros H1 H2. unfold check_stack_order.
  destruct (py_index_range _ _ H1) as (yv1 & -> & _).
  destruct (py_index_range _ _ H2) as (yv2 & -> & _). simpl.
  unfold is_empty.
  destruct (l (second yv1)), (r (second yv1)), (l (first yv2)), (r (first yv2));
    simpl; eauto.
Qed.

Lemma is_convex_at_total (g : TwoIntervalBipartiteGraph) (y i : Z) :
  0 ≤ y < Z.of_nat (length (y_vertices g)) → ∃ b, is_convex_at g y i = Ok b.
Proof.
  intros Hy. unfold is_convex_at.
  destruct (py_index_range _ _ Hy) as (yv & -> & _). simpl.
  destruct (_ ++ _); eauto.
Qed.

Lemma open_block_total (g : TwoIntervalBipartiteGraph) (X : list Z) (yopen : Z) :
  Forall (λ y, 0 ≤ y < Z.of_nat (length (y_vertices g))) X →
  0 ≤ yopen < Z.of_nat (length (y_vertices g)) →
  ∃ res,
    (if decide (Z.of_nat (length X) = 1) then
       y_old ← py_index X 0 ;
       ok ← check_stack_order g y_old yopen ;
       Ok (if (ok : bool) then Some ({[y_old; yopen]} : gset Z) else None)
     else Ok (Some ({[yopen]} : gset Z))) = Ok res.
Proof.
  intros HX Hy. destruct (decide _) as [H1|H1]; [|eauto].
  apply length_one_inv in H1 as [y_old ->]. rewrite py_index_singleton_0. simpl.
  apply Forall_cons in HX as [HX _].
  destruct (check_stack_order_total g y_old yopen HX Hy) as [b ->]. simpl. eauto.
Qed.

Lemma enumerate_transitions_total (g : TwoIntervalBipartiteGraph) (s : DPState) :
  valid_graph g → open_in_range g s → ∃ ts, enumerate_transitions g s = Ok ts.
Proof.
  intros (Hfb & Hlen & _)%valid_graph_built HO. unfold open_in_range in HO.
  rewrite <- Hlen in HO.
  unfold enumerate_transitions. destruct (decide _); [eauto|].
  destruct (neighbors_of_x_total g (k s) Hfb) as (vn & -> & Hvn). ok_step.
  destruct vn as [|v0 vn0] eqn:Evn; [eauto|]. rewrite <- Evn in *.
  assert (Hvn' : Forall (λ y, 0 ≤ y < Z.of_nat (length (y_vertices g))) vn).
  { apply Forall_forall. intros y [_ Hy%adjacent_range]%Hvn. done. }
  clear Evn Hvn.
  pose proof (event_index_range g (k s)) as HE.
  destruct (classify_events_at g (k s)) as [[[E1 E2] E3] E4].
  unfold ev1, ev2, ev3, ev4 in HE. simpl in HE.
  set (r1 := if decide (loose_flag s = 1)
             then foldl (t1_step (k s) (open_set s)) []
                    (elements (list_to_set (open_set s) ∩ E3))
             else []).
  clearbody r1.
  match goal with
  | |- ∃ ts, mbind ?f ?m = Ok ts => assert (∃ r2, m = Ok r2) as [r2 ->]
  end.
  { destruct (decide _); [|eauto].
    destruct (foldM_inv (λ _, True) (λ y, 0 ≤ y < Z.of_nat (length (y_vertices g)))
                (t2_step g (k s) (open_set s))
                (elements ((E1 ∪ E2) ∖ list_to_set (open_set s))) r1)
      as (r2 & -> & _); [| |done|eauto].
    - intros rs y _ Hy. unfold t2_step. destruct (decide _); [eauto|].
      destruct (open_block_total g (open_set s) y HO Hy) as [[Oa|] ->]; simpl; eauto.
    - apply Forall_forall. intros y Hy%elem_of_elements. apply HE.
      apply elem_of_difference in Hy as [[?|?]%elem_of_union _]; auto. }
  ok_step.
  match goal with
  | |- ∃ ts, mbind ?f ?m = Ok ts => assert (∃ r3, m = Ok r3) as [r3 ->]
  end.
  { destruct (decide _); [|eauto].
    destruct (foldM_inv (λ _, True) (λ _, True)
                (λ results yclose,
                   foldM (t3_step g (k s) (open_set s) yclose)
                     (elements (E2 ∖ list_to_set (open_set s))) results)
                (elements (list_to_set (open_set s) ∩ E3)) r2)
      as (r3 & -> & _); [| |done|eauto].
    - intros rs yc _ _.
      destruct (foldM_inv (λ _, True) (λ y, 0 ≤ y < Z.of_nat (length (y_vertices g)))
                  (t3_step g (k s) (open_set s) yc)
                  (elements (E2 ∖ list_to_set (open_set s))) rs)
        as (r3 & -> & _); [| |done|eauto].
      + intros rs' y _ Hy. unfold t3_step. destruct (decide _); [eauto|].
        destruct (open_block_total g (filter (λ y0, y0 ≠ yc) (open_set s)) y) as [[Oa|] ->];
          simpl; eauto.
        apply Forall_forall. intros y0 [_ Hy0]%list_elem_of_filter.
        by apply (proj1 (Forall_forall _ _) HO).
      + apply Forall_forall. intros y Hy%elem_of_elements. apply HE.
        apply elem_of_difference in Hy as [? _]; auto.
    - by apply Forall_forall. }
  ok_step.
  match goal with
  | |- ∃ ts, mbind ?f ?m = Ok ts => assert (∃ r4, m = Ok r4) as [r4 ->]
  end.
  { destruct (decide _); [|eauto].
    destruct (foldM_inv (λ _, True) (λ y, 0 ≤ y < Z.of_nat (length (y_vertices g)))
                (t4_step g (k s) (open_set s)) vn r3)
      as (r4 & -> & _); [|done|done|eauto].
    intros rs y _ Hy. unfold t4_step.
    destruct (is_convex_at_total g y (k s) Hy) as [[|] ->]; simpl; eauto. }
  ok_step. destruct (_ && _); eauto.
Qed.

(** ** The graphs of the test suite *)

Lemma build_hamiltonian_n3_graph_Ok :
  build_hamiltonian_n3_graph = Ok hamiltonian_n3_graph.
Proof. vm_compute. reflexivity. Qed.

Lemma build_non_hamiltonian_n3_graph_Ok :
  build_non_hamiltonian_n3_graph = Ok non_hamiltonian_n3_graph.
Proof. vm_compute. reflexivity. Qed.

Lemma hamiltonian_n3_graph_valid : valid_graph hamiltonian_n3_graph.
Proof. exact build_hamiltonian_n3_graph_Ok. Qed.

Lemma single_edge_graph_valid : valid_graph single_edge_graph.
Proof. vm_compute. reflexivity. Qed.

(** ** Transition soundness *)

(** C4. In a constructed graph, from a state with [0 <= k <= n], [|O| <= 2]
    and [L ∈ {0,1}], every successor that the transition enumeration returns
    (by any of T1-T5) satisfies the same three bounds, so no transition leaves
    the layers [[0, n]]; and the enumeration does return (no exception) when
    the open vertices of the state are indices of Y-vertices. *)
Theorem transitions_preserve_state_ok (g : TwoIntervalBipartiteGraph) (s : DPState) :
  valid_graph g → state_ok g s →
  (∀ ts t, enumerate_transitions g s = Ok ts → t ∈ ts → state_ok g t.1.1)
  ∧ (open_in_range g s → ∃ ts, enumerate_transitions g s = Ok ts).
Proof.
  intros Hv (Hk & HO & HL). split; [|by apply enumerate_transitions_total].
  intros ts t Hts Ht.
  destruct (enumerate_transitions_elem g s ts t Hts Ht) as (Hlt & vn & _ & _ & Hf).
  apply fires_successor in Hf as (Hk' & _ & HO' & HL' & _).
  split; [lia|]. split; lia.
Qed.

Lemma transitions_preserve_state_ok_witness :
  ∃ ts, enumerate_transitions hamiltonian_n3_graph (mkDPState 1 [2] 1) = Ok ts
        ∧ Forall (λ t : transition, state_ok hamiltonian_n3_graph t.1.1) ts.
Proof.
  assert (Hs : state_ok hamiltonian_n3_graph (mkDPState 1 [2] 1)).
  { unfold state_ok. simpl. lia. }
  destruct (transitions_preserve_state_ok hamiltonian_n3_graph (mkDPState 1 [2] 1)
              hamiltonian_n3_graph_valid Hs) as [Hok Htot].
  destruct Htot as [ts Hts].
  { unfold open_in_range. simpl. repeat constructor; simpl; lia. }
  exists ts. split; [exact Hts|]. apply Forall_forall. intros t Ht. by eapply Hok.
Defined.

(** ** The stack-order rule *)

Lemma check_stack_order_true (g : TwoIntervalBipartiteGraph) (y1 y2 : Z) :
  check_stack_order g y1 y2 = Ok true →
  ∃ yv1 yv2, py_index (y_vertices g) y1 = Ok yv1 ∧ py_index (y_vertices g) y2 = Ok yv2
             ∧ is_empty (second yv1) = false ∧ is_empty (first yv2) = false
             ∧ ∃ a b, l (second yv1) = Some a ∧ r (first yv2) = Some b ∧ b < a.
Proof.
  unfold check_stack_order. intros H.
  apply bind_Ok in H as (yv1 & H1 & H). apply bind_Ok in H as (yv2 & H2 & H).
  exists yv1, yv2. split; [done|]. split; [done|].
  destruct (is_empty (second yv1)); [done|]. destruct (is_empty (first yv2)); [done|].
  simpl in H. split; [done|]. split; [done|].
  destruct (l (second yv1)) as [a|]; [|done].
  destruct (r (first yv2)) as [b|]; [|done].
  injection H as H. apply bool_decide_eq_true in H. eauto.
Qed.

Lemma opens_two (g : TwoIntervalBipartiteGraph) (X : list Z) (yopen : Z) (Oa : gset Z) :
  opens g X yopen Oa → length (elements Oa) = 2%nat →
  ∃ y_old yv, X = [y_old] ∧ y_old ∈ elements Oa
              ∧ py_index (y_vertices g) y_old = Ok yv
              ∧ is_empty (second yv) = false.
Proof.
  intros [[-> ->]|(y_old & -> & Hc & ->)] Hlen.
  - by rewrite elements_singleton in Hlen.
  - apply check_stack_order_true in Hc as (yv1 & _ & H1 & _ & He & _).
    exists y_old, yv1. split; [done|]. split; [|done].
    apply elem_of_elements, elem_of_union. left. by apply elem_of_singleton.
Qed.

(** C10. [check_stack_order] answers [False] whenever the second interval of
    [y1] or the first interval of [y2] is empty; hence a T2 or T3 transition
    whose resulting open set has two elements keeps an already-open vertex
    (one that the transition neither closes nor opens) whose second interval
    is not empty. *)
Theorem check_stack_order_empty_interval (g : TwoIntervalBipartiteGraph) :
  (∀ y1 y2 yv1 yv2,
     py_index (y_vertices g) y1 = Ok yv1 → py_index (y_vertices g) y2 = Ok yv2 →
     is_empty (second yv1) = true ∨ is_empty (first yv2) = true →
     check_stack_order g y1 y2 = Ok false)
  ∧ (∀ s ts t,
       enumerate_transitions g s = Ok ts → t ∈ ts →
       t.1.2 = "T2"%string ∨ t.1.2 = "T3"%string →
       length (open_set t.1.1) = 2%nat →
       ∃ y_old yv, y_old ∈ open_set s ∧ y_old ∈ open_set t.1.1
                   ∧ (x_edge (k s) y_old ∉ t.2)
                   ∧ py_index (y_vertices g) y_old = Ok yv
                   ∧ is_empty (second yv) = false).
Proof.
  split.
  - intros y1 y2 yv1 yv2 H1 H2 He. unfold check_stack_order.
    rewrite H1, H2. simpl. by destruct He as [-> | ->]; [|rewrite orb_true_r].
  - intros s ts t Hts Ht Htag Hlen.
    destruct (enumerate_transitions_elem g s ts t Hts Ht) as (_ & vn & _ & _ & Hf).
    destruct Hf as [yc ? ? ?|yo Oa ? Hyo Hno Ho|yc yo Oa ? ? ? Hyo Hno Ho|y0 ? ? ?|? ? ? ?];
      simpl in *; try (destruct Htag; discriminate).
    + rewrite py_sorted_length in Hlen.
      destruct (opens_two g _ _ _ Ho Hlen) as (y_old & yv & HX & Hin & Hyv & He).
      exists y_old, yv. rewrite HX in *. split; [by left|].
      split; [by apply elem_of_py_sorted|]. split; [|done].
      intros [= ->]%list_elem_of_singleton. apply Hno. by left.
    + rewrite py_sorted_length in Hlen.
      destruct (opens_two g _ _ _ Ho Hlen) as (y_old & yv & HX & Hin & Hyv & He).
      assert (Hold : y_old ∈ filter (λ y, y ≠ yc) (open_set s)) by (rewrite HX; by left).
      apply list_elem_of_filter in Hold as [Hne Hold].
      exists y_old, yv. split; [done|].
      split; [by apply elem_of_py_sorted|]. split; [|done].
      intros [[= ->]|[[= ->]|[]%elem_of_nil]%elem_of_cons]%elem_of_cons; done.
Qed.

(** T5 is the last triple appended, and the only one with its tag. *)
Lemma enumerate_transitions_T5 (g : TwoIntervalBipartiteGraph) (s : DPState)
    (ts : list transition) (vn : list Z) :
  enumerate_transitions g s = Ok ts →
  k s < n g → neighbors_of_x g (k s) = Ok vn → vn ≠ [] →
  ∀ t, (t ∈ ts ∧ t.1.2 = "T5"%string)
       ↔ (ev1 (classify_events_at g (k s)) = ∅ ∧ ev2 (classify_events_at g (k s)) = ∅
          ∧ ev3 (classify_events_at g (k s)) = ∅ ∧ ev4 (classify_events_at g (k s)) = ∅)
         ∧ t = (mkDPState (k s + 1) (py_sorted (open_set s)) (loose_flag s),
                "T5"%string, []).
Proof.
  intros [[[?|Hn] _]|(_ & vn' & Hvn' & _ & Hts)]%enumerate_transitions_fires Hk Hvn Hne;
    [lia|congruence|].
  assert (vn' = vn) as -> by congruence.
  intros t. rewrite Hts. split.
  - intros [Hf Htag]. destruct Hf; simpl in Htag; try discriminate. done.
  - intros [(? & ? & ? & ?) ->]. split; [by apply fires_T5|done].
Qed.

(** ** Insertion-ordered dictionaries *)

Section odict_facts.
Context {K V : Type} `{EqDecision K}.
Implicit Types (d : list (K * V)) (key : K) (v : V).

Lemma od_get_Some d key v : od_get d key = Some v → (key, v) ∈ d.
Proof.
  induction d as [|[k' v'] d IH]; simpl; [done|].
  destruct (decide (k' = key)) as [->|Hne].
  - intros [= ->]. left.
  - intros H. right. auto.
Qed.

Lemma od_get_None d key : od_get d key = None ↔ key ∉ od_keys d.
Proof.
  unfold od_keys. induction d as [|[k' v'] d IH]; simpl.
  - split; [|done]. intros _ []%elem_of_nil.
  - rewrite not_elem_of_cons. destruct (decide (k' = key)) as [->|Hne].
    + split; [done|]. intros [? _]. done.
    + rewrite IH. split; [by split|]. intros [_ ?]. done.
Qed.

Lemma od_mem_true d key : od_mem d key = true ↔ key ∈ od_keys d.
Proof.
  unfold od_mem. rewrite bool_decide_eq_true.
  destruct (od_get d key) eqn:E.
  - split; [|eauto]. intros _.
    destruct (decide (key ∈ od_keys d)) as [?|Hn]; [done|].
    apply od_get_None in Hn. congruence.
  - split; [intros [? ?]; done|]. intros Hin. apply od_get_None in E. done.
Qed.

Lemma od_keys_set d key v key' :
  key' ∈ od_keys (od_set d key v) ↔ key' ∈ od_keys d ∨ key' = key.
Proof.
  unfold od_keys. induction d as [|[k' v'] d IH]; simpl.
  - rewrite list_elem_of_singleton, elem_of_nil. tauto.
  - destruct (decide (k' = key)) as [->|Hne]; simpl.
    + rewrite elem_of_cons. tauto.
    + rewrite !elem_of_cons, IH. tauto.
Qed.

Lemma od_set_Forall (P : K * V → Prop) d key v :
  Forall P d → P (key, v) → (∀ v', P (key, v') → P (key, v)) →
  Forall P (od_set d key v).
Proof.
  intros Hd Hp _. induction Hd as [|[k' v'] d Hx Hd IH]; simpl.
  - by constructor.
  - destruct (decide (k' = key)) as [->|Hne]; by constructor.
Qed.

End odict_facts.

(** ** The solver's maps *)

Lemma all_true_get (st : solver) (s : DPState) :
  all_true st → default false (od_get (reachable st) s) = true ↔ s ∈ od_keys (reachable st).
Proof.
  intros Hall. destruct (od_get (reachable st) s) as [b|] eqn:E; simpl.
  - assert (Hb : b = true).
    { apply od_get_Some in E. by apply (proj1 (Forall_forall _ _) Hall (s, b)). }
    subst b. split; [|done]. intros _.
    destruct (decide (s ∈ od_keys (reachable st))) as [?|Hn]; [done|].
    apply od_get_None in Hn. congruence.
  - apply od_get_None in E. split; [done|]. intros ?. done.
Qed.

Lemma discover_spec (st : solver) (s prev : DPState) (ttype : string) (es : list Edge) :
  all_true st →
  all_true (discover st s prev ttype es)
  ∧ ∀ s', s' ∈ od_keys (reachable (discover st s prev ttype es))
          ↔ s' ∈ od_keys (reachable st) ∨ s' = s.
Proof.
  intros Hall. unfold discover. destruct (od_mem (reachable st) s) eqn:Hm.
  - split; [done|]. intros s'. apply od_mem_true in Hm. split; [auto|].
    intros [?| ->]; done.
  - split.
    + unfold all_true. simpl. apply od_set_Forall; auto.
    + intros s'. simpl. apply od_keys_set.
Qed.

(** ** Seeding *)

Lemma foldM_collect_inv {A S T : Type} (proj : S → T → Prop) (P : A → T → Prop)
    (I : S → Prop) (Q : A → Prop) (body : S → A → result S) (xs : list A) (st : S) :
  (∀ st x, I st → Q x →
     ∃ st', body st x = Ok st' ∧ I st' ∧ ∀ t, proj st' t ↔ proj st t ∨ P x t) →
  I st → Forall Q xs →
  ∃ st', foldM body xs st = Ok st' ∧ I st'
         ∧ ∀ t, proj st' t ↔ proj st t ∨ ∃ x, x ∈ xs ∧ P x t.
Proof.
  intros Hbody HI HQ. revert st HI.
  induction HQ as [|x xs Hx _ IH]; intros st HI; simpl.
  - exists st. split; [done|]. split; [done|]. intros t. split; [auto|].
    intros [?|(x & []%elem_of_nil & _)]. done.
  - destruct (Hbody st x HI Hx) as (st1 & -> & HI1 & H1). ok_step.
    destruct (IH st1 HI1) as (st2 & -> & HI2 & H2).
    exists st2. split; [done|]. split; [done|]. intros t.
    rewrite H2, H1. split.
    + intros [[?|?]|(x' & ? & ?)]; auto.
      * right. exists x. split; [left|done].
      * right. exists x'. split; [by right|done].
    + intros [?|(x' & [->|?]%elem_of_cons & ?)]; eauto.
Qed.

Lemma valid_graph_zero_adjacent (g : TwoIntervalBipartiteGraph) (y : Z) (yv : YVertex) :
  fully_built g → Z.of_nat (length (y_vertices g)) = n g →
  y_vertices g !! Z.to_nat y = Some yv →
  contains (first yv) 0 = true ∨ contains (second yv) 0 = true →
  0 < n g.
Proof. intros _ Hlen Hl%lookup_lt_Some _. lia. Qed.

Lemma initial_states_spec (g : TwoIntervalBipartiteGraph) :
  valid_graph g →
  ∃ st, initial_states g solver_empty = Ok st ∧ all_true st
        ∧ ∀ s, s ∈ od_keys (reachable st) ↔ seed g s.
Proof.
  intros (Hfb & Hlen & _)%valid_graph_built. unfold initial_states.
  destruct (neighbors_of_x_total g 0 Hfb) as (x0 & -> & Hx0). ok_step.
  set (st0 := mkSolver _ _ _).
  destruct (foldM_collect_inv
              (λ st s, s ∈ od_keys (reachable st))
              (λ y s, ∃ yv, y_vertices g !! Z.to_nat y = Some yv
                            ∧ s = mkDPState 1 (if second_right_of_x0 yv then [y] else []) 1)
              all_true (λ y, y ∈ x0)
              (initial_states_step g) x0 st0)
    as (st & Hst & Hall & Hkeys).
  - intros st y Hall Hy. unfold initial_states_step.
    apply Hx0 in Hy as [_ Hadj%adjacent_range].
    destruct (py_index_range (y_vertices g) y Hadj) as (yv & -> & Hyv). ok_step.
    eexists. split; [done|].
    destruct (discover_spec st (mkDPState 1 (if second_right_of_x0 yv then [y] else []) 1)
                (mkDPState 0 [] 1) "INIT" [x_edge 0 y] Hall) as [Hall' Hk'].
    split; [done|]. intros s. rewrite Hk'. split.
    + intros [?| ->]; [by left|]. right. eauto.
    + intros [?|(yv' & Hyv' & ->)]; [by left|]. right.
      rewrite Hyv in Hyv'. by injection Hyv' as <-.
  - unfold all_true, st0. simpl. by repeat constructor.
  - by apply Forall_forall.
  - exists st. split; [done|]. split; [done|]. intros s. rewrite Hkeys.
    unfold st0, od_keys, seed. simpl. rewrite list_elem_of_singleton. split.
    + intros [?|(y & Hy & yv & Hyv & ->)]; [by left|]. right.
      apply Hx0 in Hy as [_ Hadj]. by exists y, yv.
    + intros [?|(y & yv & Hadj & Hyv & ->)]; [by left|]. right.
      exists y. split; [|by exists yv]. apply Hx0. split; [|done].
      destruct Hadj as (Hy & yv' & Hl & Hc).
      pose proof (valid_graph_zero_adjacent g y yv' Hfb Hlen Hl Hc). lia.
Qed.

(** ** Discovered states *)

Lemma seed_shape (g : TwoIntervalBipartiteGraph) (s : DPState) :
  seed g s →
  k s = 1 ∧ loose_flag s = 1
  ∧ (open_set s = [] ∨ ∃ y, open_set s = [y] ∧ 0 ≤ y < Z.of_nat (length (y_vertices g))).
Proof.
  intros [->|(y & yv & Hadj%adjacent_range & _ & ->)]; simpl; [auto|].
  split; [done|]. split; [done|]. destruct (second_right_of_x0 yv); eauto.
Qed.

Lemma Reach_layer (g : TwoIntervalBipartiteGraph) (s : DPState) :
  Reach g s → 1 ≤ k s ∧ (k s = 1 ∨ k s ≤ n g).
Proof.
  induction 1 as [s Hs|s ts t Hr IH Hk Hts Ht].
  - apply seed_shape in Hs as (-> & _). lia.
  - destruct (enumerate_transitions_elem g s ts t Hts Ht) as (_ & vn & _ & _ & Hf).
    apply fires_successor in Hf as (-> & _). lia.
Qed.

Lemma Reach_step_inv (g : TwoIntervalBipartiteGraph) (s : DPState) :
  Reach g s → 2 ≤ k s →
  ∃ c, Reach g c ∧ k c + 1 = k s ∧ 1 ≤ k c ≤ n g - 1 ∧ succs g c s.
Proof.
  destruct 1 as [s Hs|c ts t Hr Hk Hts Ht]; intros Hge.
  - apply seed_shape in Hs as (? & _). lia.
  - exists c. split; [done|].
    destruct (enumerate_transitions_elem g c ts t Hts Ht) as (_ & vn & _ & _ & Hf).
    apply fires_successor in Hf as (-> & _). split; [done|]. split; [done|].
    by exists ts, t.
Qed.

Lemma Reach_shape (g : TwoIntervalBipartiteGraph) (s : DPState) :
  valid_graph g → Reach g s →
  open_in_range g s ∧ Sorted Z.le (open_set s)
  ∧ (length (open_set s) ≤ 2)%nat
  ∧ (loose_flag s = 0 ∨ loose_flag s = 1).
Proof.
  intros (_ & Hlen & _)%valid_graph_built.
  induction 1 as [s Hs|s ts t Hr IH Hk Hts Ht].
  - unfold open_in_range.
    apply seed_shape in Hs as (_ & -> & [-> |(y & -> & Hy)]).
    + split; [constructor|]. split; [constructor|]. simpl. split; [lia|auto].
    + split; [constructor; [lia|constructor]|]. split; [by repeat constructor|].
      simpl. split; [lia|auto].
  - destruct IH as (HO & _ & Hl & HL).
    destruct (enumerate_transitions_elem g s ts t Hts Ht) as (_ & vn & _ & _ & Hf).
    apply fires_successor in Hf as (_ & Hs & Hl' & HL' & HO').
    split; [|split; [done|split; lia]].
    apply Forall_forall. intros y [Hy|Hy]%HO'; [|lia].
    by apply (proj1 (Forall_forall _ _) HO).
Qed.

(** ** One layer *)

Lemma discover_all_spec (state : DPState) (ts : list transition) (st : solver) :
  all_true st →
  let st' := foldl (λ st (t : transition), discover st t.1.1 state t.1.2 t.2) st ts in
  all_true st'
  ∧ ∀ s', s' ∈ od_keys (reachable st')
          ↔ s' ∈ od_keys (reachable st) ∨ ∃ t, t ∈ ts ∧ s' = t.1.1.
Proof.
  revert st. induction ts as [|t ts IH]; intros st Hall; simpl.
  - split; [done|]. intros s'. split; [auto|]. intros [?|(t & []%elem_of_nil & _)]. done.
  - destruct (discover_spec st t.1.1 state t.1.2 t.2 Hall) as [Hall1 Hk1].
    destruct (IH _ Hall1) as [Hall2 Hk2]. split; [done|]. intros s'.
    rewrite Hk2, Hk1. split.
    + intros [[?| ->]|(t' & ? & ->)]; auto.
      * right. exists t. split; [left|done].
      * right. exists t'. split; [by right|done].
    + intros [?|(t' & [->|?]%elem_of_cons & ->)]; eauto.
Qed.

Lemma run_state_spec (g : TwoIntervalBipartiteGraph) (st : solver) (c : DPState) :
  valid_graph g → all_true st → c ∈ od_keys (reachable st) → open_in_range g c →
  ∃ st', run_state g st c = Ok st' ∧ all_true st'
         ∧ ∀ s', s' ∈ od_keys (reachable st')
                 ↔ s' ∈ od_keys (reachable st) ∨ succs g c s'.
Proof.
  intros Hv Hall Hc HO. unfold run_state.
  rewrite (proj2 (all_true_get st c Hall) Hc). simpl.
  destruct (enumerate_transitions_total g c Hv HO) as [ts Hts]. rewrite Hts. ok_step.
  eexists. split; [done|].
  destruct (discover_all_spec c ts st Hall) as [Hall' Hk]. split; [done|].
  intros s'. rewrite Hk. unfold succs. split.
  - intros [?|(t & ? & ->)]; [by left|]. right. by exists ts, t.
  - intros [?|(ts' & t & Hts' & ? & ->)]; [by left|]. right.
    rewrite Hts in Hts'. injection Hts' as <-. eauto.
Qed.

Lemma run_states_spec (g : TwoIntervalBipartiteGraph) (cs : list DPState) (st : solver) :
  valid_graph g → all_true st →
  Forall (λ c, c ∈ od_keys (reachable st) ∧ open_in_range g c) cs →
  ∃ st', foldM (run_state g) cs st = Ok st' ∧ all_true st'
         ∧ ∀ s', s' ∈ od_keys (reachable st')
                 ↔ s' ∈ od_keys (reachable st) ∨ ∃ c, c ∈ cs ∧ succs g c s'.
Proof.
  intros Hv Hall Hcs.
  destruct (foldM_collect_inv
              (λ st s', s' ∈ od_keys (reachable st)) (succs g)
              (λ st', all_true st' ∧ ∀ c, c ∈ od_keys (reachable st) → c ∈ od_keys (reachable st'))
              (λ c, c ∈ od_keys (reachable st) ∧ open_in_range g c)
              (run_state g) cs st)
    as (st' & Hst' & [Hall' _] & Hk); [|done|done|by exists st'].
  intros st1 c [Hall1 Hmono] [Hc HO].
  destruct (run_state_spec g st1 c Hv Hall1 (Hmono c Hc) HO) as (st2 & -> & Hall2 & Hk2).
  exists st2. split; [done|]. split; [|done]. split; [done|].
  intros c' Hc'. apply Hk2. left. auto.
Qed.

Lemma run_layer_spec (g : TwoIntervalBipartiteGraph) (st : solver)
    (spk : list (Z * Z)) (j : Z) :
  valid_graph g → 1 ≤ j ≤ n g - 1 → layer_inv g j st →
  ∃ st' spk', run_layer g (st, spk) j = Ok (st', spk') ∧ layer_inv g (j + 1) st'.
Proof.
  intros Hv Hj [Hall Hkeys]. unfold run_layer.
  set (cs := filter (λ s, k s = j) (od_keys (reachable st))).
  destruct (run_states_spec g cs st Hv Hall) as (st' & -> & Hall' & Hk').
  { apply Forall_forall. intros c [_ Hc]%list_elem_of_filter. split; [done|].
    apply Hkeys in Hc as [Hc _]. by apply Reach_shape. }
  ok_step. eexists _, _. split; [done|]. split; [done|].
  intros s. rewrite Hk', Hkeys. split.
  - intros [[Hr Hle]|(c & [Hkc Hc]%list_elem_of_filter & ts & t & Hts & Ht & ->)].
    + split; [done|lia].
    + apply Hkeys in Hc as [Hc _]. split.
      * apply (Reach_step g c ts t); [done|lia|done..].
      * destruct (enumerate_transitions_elem g c ts t Hts Ht) as (_ & vn & _ & _ & Hf).
        apply fires_successor in Hf as (-> & _). lia.
  - intros [Hr Hle]. destruct (decide (k s ≤ j)) as [?|Hgt]; [by left|]. right.
    destruct (Reach_step_inv g s Hr) as (c & Hc & Hkc & _ & Hsucc); [lia|].
    exists c. split; [|done]. apply list_elem_of_filter. split; [lia|].
    apply Hkeys. split; [done|lia].
Qed.

Lemma foldM_py_range {St : Type} (P : Z → St → Prop) (body : St → Z → result St)
    (a b : Z) (st : St) :
  a ≤ b → P a st →
  (∀ j st, a ≤ j < b → P j st → ∃ st', body st j = Ok st' ∧ P (j + 1) st') →
  ∃ st', foldM body (py_range a b) st = Ok st' ∧ P b st'.
Proof.
  intros Hab HP Hbody.
  assert (Hgen : ∀ m : nat, a + Z.of_nat m ≤ b →
            ∃ st', foldM body (py_range a (a + Z.of_nat m)) st = Ok st'
                   ∧ P (a + Z.of_nat m) st').
  { induction m as [|m IH]; intros Hm.
    - rewrite py_range_empty by lia. simpl. exists st. split; [done|].
      by replace (a + Z.of_nat 0) with a by lia.
    - destruct IH as (st1 & Hst1 & HP1); [lia|].
      replace (a + Z.of_nat (S m)) with (a + Z.of_nat m + 1) by lia.
      rewrite py_range_snoc by lia. rewrite foldM_app, Hst1. ok_step. simpl.
      destruct (Hbody (a + Z.of_nat m) st1) as (st2 & -> & HP2); [lia|done|].
      by exists st2. }
  destruct (Hgen (Z.to_nat (b - a))) as (st' & Hst' & HP'); [lia|].
  replace (a + Z.of_nat (Z.to_nat (b - a))) with b in * by lia. eauto.
Qed.

Lemma run_layers_spec (g : TwoIntervalBipartiteGraph) (st : solver) :
  valid_graph g → layer_inv g 1 st →
  ∃ st' spk, foldM (run_layer g) (py_range 1 (n g)) (st, []) = Ok (st', spk)
             ∧ all_true st'
             ∧ ∀ s, s ∈ od_keys (reachable st') ↔ Reach g s.
Proof.
  intros Hv Hinv. destruct (decide (n g ≤ 1)) as [Hn|Hn].
  - rewrite py_range_empty by done. simpl. exists st, []. split; [done|].
    destruct Hinv as [Hall Hk]. split; [done|]. intros s. rewrite Hk.
    split; [tauto|]. intros Hr. split; [done|].
    destruct (decide (k s ≤ 1)); [done|].
    destruct (Reach_step_inv g s Hr) as (c & _ & ? & ? & _); lia.
  - destruct (foldM_py_range (λ j acc, layer_inv g j acc.1) (run_layer g) 1 (n g) (st, []))
      as ([st' spk] & Hst' & [Hall Hk]); [lia|done| |].
    + intros j [st1 spk1] Hj Hinv1. simpl in Hinv1.
      destruct (run_layer_spec g st1 spk1 j Hv) as (st2 & spk2 & -> & Hinv2); [lia|done|].
      by exists (st2, spk2).
    + exists st', spk. split; [done|]. split; [done|]. intros s. simpl in Hk.
      rewrite Hk. split; [tauto|]. intros Hr. split; [done|].
      pose proof (Reach_layer g s Hr). lia.
Qed.

(** ** The run *)

Lemma run_clears (g : TwoIntervalBipartiteGraph) (st0 st1 : solver) :
  run g st0 = run g st1.
Proof. reflexivity. Qed.

Lemma run_spec (g : TwoIntervalBipartiteGraph) (st0 : solver) :
  valid_graph g →
  ∃ stats st, run g st0 = Ok (stats, st) ∧ all_true st
              ∧ (∀ s, s ∈ od_keys (reachable st) ↔ Reach g s)
              ∧ accepted stats = default false (od_get (reachable st) (final_state g))
              ∧ total_states stats = Z.of_nat (length (reachable st))
              ∧ stats_transitions_per_type stats = transitions_per_type st.
Proof.
  intros Hv. unfold run.
  destruct (initial_states_spec g Hv) as (st1 & -> & Hall1 & Hk1). ok_step.
  destruct (run_layers_spec g st1 Hv) as (st2 & spk & -> & Hall2 & Hk2).
  { split; [done|]. intros s. rewrite Hk1. split.
    - intros Hs. split; [by apply Reach_seed|].
      apply seed_shape in Hs as (-> & _). lia.
    - intros [Hr Hle]. destruct Hr as [s Hs|c ts t Hr Hk Hts Ht]; [done|].
      destruct (enumerate_transitions_elem g c ts t Hts Ht) as (_ & vn & _ & _ & Hf).
      apply fires_successor in Hf as (Hk' & _). lia. }
  ok_step. eexists _, _. split; [done|]. simpl. done.
Qed.

Lemma accepted_iff (g : TwoIntervalBipartiteGraph) (st : solver) :
  all_true st →
  default false (od_get (reachable st) (final_state g)) = true
  ↔ final_state g ∈ od_keys (reachable st).
Proof. apply all_true_get. Qed.

(** C1. On a constructed graph [run()] starts from cleared maps whatever the
    solver held before, never raises, and leaves in [reachable] exactly the
    states of the run protocol: the seeds of layer 1 and, for [k] from 1 to
    [n-1], every successor that the transition enumeration gives for a
    discovered layer-[k] state.  The returned [accepted] is true if and only
    if the state [(n, ∅, 0)] is among them. *)
Theorem run_follows_protocol (g : TwoIntervalBipartiteGraph) (st0 : solver) :
  valid_graph g →
  run g st0 = run g solver_empty
  ∧ ∃ stats st, run g st0 = Ok (stats, st)
                ∧ (∀ s, s ∈ od_keys (reachable st) ↔ Reach g s)
                ∧ (accepted stats = true ↔ final_state g ∈ od_keys (reachable st)).
Proof.
  intros Hv. split; [apply run_clears|].
  destruct (run_spec g st0 Hv) as (stats & st & Hrun & Hall & Hk & Hacc & _).
  exists stats, st. split; [done|]. split; [done|].
  rewrite Hacc. by apply accepted_iff.
Qed.

Lemma run_follows_protocol_witness :
  ∃ stats st, run hamiltonian_n3_graph solver_empty = Ok (stats, st)
              ∧ (accepted stats = true
                 ↔ final_state hamiltonian_n3_graph ∈ od_keys (reachable st)).
Proof.
  destruct (run_follows_protocol hamiltonian_n3_graph solver_empty
              hamiltonian_n3_graph_valid) as (_ & stats & st & Hrun & _ & Hacc).
  by exists stats, st.
Defined.

(** C8. On a constructed graph a second [run()] on the same solver returns
    the same [DPStats] as the first (every field equal) and leaves the same
    maps, and so does a run from any other solver state for that graph. *)
Theorem run_twice_same_stats (g : TwoIntervalBipartiteGraph) (st0 : solver) :
  valid_graph g →
  ∃ stats st1, run g st0 = Ok (stats, st1)
               ∧ run g st1 = Ok (stats, st1)
               ∧ ∀ st', run g st' = Ok (stats, st1).
Proof.
  intros Hv.
  destruct (run_spec g st0 Hv) as (stats & st1 & Hrun & _).
  exists stats, st1. split; [done|]. split.
  - by rewrite (run_clears g st1 st0).
  - intros st'. by rewrite (run_clears g st' st0).
Qed.

Lemma run_twice_same_stats_witness :
  ∃ stats st1, run hamiltonian_n3_graph solver_empty = Ok (stats, st1)
               ∧ run hamiltonian_n3_graph st1 = Ok (stats, st1).
Proof.
  destruct (run_twice_same_stats hamiltonian_n3_graph solver_empty
              hamiltonian_n3_graph_valid) as (stats & st1 & H1 & H2 & _).
  by exists stats, st1.
Defined.

(** C9. On a constructed graph with [n <= 1] the layer loop has nothing to
    iterate over, [reachable] holds only layer-1 states with loose flag 1,
    the state [(n, ∅, 0)] is not among them and [run()] returns
    [accepted = False]; for [n = 0] [find_cycle()] nevertheless returns the
    empty cycle, whatever number of nested calls the interpreter allows. *)
Theorem run_rejects_small_graphs (g : TwoIntervalBipartiteGraph) (st0 : solver) :
  valid_graph g → n g ≤ 1 →
  py_range 1 (n g) = []
  ∧ (∃ stats st, run g st0 = Ok (stats, st)
                 ∧ accepted stats = false
                 ∧ (∀ s, s ∈ od_keys (reachable st) → k s = 1 ∧ loose_flag s = 1)
                 ∧ final_state g ∉ od_keys (reachable st))
  ∧ (n g = 0 → ∀ depth, find_cycle depth g = Ok (Some [])).
Proof.
  intros Hv Hn. split; [by apply py_range_empty|]. split.
  - destruct (run_spec g st0 Hv) as (stats & st & Hrun & Hall & Hk & Hacc & _).
    assert (Hseed : ∀ s, s ∈ od_keys (reachable st) → k s = 1 ∧ loose_flag s = 1).
    { intros s [s' Hs|c ts t _ Hc _ _]%Hk; [|lia].
      apply seed_shape in Hs as (? & ? & _). done. }
    assert (Hfin : final_state g ∉ od_keys (reachable st)).
    { intros [_ HL]%Hseed. done. }
    exists stats, st. split; [done|]. split; [|done].
    rewrite Hacc. apply od_get_None in Hfin. by rewrite Hfin.
  - intros H0 depth. unfold find_cycle. by destruct (decide _).
Qed.

Lemma run_rejects_small_graphs_witness :
  n single_edge_graph ≤ 1
  ∧ adjacent (y_vertices single_edge_graph) 0 0
  ∧ ∃ stats st, run single_edge_graph solver_empty = Ok (stats, st)
                ∧ accepted stats = false.
Proof.
  assert (Hn : n single_edge_graph ≤ 1) by (simpl; lia).
  split; [exact Hn|]. split.
  { split; [lia|]. exists (mkYVertex (iv 0 0) iv_none). split; [done|]. by left. }
  destruct (run_rejects_small_graphs single_edge_graph solver_empty
              single_edge_graph_valid Hn) as (_ & (stats & st & Hrun & Hacc & _) & _).
  by exists stats, st.
Defined.

(** C3. For a state [(k, O, L)] that a run on a constructed graph has
    discovered, with [k < n]: if X-index [k] has no adjacent Y-vertex the
    transition enumeration returns no successor at all; if it has one, a
    triple tagged T5 is returned exactly when the four event sets at [k] are
    empty, and that triple is the state [(k+1, O, L)] with no added edge. *)
Theorem dead_end_and_T5 (g : TwoIntervalBipartiteGraph) (st0 st : solver)
    (stats : DPStats) (s : DPState) :
  valid_graph g → run g st0 = Ok (stats, st) →
  s ∈ od_keys (reachable st) → k s < n g →
  ∃ ts, enumerate_transitions g s = Ok ts
        ∧ ((∀ y, ¬ adjacent (y_vertices g) (k s) y) → ts = [])
        ∧ ((∃ y, adjacent (y_vertices g) (k s) y) →
           ∀ t, (t ∈ ts ∧ t.1.2 = "T5"%string)
                ↔ no_events g (k s)
                  ∧ t = (mkDPState (k s + 1) (open_set s) (loose_flag s),
                         "T5"%string, [])).
Proof.
  intros Hv Hrun Hs Hk.
  destruct (run_spec g st0 Hv) as (stats' & st' & Hrun' & _ & Hkeys & _).
  rewrite Hrun in Hrun'. injection Hrun' as <- <-.
  apply Hkeys in Hs.
  destruct (Reach_shape g s Hv Hs) as (HO & Hsorted & _).
  destruct (Reach_layer g s Hs) as [Hk1 _].
  destruct (enumerate_transitions_total g s Hv HO) as [ts Hts].
  destruct (valid_graph_built g Hv) as (Hfb & _).
  destruct (neighbors_of_x_total g (k s) Hfb) as (vn & Hvn & Hadj).
  exists ts. split; [done|]. split.
  - intros Hnone.
    destruct (enumerate_transitions_fires g s ts Hts)
      as [[_ ->]|(_ & vn' & Hvn' & Hne & _)]; [done|].
    rewrite Hvn in Hvn'. injection Hvn' as <-.
    destruct vn as [|y vn]; [done|].
    destruct (Hnone y). apply Hadj. left.
  - intros [y Hy]. intros t.
    rewrite (enumerate_transitions_T5 g s ts vn Hts Hk Hvn).
    + rewrite (py_sorted_id _ Hsorted). done.
    + intros ->. assert (Hin : y ∈ @nil Z) by (apply Hadj; split; [lia|done]).
      by apply elem_of_nil in Hin.
Qed.

Lemma dead_end_and_T5_witness :
  ∃ ts, enumerate_transitions hamiltonian_n3_graph (mkDPState 2 [2] 1) = Ok ts
        ∧ ∀ t, t ∈ ts →  t.1.2 ≠ "T5"%string.
Proof.
  destruct (run_spec hamiltonian_n3_graph solver_empty hamiltonian_n3_graph_valid)
    as (stats & st & Hrun & _).
  assert (Hin : mkDPState 2 [2] 1 ∈ od_keys (reachable st)).
  { revert Hrun. vm_compute. intros [= <- <-]. vm_compute.
    apply list_elem_of_In. simpl. tauto. }
  assert (Hk : k (mkDPState 2 [2] 1) < n hamiltonian_n3_graph) by (simpl; lia).
  destruct (dead_end_and_T5 hamiltonian_n3_graph solver_empty st stats
              (mkDPState 2 [2] 1) hamiltonian_n3_graph_valid Hrun Hin Hk)
    as (ts & Hts & _ & HT5).
  exists ts. split; [exact Hts|]. intros t Ht Htag.
  assert (Hadj : ∃ y, adjacent (y_vertices hamiltonian_n3_graph) 2 y).
  { exists 1. split; [lia|]. exists (mkYVertex (iv 1 2) iv_none). split; [done|]. by left. }
  destruct (proj1 (HT5 Hadj t) (conj Ht Htag)) as [(_ & H2 & _) _].
  revert H2. vm_compute. discriminate.
Defined.

(** ** Backtracking: paths *)

Lemma tag_inj (a b : bool) : tag a = tag b → a = b.
Proof. by destruct a, b. Qed.

Lemma last_index {A : Type} (p : list A) (a : A) :
  last p = Some a → ∃ m : nat, length p = S m ∧ p !! m = Some a.
Proof.
  rewrite last_lookup. destruct p as [|x p]; [done|]. simpl. eauto.
Qed.

(** The side of the next vertex, from the side of the last one. *)
Lemma alternates_next (p : list (string * Z)) (b : bool) (c : Z) :
  alternates p → last p = Some (tag (negb b), c) → Nat.even (length p) = b.
Proof.
  intros Halt (m & -> & Hm)%last_index.
  apply Halt in Hm. simpl in Hm. apply tag_inj in Hm.
  rewrite Nat.even_succ, <- Nat.negb_even, <- Hm. by destruct b.
Qed.

Lemma alternates_snoc (p : list (string * Z)) (b : bool) (c c' : Z) :
  alternates p → last p = Some (tag (negb b), c) →
  alternates (p ++ [(tag b, c')]).
Proof.
  intros Halt Hlast j a Hj.
  apply lookup_app_Some in Hj as [Hj|[Hge Hj]]; [by apply Halt|].
  apply list_lookup_singleton_Some in Hj as [Hz <-]. simpl.
  replace j with (length p) by lia.
  by rewrite (alternates_next p b c).
Qed.

Lemma chained_snoc (E : Z → Z → Prop) (p : list (string * Z)) (a b : string * Z) :
  chained E p → last p = Some a → joined E a b → chained E (p ++ [b]).
Proof.
  intros Hch (m & Hlen & Hm)%last_index Hj j a' b' Ha Hb.
  apply lookup_app_Some in Hb as [Hb|[Hge Hb]].
  - apply (Hch j a' b'); [|done].
    apply lookup_app_Some in Ha as [?|[? _]]; [done|].
    apply lookup_lt_Some in Hb. lia.
  - apply list_lookup_singleton_Some in Hb as [Hz <-].
    assert (j = m) as -> by lia.
    rewrite lookup_app_l in Ha by lia. congruence.
Qed.

Lemma in_range_snoc (N : Z) (p : list (string * Z)) (a : string * Z) :
  in_range N p → 0 ≤ a.2 < N → in_range N (p ++ [a]).
Proof.
  intros Hp Ha a' [?| ->%list_elem_of_singleton]%elem_of_app; [by apply Hp|done].
Qed.

Lemma removelast_snoc {A : Type} (p : list A) (a : A) : removelast (p ++ [a]) = p.
Proof. by rewrite removelast_last. Qed.

Lemma py_pop_snoc {A : Type} (p : list A) (a : A) : py_pop (p ++ [a]) = Ok p.
Proof.
  unfold py_pop. rewrite removelast_snoc. by destruct p.
Qed.

(** ** Backtracking: the marker arrays *)

Lemma visited_length (N : Z) (xn : list (list Z)) (st : search) (b cb : bool) (c : Z) :
  search_inv N xn st cb c → Z.of_nat (length (visited b st)) = N.
Proof. intros (? & ? & _). by destruct b. Qed.

(** ** Backtracking: the search *)

(** Marking [c] and appending it to the path re-establishes the invariant
    for the recursive call. *)
Lemma search_inv_push (N : Z) (xn : list (list Z)) (vx vy : list bool)
    (p : list (string * Z)) (b : bool) (cur c : Z) :
  search_inv N xn (mkSearch vx vy p) (negb b) cur →
  0 ≤ c < N → joined (list_edge N xn) (tag (negb b), cur) (tag b, c) →
  visited b (mkSearch vx vy p) !! Z.to_nat c = Some false →
  search_inv N xn
    (mkSearch (if b then <[Z.to_nat c := true]> vx else vx)
              (if b then vy else <[Z.to_nat c := true]> vy)
              (p ++ [(tag b, c)])) b c.
Proof.
  intros (Hlx & Hly & Hlast & Halt & Hnd & Hrg & Hch & Hvis) Hc Hj Hfalse.
  simpl in *. split; [|split; [|split; [|split; [|split; [|split; [|split]]]]]]; simpl.
  - destruct b; by rewrite ?length_insert.
  - destruct b; by rewrite ?length_insert.
  - by rewrite last_snoc.
  - by eapply alternates_snoc.
  - apply NoDup_app. split; [done|]. split; [|apply NoDup_singleton].
    intros a Ha ->%list_elem_of_singleton.
    apply (Hvis b c Hc) in Ha. congruence.
  - by apply in_range_snoc.
  - by eapply chained_snoc.
  - intros b' i Hi. rewrite elem_of_app, list_elem_of_singleton.
    rewrite <- (Hvis b' i Hi).
    destruct b, b'; simpl in *.
    + destruct (decide (i = c)) as [->|Hne].
      * rewrite list_lookup_insert_eq by lia. split; auto.
      * rewrite list_lookup_insert_ne by lia. split; [auto|].
        intros [?|[= ?]]; done.
    + split; [auto|]. intros [?|[=]]; done.
    + split; [auto|]. intros [?|[=]]; done.
    + destruct (decide (i = c)) as [->|Hne].
      * rewrite list_lookup_insert_eq by lia. split; auto.
      * rewrite list_lookup_insert_ne by lia. split; [auto|].
        intros [?|[= ?]]; done.
Qed.

Lemma insert_false_true (v : list bool) (j : nat) :
  v !! j = Some false → <[j := false]> (<[j := true]> v) = v.
Proof.
  intros H. rewrite list_insert_insert_eq. by apply list_insert_id.
Qed.

Lemma dfs_loop_spec (N : Z) (xn : list (list Z))
    (rec : Z → search → result (bool * search)) (to_x : bool) (cur : Z)
    (cands : list Z) (st : search) (Low High : Prop) :
  search_inv N xn st (negb to_x) cur →
  Forall (λ c, 0 ≤ c < N
               ∧ joined (list_edge N xn) (tag (negb to_x), cur) (tag to_x, c)) cands →
  (∀ c st1, search_inv N xn st1 to_x c →
            length (path st1) = S (length (path st)) →
            (∃ b st', rec c st1 = Ok (b, st') ∧ (b = false → st' = st1)
                      ∧ (b = true → cycle_ok N xn (path st')
                                    ∧ path st1 `prefix_of` path st' ∧ High))
            ∨ (rec c st1 = Raise RecursionError ∧ Low)) →
  (∃ b st', dfs_loop rec to_x cands st = Ok (b, st') ∧ (b = false → st' = st)
            ∧ (b = true → cycle_ok N xn (path st')
                          ∧ path st `prefix_of` path st' ∧ High))
  ∨ (dfs_loop rec to_x cands st = Raise RecursionError ∧ Low).
Proof.
  intros Hinv Hcands Hrec.
  induction Hcands as [|c cands [Hc Hj] _ IH]; simpl.
  { left. exists false, st. done. }
  assert (Hlen : Z.of_nat (length (visited to_x st)) = N) by by eapply visited_length.
  destruct (py_index_range (visited to_x st) c) as (seen & -> & Hseen); [lia|].
  ok_step. destruct seen; [exact IH|].
  rewrite py_setitem_range by lia. ok_step.
  destruct st as [vx vy p].
  pose proof (search_inv_push N xn vx vy p to_x cur c Hinv Hc Hj Hseen) as Hinv1.
  destruct to_x; simpl in *.
  - destruct (Hrec c _ Hinv1) as [(b & st' & -> & Hf & Ht)|[-> HL]].
    { simpl. rewrite length_app. simpl. lia. }
    2: { by right. }
    ok_step. destruct b.
    { left. exists true, st'. split; [done|]. split; [done|]. intros _.
      destruct (Ht eq_refl) as (Hcyc & Hpre & HH). split; [done|]. split; [|done].
      etransitivity; [|exact Hpre]. simpl. by apply prefix_app_r. }
    rewrite (Hf eq_refl). simpl. rewrite py_pop_snoc. ok_step. simpl.
    rewrite py_setitem_range by (rewrite length_insert; lia). ok_step.
    rewrite insert_false_true by done. exact IH.
  - destruct (Hrec c _ Hinv1) as [(b & st' & -> & Hf & Ht)|[-> HL]].
    { simpl. rewrite length_app. simpl. lia. }
    2: { by right. }
    ok_step. destruct b.
    { left. exists true, st'. split; [done|]. split; [done|]. intros _.
      destruct (Ht eq_refl) as (Hcyc & Hpre & HH). split; [done|]. split; [|done].
      etransitivity; [|exact Hpre]. simpl. by apply prefix_app_r. }
    rewrite (Hf eq_refl). simpl. rewrite py_pop_snoc. ok_step. simpl.
    rewrite py_setitem_range by (rewrite length_insert; lia). ok_step.
    rewrite insert_false_true by done. exact IH.
Qed.

Lemma search_inv_current (N : Z) (xn : list (list Z)) (st : search) (b : bool) (c : Z) :
  search_inv N xn st b c → 0 ≤ c < N.
Proof.
  intros (_ & _ & (m & _ & Hm)%last_index & _ & _ & Hrg & _).
  apply list_elem_of_lookup_2, Hrg in Hm. done.
Qed.

Lemma search_inv_head (N : Z) (xn : list (list Z)) (st : search) (b : bool) (c : Z) :
  search_inv N xn st b c →
  ∃ fi, py_index (path st) 0 = Ok ("X"%string, fi) ∧ head (path st) = Some ("X"%string, fi)
        ∧ 0 ≤ fi < N.
Proof.
  intros (_ & _ & Hlast & Halt & _ & Hrg & _).
  destruct (path st) as [|[ft fi] p] eqn:Hp; [done|].
  pose proof (Halt 0%nat (ft, fi) eq_refl) as Hft. simpl in Hft. subst ft.
  exists fi. split; [done|]. split; [done|].
  apply (Hrg ("X"%string, fi)). left.
Qed.

(** A call of [dfs] either returns: [False] with the search state as it
    was, or [True] with a cycle that extends the path, and then as many
    nested calls were allowed as the rest of the path and the closing
    [is_edge] need; or it raises [RecursionError], and then fewer were
    allowed. *)
Lemma dfs_spec (N : Z) (xn yn : list (list Z)) :
  rows_in_range N xn → transposed N xn yn →
  ∀ (depth : nat) (current_is_x : bool) (current_idx : Z) (st : search),
    search_inv N xn st current_is_x current_idx →
    Z.of_nat (length (path st)) ≤ 2 * N →
    (∃ b st', dfs depth N xn yn current_is_x current_idx st = Ok (b, st')
              ∧ (b = false → st' = st)
              ∧ (b = true → cycle_ok N xn (path st')
                            ∧ path st `prefix_of` path st'
                            ∧ 2 * N - Z.of_nat (length (path st)) + 1 < Z.of_nat depth))
    ∨ (dfs depth N xn yn current_is_x current_idx st = Raise RecursionError
       ∧ Z.of_nat depth ≤ 2 * N - Z.of_nat (length (path st)) + 1).
Proof.
  intros [Hxlen Hxrows] [Hylen Hyrows].
  induction depth as [|depth IH]; intros cx cur st Hinv Hle.
  { right. split; [done|lia]. }
  simpl. pose proof (search_inv_current _ _ _ _ _ Hinv) as Hcur.
  destruct (decide (Z.of_nat (length (path st)) = 2 * N)) as [Hfull|Hnot].
  - destruct (search_inv_head _ _ _ _ _ Hinv) as (fi & -> & Hhead & Hfi). ok_step.
    cbv iota beta.
    rewrite (bool_decide_eq_true_2 ("X"%string = "X"%string)) by done.
    destruct cx; simpl.
    + left. exists false, st. done.
    + destruct depth as [|depth'].
      { right. split; [done|lia]. }
      unfold py_call, is_edge.
      destruct (py_index_range xn fi) as (rw & -> & Hrw); [lia|]. ok_step. ok_step.
      left. eexists _, st. split; [done|]. split; [done|].
      intros Hin%bool_decide_eq_true. split; [|split; [done|lia]].
      destruct Hinv as (_ & _ & Hlast & Halt & Hnd & Hrg & Hch & _).
      do 5 (split; [done|]).
      intros u w Hu Hw. rewrite Hlast in Hu. rewrite Hhead in Hw.
      injection Hu as <-. injection Hw as <-. right. simpl.
      split; [done|]. split; [done|]. split; [done|].
      unfold row. by rewrite Hrw.
  - destruct cx.
    + destruct (py_index_range xn cur) as (rw & -> & Hrw); [lia|]. ok_step.
      apply (dfs_loop_spec N xn _ false cur rw st _ _ Hinv).
      * apply Forall_forall. intros c Hc.
        assert (Hc' : c ∈ row xn cur) by (unfold row; by rewrite Hrw).
        split; [by eapply Hxrows|]. left. simpl. done.
      * intros c st1 Hinv1 Hlen1.
        destruct (IH false c st1 Hinv1) as [(b & st' & H & Hf & Ht)|[H HL]]; [lia| |].
        -- left. exists b, st'. split; [done|]. split; [done|]. intros Hb.
           destruct (Ht Hb) as (? & ? & ?). split; [done|]. split; [done|lia].
        -- right. split; [done|lia].
    + destruct (py_index_range yn cur) as (rw & -> & Hrw); [lia|]. ok_step.
      apply (dfs_loop_spec N xn _ true cur rw st _ _ Hinv).
      * apply Forall_forall. intros c Hc.
        assert (Hc' : c ∈ row yn cur) by (unfold row; by rewrite Hrw).
        apply Hyrows in Hc' as Hedge; [|done]. split; [apply Hedge|].
        right. simpl. done.
      * intros c st1 Hinv1 Hlen1.
        destruct (IH true c st1 Hinv1) as [(b & st' & H & Hf & Ht)|[H HL]]; [lia| |].
        -- left. exists b, st'. split; [done|]. split; [done|]. intros Hb.
           destruct (Ht Hb) as (? & ? & ?). split; [done|]. split; [done|lia].
        -- right. split; [done|lia].
Qed.

(** ** Backtracking: set-up *)

Lemma length_py_range (a b : Z) : length (py_range a b) = Z.to_nat (b - a).
Proof. unfold py_range. by rewrite length_fmap, length_seq. Qed.

Lemma row_replicate (N : nat) (y : Z) : row (replicate N []) y = [].
Proof.
  unfold row. destruct (replicate N [] !! Z.to_nat y) as [rw|] eqn:E; [|done].
  apply lookup_replicate in E as [-> _]. done.
Qed.

Lemma y_neighbors_append_spec (N : Z) (yn : list (list Z)) (y i : Z) :
  Z.of_nat (length yn) = N → 0 ≤ y < N →
  ∃ yn', (old ← py_index yn y ; py_setitem yn y (old ++ [i])) = Ok yn'
         ∧ Z.of_nat (length yn') = N
         ∧ ∀ t : Z * Z, (0 ≤ t.1 ∧ t.2 ∈ row yn' t.1)
                        ↔ (0 ≤ t.1 ∧ t.2 ∈ row yn t.1) ∨ (t.1 = y ∧ t.2 = i).
Proof.
  intros Hlen Hy.
  destruct (py_index_range yn y) as (old & -> & Hold); [lia|]. ok_step.
  rewrite py_setitem_range by lia. eexists. split; [done|].
  split; [by rewrite length_insert|]. intros [y' i']. simpl. unfold row.
  destruct (decide (y' = y)) as [->|Hne].
  - rewrite list_lookup_insert_eq by lia. rewrite Hold. simpl.
    rewrite elem_of_app, list_elem_of_singleton. split.
    + intros [? [?|?]]; auto.
    + intros [[? ?]|[_ ->]]; auto. split; [lia|auto].
  - split.
    + intros [? Hin]. left. split; [done|].
      by rewrite list_lookup_insert_ne in Hin by lia.
    + intros [[? Hin]|[? _]]; [|done]. split; [done|].
      by rewrite list_lookup_insert_ne by lia.
Qed.

Lemma y_neighbors_row_spec (N : Z) (xn yn : list (list Z)) (i : Z) :
  rows_in_range N xn → Z.of_nat (length yn) = N → 0 ≤ i < N →
  ∃ yn', y_neighbors_row xn yn i = Ok yn'
         ∧ Z.of_nat (length yn') = N
         ∧ ∀ t : Z * Z, (0 ≤ t.1 ∧ t.2 ∈ row yn' t.1)
                        ↔ (0 ≤ t.1 ∧ t.2 ∈ row yn t.1)
                          ∨ (t.1 ∈ row xn i ∧ t.2 = i).
Proof.
  intros [Hxlen Hxrows] Hlen Hi. unfold y_neighbors_row.
  destruct (py_index_range xn i) as (rw & -> & Hrw); [lia|]. ok_step.
  assert (Hrow : row xn i = rw) by (unfold row; by rewrite Hrw).
  destruct (foldM_collect_inv
              (λ (st : list (list Z)) (t : Z * Z), 0 ≤ t.1 ∧ t.2 ∈ row st t.1)
              (λ (y : Z) (t : Z * Z), t.1 = y ∧ t.2 = i)
              (λ st, Z.of_nat (length st) = N) (λ y, 0 ≤ y < N)
              (λ yn y, old ← py_index yn y ; py_setitem yn y (old ++ [i])) rw yn)
    as (yn' & -> & Hlen' & Hspec); [|done| |].
  - intros st y Hst Hy. by apply y_neighbors_append_spec.
  - apply Forall_forall. intros y Hy. apply (Hxrows i y Hi). by rewrite Hrow.
  - exists yn'. split; [done|]. split; [done|]. intros t. rewrite Hspec, Hrow.
    split.
    + intros [?|(y & Hy & -> & ->)]; auto.
    + intros [?|[Hy ->]]; auto. right. by exists t.1.
Qed.

Lemma build_y_neighbors_spec (N : Z) (xn : list (list Z)) :
  0 ≤ N → rows_in_range N xn →
  ∃ yn, build_y_neighbors N xn = Ok yn ∧ transposed N xn yn.
Proof.
  intros HN Hrows. unfold build_y_neighbors.
  destruct (foldM_collect_inv
              (λ (st : list (list Z)) (t : Z * Z), 0 ≤ t.1 ∧ t.2 ∈ row st t.1)
              (λ (i : Z) (t : Z * Z), t.1 ∈ row xn i ∧ t.2 = i)
              (λ st, Z.of_nat (length st) = N) (λ i, 0 ≤ i < N)
              (y_neighbors_row xn) (py_range 0 N) (replicate (Z.to_nat N) []))
    as (yn & -> & Hlen & Hspec).
  - intros st i Hst Hi. by apply y_neighbors_row_spec.
  - rewrite length_replicate. lia.
  - apply Forall_forall. intros i Hi%elem_of_py_range. done.
  - exists yn. split; [done|]. split; [done|]. intros y i Hy.
    pose proof (Hspec (y, i)) as H. simpl in H. rewrite row_replicate in H.
    unfold list_edge. split.
    + intros Hin. destruct (proj1 H (conj (proj1 Hy) Hin))
        as [[_ []%elem_of_nil]|(i' & Hi'%elem_of_py_range & ? & ->)]. done.
    + intros [Hi Hin]. apply H. right. exists i. by rewrite elem_of_py_range.
Qed.

Lemma reset_visited_spec (N : Z) (st : search) :
  0 ≤ N →
  Z.of_nat (length (visited_x st)) = N → Z.of_nat (length (visited_y st)) = N →
  ∃ st', reset_visited N st = Ok st'
         ∧ Z.of_nat (length (visited_x st')) = N
         ∧ Z.of_nat (length (visited_y st')) = N
         ∧ ∀ i, 0 ≤ i < N → visited_x st' !! Z.to_nat i = Some false
                            ∧ visited_y st' !! Z.to_nat i = Some false.
Proof.
  intros HN Hx Hy. unfold reset_visited.
  destruct (foldM_py_range
              (λ j st', Z.of_nat (length (visited_x st')) = N
                        ∧ Z.of_nat (length (visited_y st')) = N
                        ∧ ∀ i, 0 ≤ i < j →
                               visited_x st' !! Z.to_nat i = Some false
                               ∧ visited_y st' !! Z.to_nat i = Some false)
              (λ st i, vx ← py_setitem (visited_x st) i false ;
                       vy ← py_setitem (visited_y st) i false ;
                       Ok (mkSearch vx vy (path st)))
              0 N st) as (st' & -> & H); [done| | |by exists st'].
  - split; [done|]. split; [done|]. intros i ?. lia.
  - intros j st1 Hj (Hx1 & Hy1 & Hf).
    rewrite (py_setitem_range (visited_x st1)) by lia. ok_step.
    rewrite (py_setitem_range (visited_y st1)) by lia. ok_step.
    eexists. split; [done|]. simpl. rewrite !length_insert.
    split; [done|]. split; [done|]. intros i Hi.
    destruct (decide (i = j)) as [->|Hne].
    + rewrite !list_lookup_insert_eq by lia. done.
    + rewrite !list_lookup_insert_ne by lia. apply Hf. lia.
Qed.

Lemma search_inv_start (N : Z) (xn : list (list Z)) (vx vy : list bool) (start : Z) :
  Z.of_nat (length vx) = N → Z.of_nat (length vy) = N → 0 ≤ start < N →
  (∀ i, 0 ≤ i < N → vx !! Z.to_nat i = Some false ∧ vy !! Z.to_nat i = Some false) →
  search_inv N xn
    (mkSearch (<[Z.to_nat start := true]> vx) vy ([] ++ [("X"%string, start)]))
    true start.
Proof.
  intros Hx Hy Hs Hf.
  split; [|split; [|split; [|split; [|split; [|split; [|split]]]]]]; simpl.
  - by rewrite length_insert.
  - done.
  - done.
  - intros [|j] a; simpl; [by intros [= <-]|done].
  - apply NoDup_singleton.
  - intros a ->%list_elem_of_singleton. done.
  - intros [|j] a b; simpl; done.
  - intros b i Hi. rewrite list_elem_of_singleton. destruct b; simpl.
    + destruct (decide (i = start)) as [->|Hne].
      * rewrite list_lookup_insert_eq by lia. done.
      * rewrite list_lookup_insert_ne by lia. rewrite (proj1 (Hf i Hi)).
        split; [done|]. intros [= ?]. done.
    + rewrite (proj2 (Hf i Hi)). split; done.
Qed.

Lemma try_starts_spec (N : Z) (xn yn : list (list Z)) (starts : list Z) (st : search)
    (depth : nat) :
  rows_in_range N xn → transposed N xn yn → 1 ≤ N →
  Forall (λ s, 0 ≤ s < N) starts →
  Z.of_nat (length (visited_x st)) = N → Z.of_nat (length (visited_y st)) = N →
  (∃ res, try_starts depth N xn yn starts st = Ok res
          ∧ ∀ c, res = Some c → cycle_ok N xn c ∧ 2 * N < Z.of_nat depth)
  ∨ (try_starts depth N xn yn starts st = Raise RecursionError
     ∧ Z.of_nat depth ≤ 2 * N).
Proof.
  intros Hrows Htr HN Hstarts. revert st.
  induction Hstarts as [|start starts Hs _ IH]; intros st Hx Hy; simpl.
  { left. exists None. done. }
  destruct (reset_visited_spec N st) as (st1 & -> & Hx1 & Hy1 & Hf); [lia|done|done|].
  ok_step. simpl. rewrite py_setitem_range by lia. ok_step.
  pose proof (search_inv_start N xn (visited_x st1) (visited_y st1) start Hx1 Hy1 Hs Hf)
    as Hinv.
  destruct (dfs_spec N xn yn Hrows Htr depth true start _ Hinv)
    as [(b & st' & Hdfs & Hfalse & Htrue)|[Hdfs HL]]; [simpl; lia| |].
  - simpl in Hdfs. rewrite Hdfs. ok_step. destruct b.
    + left. eexists. split; [done|]. intros c [= <-].
      destruct (Htrue eq_refl) as (? & _ & Hd). simpl in Hd. split; [done|lia].
    + rewrite (Hfalse eq_refl). apply IH; simpl; by rewrite ?length_insert.
  - simpl in Hdfs, HL. rewrite Hdfs. right. split; [done|lia].
Qed.

(** ** Backtracking: what a full path visits *)

Lemma full_path_visits (N : Z) (p : list (string * Z)) :
  0 ≤ N → Z.of_nat (length p) = 2 * N →
  alternates p → NoDup p → in_range N p →
  ∀ i, 0 ≤ i < N → ("X"%string, i) ∈ p ∧ ("Y"%string, i) ∈ p.
Proof.
  intros HN Hlen Halt Hnd Hrg.
  set (U := ((λ i, ("X"%string, i)) <$> py_range 0 N)
            ++ ((λ i, ("Y"%string, i)) <$> py_range 0 N)).
  assert (Hsub : ∀ a, a ∈ p → a ∈ U).
  { intros [t i] Ha. pose proof (Hrg _ Ha) as Hi. simpl in Hi.
    apply list_elem_of_lookup_1 in Ha as [j Hj]. apply Halt in Hj. simpl in Hj.
    unfold U. rewrite elem_of_app, !list_elem_of_fmap.
    destruct (Nat.even j); simpl in Hj; subst t; [left|right];
      exists i; (split; [done|]); by apply elem_of_py_range. }
  assert (HU : length U = length p).
  { unfold U. rewrite length_app, !length_fmap, !length_py_range. lia. }
  assert (Hperm : p ≡ₚ U).
  { apply submseteq_length_Permutation; [by apply NoDup_submseteq|lia]. }
  intros i Hi. rewrite Hperm. unfold U. rewrite !elem_of_app, !list_elem_of_fmap.
  split; [left|right]; exists i; (split; [done|]); by apply elem_of_py_range.
Qed.

Lemma joined_mono (E E' : Z → Z → Prop) (a b : string * Z) :
  (∀ i y, E i y → E' i y) → joined E a b → joined E' a b.
Proof. intros H [(? & ? & ?)|(? & ? & ?)]; [left|right]; auto. Qed.

Lemma valid_graph_rows (g : TwoIntervalBipartiteGraph) :
  valid_graph g →
  0 ≤ n g ∧ rows_in_range (n g) (neighbors_x g)
  ∧ ∀ i y, list_edge (n g) (neighbors_x g) i y → graph_edge g i y.
Proof.
  intros ((Hlen & Hrow & Hedge) & Hys & _)%valid_graph_built.
  split; [lia|]. split; [split; [done|]|].
  - intros i y Hi Hy%Hrow; [|done]. apply adjacent_range in Hy. lia.
  - intros i y [Hi Hy%Hrow]; [|done]. apply Hedge. by exists i, y.
Qed.

Lemma cycle_ok_hamiltonian (g : TwoIntervalBipartiteGraph) (c : list (string * Z)) :
  valid_graph g → cycle_ok (n g) (neighbors_x g) c → hamiltonian_cycle g c.
Proof.
  intros (HN & _ & Hedge)%valid_graph_rows (Hlen & Halt & Hnd & Hrg & Hch & Hcl).
  split; [done|]. split; [done|]. split; [done|].
  split; [by apply full_path_visits|]. split.
  - intros j a b Ha Hb. eapply joined_mono; [exact Hedge|]. by eapply Hch.
  - intros a b Ha Hb. eapply joined_mono; [exact Hedge|]. by eapply Hcl.
Qed.

Lemma hamiltonian_cycle_nil (g : TwoIntervalBipartiteGraph) :
  n g = 0 → hamiltonian_cycle g [].
Proof.
  intros H0. split; [simpl; lia|]. split; [by intros j a|].
  split; [constructor|]. split; [intros i; lia|]. split.
  - by intros j a b.
  - by intros a b.
Qed.

(** [find_cycle()] either returns, and then a sequence it returns is a
    Hamiltonian cycle, found with more than [2n] nested calls allowed; or it
    raises [RecursionError], and then at most [2n] nested calls were
    allowed. *)
Lemma find_cycle_spec (g : TwoIntervalBipartiteGraph) (depth : nat) :
  valid_graph g →
  (∃ res, find_cycle depth g = Ok res
          ∧ ∀ c, res = Some c → hamiltonian_cycle g c
                                ∧ (n g ≠ 0 → 2 * n g < Z.of_nat depth))
  ∨ (find_cycle depth g = Raise RecursionError ∧ Z.of_nat depth ≤ 2 * n g).
Proof.
  intros Hv. unfold find_cycle. destruct (decide (n g = 0)) as [H0|H0].
  { left. eexists. split; [done|]. intros c [= <-].
    split; [by apply hamiltonian_cycle_nil|done]. }
  destruct (valid_graph_rows g Hv) as (HN & Hrows & _).
  destruct (build_y_neighbors_spec (n g) (neighbors_x g) HN Hrows) as (yn & -> & Htr).
  ok_step.
  destruct (try_starts_spec (n g) (neighbors_x g) yn (py_range 0 (n g))
              (mkSearch (replicate (Z.to_nat (n g)) false)
                        (replicate (Z.to_nat (n g)) false) []) depth Hrows Htr)
    as [(res & -> & Hres)|[-> HL]].
  - lia.
  - apply Forall_forall. intros s Hs%elem_of_py_range. done.
  - simpl. rewrite length_replicate. lia.
  - simpl. rewrite length_replicate. lia.
  - left. exists res. split; [done|]. intros c Hc.
    destruct (Hres c Hc) as [Hok Hd]. split; [by apply cycle_ok_hamiltonian|done].
  - by right.
Qed.

(** ** Backtracking: more nested calls allowed *)

Lemma dfs_unfold (depth : nat) (N : Z) (xn yn : list (list Z)) (cx : bool) (cur : Z)
    (st : search) :
  dfs (S depth) N xn yn cx cur st
  = if decide (Z.of_nat (length (path st)) = 2 * N) then
      '(first_type, first_idx) ← py_index (path st) 0 ;
      if bool_decide (cx = bool_decide (first_type = "X"%string))
      then Ok (false, st)
      else if cx then b ← py_call depth (is_edge xn cur first_idx) ; Ok (b, st)
      else b ← py_call depth (is_edge xn first_idx cur) ; Ok (b, st)
    else if cx then
      row ← py_index xn cur ; dfs_loop (dfs depth N xn yn false) false row st
    else
      row ← py_index yn cur ; dfs_loop (dfs depth N xn yn true) true row st.
Proof. reflexivity. Qed.

Lemma dfs_loop_mono (rec1 rec2 : Z → search → result (bool * search)) (to_x : bool)
    (cands : list Z) :
  (∀ c st r, rec1 c st = Ok r → rec2 c st = Ok r) →
  ∀ st r, dfs_loop rec1 to_x cands st = Ok r → dfs_loop rec2 to_x cands st = Ok r.
Proof.
  intros Hrec. induction cands as [|c cands IH]; intros st r; simpl; [done|].
  intros H. apply bind_Ok in H as (seen & -> & H). ok_step.
  destruct seen; [by apply IH|].
  apply bind_Ok in H as (v & -> & H). ok_step.
  apply bind_Ok in H as ([found st2] & Hr & H). rewrite (Hrec _ _ _ Hr). ok_step.
  destruct found; [done|].
  apply bind_Ok in H as (p & -> & H). ok_step.
  apply bind_Ok in H as (v' & -> & H). ok_step. by apply IH.
Qed.

(** A result that [dfs] returns does not change when more nested calls are
    allowed. *)
Lemma dfs_mono (N : Z) (xn yn : list (list Z)) :
  ∀ (depth : nat) (cx : bool) (cur : Z) (st : search) r,
    dfs depth N xn yn cx cur st = Ok r → dfs (S depth) N xn yn cx cur st = Ok r.
Proof.
  induction depth as [|d IH]; intros cx cur st r; [done|].
  rewrite (dfs_unfold d), (dfs_unfold (S d)).
  destruct (decide (Z.of_nat (length (path st)) = 2 * N)) as [Hfull|Hnot].
  - intros H. apply bind_Ok in H as ([ft fi] & -> & H). ok_step. revert H.
    cbv iota beta.
    destruct (bool_decide (cx = bool_decide (ft = "X"%string))); [done|].
    destruct cx; (destruct d as [|d']; [done|exact id]).
  - destruct cx; intros H; apply bind_Ok in H as (rw & -> & H); ok_step; revert H;
      apply dfs_loop_mono; intros c st1 r1; apply IH.
Qed.

Lemma try_starts_mono (N : Z) (xn yn : list (list Z)) (starts : list Z) :
  ∀ (depth : nat) (st : search) r,
    try_starts depth N xn yn starts st = Ok r →
    try_starts (S depth) N xn yn starts st = Ok r.
Proof.
  induction starts as [|start starts IH]; intros depth st r; [done|].
  cbn [try_starts]. intros H.
  apply bind_Ok in H as (st1 & -> & H). ok_step.
  apply bind_Ok in H as (vx & -> & H). ok_step.
  apply bind_Ok in H as ([found st2] & Hd & H).
  rewrite (dfs_mono _ _ _ _ _ _ _ _ Hd). ok_step.
  destruct found; [done|]. by apply IH.
Qed.

Lemma find_cycle_mono (g : TwoIntervalBipartiteGraph) (depth more : nat) r :
  find_cycle depth g = Ok r → find_cycle (depth + more) g = Ok r.
Proof.
  intros H. induction more as [|more IH].
  { by rewrite Nat.add_0_r. }
  rewrite Nat.add_succ_r. revert IH. unfold find_cycle.
  destruct (decide (n g = 0)); [done|].
  intros IH. apply bind_Ok in IH as (yn & -> & IH). ok_step.
  by apply try_starts_mono.
Qed.

(** C2. On a constructed graph, whatever number [depth] of nested calls the
    interpreter still allows: [find_cycle()] either returns or raises
    [RecursionError], and it returns when more than [2n] nested calls are
    allowed; whenever it returns a sequence rather than [None], the sequence
    has length [2n], alternates the tags ["X"] and ["Y"], contains every
    X-index and every Y-index exactly once, every two consecutive entries
    are an edge of the graph and so are the last and the first; and for
    [n = 0] it returns the empty sequence. *)
Theorem find_cycle_sound (g : TwoIntervalBipartiteGraph) (depth : nat) :
  valid_graph g →
  (((∃ res, find_cycle depth g = Ok res) ∨ find_cycle depth g = Raise RecursionError)
   ∧ (2 * n g < Z.of_nat depth → ∃ res, find_cycle depth g = Ok res))
  ∧ (∀ c, find_cycle depth g = Ok (Some c) → hamiltonian_cycle g c)
  ∧ (n g = 0 → find_cycle depth g = Ok (Some [])).
Proof.
  intros Hv. split; [|split].
  - destruct (find_cycle_spec g depth Hv) as [(res & Hres & _)|[Hr HL]].
    + split; [left|]; by exists res.
    + split; [by right|]. intros Hd. lia.
  - intros c Hfc.
    destruct (find_cycle_spec g depth Hv) as [(res & Hres & Hc)|[Hr _]]; [|congruence].
    rewrite Hfc in Hres. injection Hres as <-. by apply (Hc c).
  - intros H0. unfold find_cycle. by destruct (decide _).
Qed.

Lemma find_cycle_sound_witness :
  ∃ c, find_cycle 7 hamiltonian_n3_graph = Ok (Some c)
       ∧ hamiltonian_cycle hamiltonian_n3_graph c.
Proof.
  destruct (find_cycle_sound hamiltonian_n3_graph 7 hamiltonian_n3_graph_valid)
    as (_ & Hc & _).
  eexists. split; [vm_compute; reflexivity|]. apply Hc. vm_compute. reflexivity.
Defined.

(** ** The two graphs of the test suite *)

(** C5. On the graph [Y0 = [0,1]], [Y1 = [1,2]], [Y2 = [0,0] ∪ [2,2]] the
    constructor succeeds, [run()] returns [accepted = True], and
    [find_cycle()], whenever the interpreter allows the seven nested calls
    it makes (six of [dfs], one of [is_edge]) or more, returns the sequence
    X0 Y0 X1 Y1 X2 Y2, which has length 6 and is an alternating Hamiltonian
    cycle of the graph (in particular its last vertex is joined to its
    first). *)
Theorem hamiltonian_n3_accepts_and_finds_cycle :
  build_hamiltonian_n3_graph = Ok hamiltonian_n3_graph
  ∧ (∀ st0, ∃ stats st, run hamiltonian_n3_graph st0 = Ok (stats, st)
                        ∧ accepted stats = true)
  ∧ ∀ more : nat,
      ∃ c, find_cycle (7 + more) hamiltonian_n3_graph = Ok (Some c)
           ∧ c = [("X"%string, 0); ("Y"%string, 0); ("X"%string, 1);
                  ("Y"%string, 1); ("X"%string, 2); ("Y"%string, 2)]
           ∧ length c = 6%nat
           ∧ hamiltonian_cycle hamiltonian_n3_graph c.
Proof.
  split; [exact build_hamiltonian_n3_graph_Ok|]. split.
  - intros st0. rewrite (run_clears _ st0 solver_empty).
    eexists _, _. split; [vm_compute; reflexivity|]. reflexivity.
  - intros more. eexists. split.
    { apply (find_cycle_mono _ 7 more). vm_compute. reflexivity. }
    split; [reflexivity|]. split; [reflexivity|].
    destruct (find_cycle_spec hamiltonian_n3_graph 7 hamiltonian_n3_graph_valid)
      as [(res & Hres & Hc)|[Hr _]]; [|by vm_compute in Hr].
    apply Hc. revert Hres. vm_compute. by intros [= <-].
Qed.

(** C6. On the graph [Y0 = [0,1]], [Y1 = [1,2]], [Y2 = [0,0]] (second interval
    empty) the constructor succeeds, [run()] returns [accepted = False] and
    [find_cycle()], whenever the interpreter allows seven nested calls or
    more, returns [None]. *)
Theorem non_hamiltonian_n3_rejects :
  build_non_hamiltonian_n3_graph = Ok non_hamiltonian_n3_graph
  ∧ (∀ st0, ∃ stats st, run non_hamiltonian_n3_graph st0 = Ok (stats, st)
                        ∧ accepted stats = false)
  ∧ ∀ more : nat, find_cycle (7 + more) non_hamiltonian_n3_graph = Ok None.
Proof.
  split; [exact build_non_hamiltonian_n3_graph_Ok|]. split.
  - intros st0. rewrite (run_clears _ st0 solver_empty).
    eexists _, _. split; [vm_compute; reflexivity|]. reflexivity.
  - intros more. apply (find_cycle_mono _ 7 more). vm_compute. reflexivity.
Qed.

(* ================================================================== *)
(** * Further properties *)

(** ** Intervals *)

(** X1. For an interval whose bounds are in order (and for an empty one),
    [contains(i)] holds exactly when [i] is the left endpoint, the right
    endpoint or strictly inside; an empty interval contains nothing and has
    no endpoint. *)
Theorem contains_endpoint_or_inside (it : TwoInterval) (i : Z) :
  bounds_ordered it →
  contains it i
  = is_left_endpoint it i || is_right_endpoint it i || strictly_inside it i
  ∧ (is_empty it = true →
     contains it i = false ∧ is_left_endpoint it i = false
     ∧ is_right_endpoint it i = false ∧ strictly_inside it i = false).
Proof.
  intros Hord. unfold bounds_ordered in Hord.
  unfold contains, is_left_endpoint, is_right_endpoint, strictly_inside, is_empty.
  destruct (l it) as [a|], (r it) as [b|]; simpl; try done.
  split; [|done]. specialize (Hord a b eq_refl eq_refl).
  replace (bool_decide (Some a = Some i)) with (bool_decide (a = i))
    by (apply bool_decide_ext; split; congruence).
  replace (bool_decide (Some b = Some i)) with (bool_decide (b = i))
    by (apply bool_decide_ext; split; congruence).
  repeat case_bool_decide; simpl; try done; lia.
Qed.

Lemma contains_endpoint_or_inside_witness :
  contains (iv 2 5) 5
  = is_left_endpoint (iv 2 5) 5 || is_right_endpoint (iv 2 5) 5
    || strictly_inside (iv 2 5) 5.
Proof.
  assert (Hord : bounds_ordered (iv 2 5)).
  { intros a b [= <-] [= <-]. lia. }
  exact (proj1 (contains_endpoint_or_inside (iv 2 5) 5 Hord)).
Defined.

(** ** The stack-order test *)

Lemma py_index_Ok_iff {A : Type} (xs : list A) (y : Z) :
  (∃ a, py_index xs y = Ok a) ↔ index_ok (Z.of_nat (length xs)) y.
Proof.
  unfold py_index, index_ok. destruct (decide (y < 0)).
  - destruct (decide _) as [Hj|Hj].
    + destruct (lookup_lt_is_Some_2 xs (Z.to_nat (y + Z.of_nat (length xs)))) as [a Ha];
        [lia|]. rewrite Ha. split; [lia|eauto].
    + split; [by intros [? ?]|lia].
  - destruct (decide _) as [Hj|Hj].
    + destruct (lookup_lt_is_Some_2 xs (Z.to_nat y)) as [a Ha]; [lia|].
      rewrite Ha. split; [lia|eauto].
    + split; [by intros [? ?]|lia].
Qed.

Lemma py_index_Raise {A : Type} (xs : list A) (y : Z) (e : exn) :
  py_index xs y = Raise e → e = IndexError.
Proof.
  unfold py_index. destruct (decide _); [|by intros [= <-]].
  destruct (_ !! _); [done|by intros [= <-]].
Qed.

(** X2. [check_stack_order] returns exactly when both indices are positions
    of [y_vertices] (negative ones counting from the end, as list indexing
    does); otherwise it raises [IndexError], and it raises nothing else.  It
    returns [True] exactly when the second interval of the first vertex and
    the first interval of the second vertex are both non-empty and the
    former starts to the right of where the latter ends. *)
Theorem check_stack_order_behaviour (g : TwoIntervalBipartiteGraph) (y1 y2 : Z) :
  ((∃ b, check_stack_order g y1 y2 = Ok b)
   ↔ index_ok (Z.of_nat (length (y_vertices g))) y1
     ∧ index_ok (Z.of_nat (length (y_vertices g))) y2)
  ∧ (∀ e, check_stack_order g y1 y2 = Raise e → e = IndexError)
  ∧ (check_stack_order g y1 y2 = Ok true
     ↔ ∃ yv1 yv2 a a' b b',
         py_index (y_vertices g) y1 = Ok yv1 ∧ py_index (y_vertices g) y2 = Ok yv2
         ∧ l (second yv1) = Some a ∧ r (second yv1) = Some a'
         ∧ l (first yv2) = Some b' ∧ r (first yv2) = Some b ∧ b < a).
Proof.
  unfold check_stack_order.
  pose proof (py_index_Ok_iff (y_vertices g) y1) as H1.
  pose proof (py_index_Ok_iff (y_vertices g) y2) as H2.
  pose proof (py_index_Raise (y_vertices g) y1) as R1.
  pose proof (py_index_Raise (y_vertices g) y2) as R2.
  destruct (py_index (y_vertices g) y1) as [yv1|e1]; simpl.
  2:{ split; [|split].
      - split; [by intros [? ?]|]. intros [[? ?]%H1 _]. done.
      - intros e [= <-]. by apply R1.
      - split; [done|]. intros (? & ? & ? & ? & ? & ? & ? & _). done. }
  destruct (py_index (y_vertices g) y2) as [yv2|e2]; simpl.
  2:{ split; [|split].
      - split; [by intros [? ?]|]. intros [_ [? ?]%H2]. done.
      - intros e [= <-]. by apply R2.
      - split; [done|]. intros (? & ? & ? & ? & ? & ? & _ & ? & _). done. }
  unfold is_empty.
  destruct (l (second yv1)) as [a|] eqn:E1, (r (second yv1)) as [a'|] eqn:E2,
           (l (first yv2)) as [b'|] eqn:E3, (r (first yv2)) as [b|] eqn:E4; simpl.
  all: split; [split; [intros _; split; [apply H1|apply H2]; eauto|eauto]|].
  all: split; [done|].
  all: try (split; [done|];
            intros (? & ? & ? & ? & ? & ? & [= <-] & [= <-] & ? & ? & ? & ? & _);
            congruence).
  split.
  - intros [= Hb%bool_decide_eq_true]. by exists yv1, yv2, a, a', b, b'.
  - intros (? & ? & ? & ? & ? & ? & [= <-] & [= <-] & Ha & _ & _ & Hb & ?).
    rewrite E1 in Ha. rewrite E4 in Hb. injection Ha as <-. injection Hb as <-.
    by rewrite bool_decide_eq_true_2.
Qed.

(** ** Events and adjacency on a constructed graph *)

Lemma valid_graph_vertex (g : TwoIntervalBipartiteGraph) (j : nat) (yv : YVertex) :
  valid_graph g → y_vertices g !! j = Some yv → yvertex_ok (n g) yv = true.
Proof.
  intros (_ & _ & Hall)%valid_graph_built Hj.
  rewrite forallb_forall in Hall. apply Hall, list_elem_of_In.
  by eapply list_elem_of_lookup_2.
Qed.

Lemma interval_ok_bounds (n : Z) (it : TwoInterval) (a b : Z) :
  interval_ok n it = true → l it = Some a → r it = Some b → 0 ≤ a ∧ a ≤ b ∧ b < n.
Proof.
  unfold interval_ok, is_empty. intros H Hl Hr. rewrite Hl, Hr in H. simpl in H.
  by apply bool_decide_eq_true in H.
Qed.

Lemma yvertex_ok_inv (n : Z) (yv : YVertex) :
  yvertex_ok n yv = true →
  interval_ok n (first yv) = true ∧ interval_ok n (second yv) = true
  ∧ ordered_ok yv = true.
Proof. unfold yvertex_ok. rewrite !andb_true_iff. tauto. Qed.

Lemma ordered_ok_gap (yv : YVertex) (a1 b1 a2 b2 : Z) :
  ordered_ok yv = true →
  l (first yv) = Some a1 → r (first yv) = Some b1 →
  l (second yv) = Some a2 → r (second yv) = Some b2 → b1 < a2.
Proof.
  unfold ordered_ok, is_empty. intros H L1 R1 L2 R2.
  rewrite L1, R1, L2, R2 in H. simpl in H.
  by apply bool_decide_eq_true in H.
Qed.

Lemma endpoint_bounds (it : TwoInterval) (i : Z) :
  is_left_endpoint it i = true ∨ is_right_endpoint it i = true →
  ∃ a b, l it = Some a ∧ r it = Some b ∧ (i = a ∨ i = b).
Proof.
  unfold is_left_endpoint, is_right_endpoint, is_empty.
  destruct (l it) as [a|], (r it) as [b|]; simpl; try (intros [?|?]; done).
  intros [[= ->]%bool_decide_eq_true|[= ->]%bool_decide_eq_true]; eauto 6.
Qed.

Lemma endpoint_contains (n : Z) (it : TwoInterval) (i : Z) :
  interval_ok n it = true →
  is_left_endpoint it i = true ∨ is_right_endpoint it i = true →
  contains it i = true.
Proof.
  intros Hok (a & b & Hl & Hr & Hi)%endpoint_bounds.
  pose proof (interval_ok_bounds n it a b Hok Hl Hr).
  apply contains_spec. exists a, b. split; [done|]. split; [done|]. lia.
Qed.

Lemma contains_range (n : Z) (it : TwoInterval) (i : Z) :
  interval_ok n it = true → contains it i = true → 0 ≤ i < n.
Proof.
  intros Hok (a & b & Hl & Hr & Hi)%contains_spec.
  pose proof (interval_ok_bounds n it a b Hok Hl Hr). lia.
Qed.

Lemma adjacent_index_range (g : TwoIntervalBipartiteGraph) (i y : Z) :
  valid_graph g → adjacent (y_vertices g) i y → 0 ≤ i < n g.
Proof.
  intros Hv (_ & yv & Hl & Hc).
  apply (valid_graph_vertex g _ yv Hv), yvertex_ok_inv in Hl as (H1 & H2 & _).
  destruct Hc as [Hc|Hc].
  - exact (contains_range _ _ _ H1 Hc).
  - exact (contains_range _ _ _ H2 Hc).
Qed.

(** An index in an event set at [i] is adjacent to [i]. *)
Lemma event_adjacent (g : TwoIntervalBipartiteGraph) (i y : Z) :
  valid_graph g →
  y ∈ ev1 (classify_events_at g i) ∨ y ∈ ev2 (classify_events_at g i)
  ∨ y ∈ ev3 (classify_events_at g i) ∨ y ∈ ev4 (classify_events_at g i) →
  adjacent (y_vertices g) i y.
Proof.
  intros Hv Hev. destruct (classify_events_spec g i y) as (H1 & H2 & H3 & H4).
  destruct Hev as [H|[H|[H|H]]];
    [apply H1 in H|apply H2 in H|apply H3 in H|apply H4 in H];
    destruct H as (Hy & yv & Hl & He); (split; [done|]); exists yv; (split; [done|]);
    apply (valid_graph_vertex g _ yv Hv), yvertex_ok_inv in Hl as (Hf & Hs & _).
  - left. apply (endpoint_contains (n g)); auto.
  - left. apply (endpoint_contains (n g)); auto.
  - right. apply (endpoint_contains (n g)); auto.
  - right. apply (endpoint_contains (n g)); auto.
Qed.

(** X3. On a constructed graph every Y-index in one of the four event sets
    at [i] is a neighbour of X-index [i] (so [i] is an X-index and
    [neighbors_of_x(i)] lists it), and no Y-index is at once in an event set
    of its first interval (E1 or E2) and in one of its second interval (E3
    or E4). *)
Theorem events_of_constructed_graph (g : TwoIntervalBipartiteGraph) (i y : Z) :
  valid_graph g →
  (y ∈ ev1 (classify_events_at g i) ∨ y ∈ ev2 (classify_events_at g i)
   ∨ y ∈ ev3 (classify_events_at g i) ∨ y ∈ ev4 (classify_events_at g i) →
   0 ≤ i < n g ∧ ∃ vn, neighbors_of_x g i = Ok vn ∧ y ∈ vn)
  ∧ ¬ ((y ∈ ev1 (classify_events_at g i) ∨ y ∈ ev2 (classify_events_at g i))
       ∧ (y ∈ ev3 (classify_events_at g i) ∨ y ∈ ev4 (classify_events_at g i))).
Proof.
  intros Hv. split.
  - intros Hadj%event_adjacent; [|done].
    pose proof (adjacent_index_range g i y Hv Hadj) as Hi. split; [done|].
    destruct (valid_graph_built g Hv) as (Hfb & _).
    destruct (neighbors_of_x_total g i Hfb) as (vn & Hvn & Hin).
    exists vn. split; [done|]. by apply Hin.
  - destruct (classify_events_spec g i y) as (H1 & H2 & H3 & H4).
    intros [Hfirst Hsecond].
    assert (∃ yv, y_vertices g !! Z.to_nat y = Some yv
                  ∧ (is_left_endpoint (first yv) i = true
                     ∨ is_right_endpoint (first yv) i = true)) as (yv & Hl & Hf).
    { destruct Hfirst as [H|H]; [apply H1 in H|apply H2 in H];
        destruct H as (_ & yv & ? & ?); eauto. }
    assert (is_left_endpoint (second yv) i = true
            ∨ is_right_endpoint (second yv) i = true) as Hs.
    { destruct Hsecond as [H|H]; [apply H3 in H|apply H4 in H];
        destruct H as (_ & yv' & Hl' & ?); rewrite Hl in Hl'; injection Hl' as <-; auto. }
    apply (valid_graph_vertex g _ yv Hv), yvertex_ok_inv in Hl as (Hf1 & Hs1 & Hord).
    apply endpoint_bounds in Hf as (a1 & b1 & Hl1 & Hr1 & Hi1).
    apply endpoint_bounds in Hs as (a2 & b2 & Hl2 & Hr2 & Hi2).
    pose proof (interval_ok_bounds _ _ _ _ Hf1 Hl1 Hr1).
    pose proof (interval_ok_bounds _ _ _ _ Hs1 Hl2 Hr2).
    pose proof (ordered_ok_gap yv a1 b1 a2 b2 Hord Hl1 Hr1 Hl2 Hr2). lia.
Qed.

Lemma events_of_constructed_graph_witness :
  ∃ vn, neighbors_of_x hamiltonian_n3_graph 2 = Ok vn ∧ 2 ∈ vn.
Proof.
  destruct (events_of_constructed_graph hamiltonian_n3_graph 2 2
              hamiltonian_n3_graph_valid) as [Hin _].
  destruct Hin as (_ & vn & Hvn & H2).
  { right. right. left. vm_compute. reflexivity. }
  by exists vn.
Defined.

(** ** Convexity *)

Lemma nonempty_bounds (n : Z) (it : TwoInterval) :
  interval_ok n it = true → is_empty it = false →
  ∃ a b, l it = Some a ∧ r it = Some b ∧ a ≤ b
         ∧ contains it b = true ∧ ∀ j, contains it j = true → j ≤ b.
Proof.
  intros Hok He. unfold is_empty in He.
  destruct (l it) as [a|] eqn:Hl, (r it) as [b|] eqn:Hr; try done.
  pose proof (interval_ok_bounds n it a b Hok Hl Hr).
  exists a, b. split; [done|]. split; [done|]. split; [lia|]. split.
  - apply contains_spec. exists a, b. rewrite Hl, Hr. repeat split; lia.
  - intros j (a' & b' & Ha & Hb & ?)%contains_spec.
    rewrite Hl in Ha. rewrite Hr in Hb. injection Ha as <-. injection Hb as <-. lia.
Qed.

Lemma empty_contains (it : TwoInterval) (j : Z) :
  is_empty it = true → contains it j = false.
Proof. unfold contains. by intros ->. Qed.

(** X4. On a constructed graph, for a Y-index [y], [is_convex_at(y, i)]
    returns, and returns [True] exactly when [y] has a neighbour and every
    neighbour of [y] is an X-index at most [i]. *)
Theorem is_convex_at_neighbours (g : TwoIntervalBipartiteGraph) (y i : Z) :
  valid_graph g → 0 ≤ y < n g →
  ∃ b, is_convex_at g y i = Ok b
       ∧ (b = true ↔ (∃ j, adjacent (y_vertices g) j y)
                     ∧ ∀ j, adjacent (y_vertices g) j y → j ≤ i).
Proof.
  intros Hv Hy. destruct (valid_graph_built g Hv) as (_ & Hlen & _).
  unfold is_convex_at.
  destruct (py_index_range (y_vertices g) y) as (yv & -> & Hyv); [lia|]. ok_step.
  pose proof (valid_graph_vertex g _ yv Hv Hyv) as Hok.
  apply yvertex_ok_inv in Hok as (Hf & Hs & Hord).
  assert (Hadj : ∀ j, adjacent (y_vertices g) j y
                      ↔ contains (first yv) j = true ∨ contains (second yv) j = true).
  { intros j. unfold adjacent. split.
    - intros (_ & yv' & Hl' & Hc). rewrite Hyv in Hl'. by injection Hl' as <-.
    - intros Hc. split; [lia|]. by exists yv. }
  destruct (is_empty (first yv)) eqn:E1, (is_empty (second yv)) eqn:E2.
  - exists false. split; [done|]. split; [done|]. intros [[j Hj%Hadj] _].
    rewrite !empty_contains in Hj by done. by destruct Hj.
  - destruct (nonempty_bounds _ _ Hs E2) as (a2 & b2 & _ & -> & _ & Hc2 & Hmax2).
    simpl. eexists. split; [done|]. rewrite bool_decide_eq_true. split.
    + intros Hle. split; [exists b2; apply Hadj; auto|].
      intros j [Hj|Hj]%Hadj; [by rewrite empty_contains in Hj|].
      apply Hmax2 in Hj. lia.
    + intros [_ Hall]. apply Hall, Hadj. auto.
  - destruct (nonempty_bounds _ _ Hf E1) as (a1 & b1 & _ & -> & _ & Hc1 & Hmax1).
    simpl. eexists. split; [done|]. rewrite bool_decide_eq_true. split.
    + intros Hle. split; [exists b1; apply Hadj; auto|].
      intros j [Hj|Hj]%Hadj; [|by rewrite empty_contains in Hj].
      apply Hmax1 in Hj. lia.
    + intros [_ Hall]. apply Hall, Hadj. auto.
  - destruct (nonempty_bounds _ _ Hf E1) as (a1 & b1 & _ & -> & _ & Hc1 & Hmax1).
    destruct (nonempty_bounds _ _ Hs E2) as (a2 & b2 & _ & -> & _ & Hc2 & Hmax2).
    simpl. eexists. split; [done|]. rewrite bool_decide_eq_true. split.
    + intros Hle. split; [exists b1; apply Hadj; auto|].
      intros j [Hj|Hj]%Hadj; [apply Hmax1 in Hj|apply Hmax2 in Hj]; lia.
    + intros [_ Hall].
      assert (b1 ≤ i) by (apply Hall, Hadj; auto).
      assert (b2 ≤ i) by (apply Hall, Hadj; auto). lia.
Qed.

Lemma is_convex_at_neighbours_witness :
  is_convex_at hamiltonian_n3_graph 0 1 = Ok true.
Proof.
  assert (Hy : 0 ≤ 0 < n hamiltonian_n3_graph) by (simpl; lia).
  destruct (is_convex_at_neighbours hamiltonian_n3_graph 0 1
              hamiltonian_n3_graph_valid Hy) as (b & Hb & _).
  rewrite Hb. revert Hb. vm_compute. by intros [= <-].
Defined.

(** ** The adjacency lists, row by row *)

Lemma filter_ext_in {A : Type} (P Q : A → Prop)
    `{∀ x, Decision (P x)} `{∀ x, Decision (Q x)} (xs : list A) :
  (∀ x, x ∈ xs → P x ↔ Q x) → filter P xs = filter Q xs.
Proof.
  induction xs as [|x xs IH]; intros Hext; [done|].
  rewrite !filter_cons. rewrite IH by (intros; apply Hext; by right).
  destruct (decide (P x)) as [HP|HP], (decide (Q x)) as [HQ|HQ]; try done.
  - destruct HQ. apply Hext; [left|done].
  - destruct HP. apply Hext; [left|done].
Qed.

Lemma StronglySorted_filter {A : Type} (R : relation A) (P : A → Prop)
    `{∀ x, Decision (P x)} (xs : list A) :
  StronglySorted R xs → StronglySorted R (filter P xs).
Proof.
  induction 1 as [|x xs Hs IH Hall]; [constructor|].
  rewrite filter_cons. destruct (decide (P x)); [|done].
  constructor; [done|]. apply Forall_forall. intros y [_ Hy]%list_elem_of_filter.
  by apply (proj1 (Forall_forall _ _) Hall).
Qed.

Lemma StronglySorted_py_range (a b : Z) : StronglySorted Z.lt (py_range a b).
Proof.
  unfold py_range. generalize (Z.to_nat (b - a)) as m. generalize 0%nat as s.
  intros s m. revert s. induction m as [|m IH]; intros s; simpl; constructor.
  - apply IH.
  - apply Forall_forall. intros x (j & -> & Hj%elem_of_seq)%list_elem_of_fmap. lia.
Qed.

Lemma NoDup_py_range (a b : Z) : NoDup (py_range a b).
Proof.
  unfold py_range. apply NoDup_fmap_2; [|apply NoDup_seq].
  intros x y ?. lia.
Qed.

Lemma appends_refl (P : Z → bool) (y : Z) (nx : list (list Z)) :
  (∀ i, P i = false) → appends P y nx nx.
Proof. intros HP. split; [done|]. intros i _. by rewrite HP, app_nil_r. Qed.

Lemma appends_trans (P Q R : Z → bool) (y : Z) (nx1 nx2 nx3 : list (list Z)) :
  appends P y nx1 nx2 → appends Q y nx2 nx3 →
  (∀ i, ¬ (P i = true ∧ Q i = true)) → (∀ i, R i = P i || Q i) →
  appends R y nx1 nx3.
Proof.
  intros [Hl1 Hr1] [Hl2 Hr2] Hdisj HR. split; [congruence|]. intros i Hi.
  rewrite Hr2, Hr1, HR by done. specialize (Hdisj i).
  destruct (P i), (Q i); simpl; rewrite <- ?app_assoc, ?app_nil_r; try done.
  destruct Hdisj. done.
Qed.

Lemma add_edge_appends (y_idx : Z) st (i : Z) :
  0 ≤ i < Z.of_nat (length st.1) →
  ∃ st', add_edge y_idx st i = Ok st'
         ∧ appends (λ i', bool_decide (i' = i)) y_idx st.1 st'.1.
Proof.
  intros Hi. unfold add_edge.
  destruct (py_index_range st.1 i Hi) as (rw & -> & Hrw). ok_step.
  rewrite py_setitem_range by done. ok_step. eexists. split; [done|]. simpl.
  split; [by rewrite length_insert|]. intros i' Hi'. unfold row.
  case_bool_decide as Heq.
  - subst i'. rewrite list_lookup_insert_eq by lia. by rewrite Hrw.
  - rewrite list_lookup_insert_ne by lia. by rewrite app_nil_r.
Qed.

Lemma add_edges_appends (y_idx : Z) (idxs : list Z) st :
  Forall (λ i, 0 ≤ i < Z.of_nat (length st.1)) idxs → NoDup idxs →
  ∃ st', foldM (add_edge y_idx) idxs st = Ok st'
         ∧ appends (λ i', bool_decide (i' ∈ idxs)) y_idx st.1 st'.1.
Proof.
  revert st. induction idxs as [|i idxs IH]; intros st Hall Hnd; simpl.
  - exists st. split; [done|]. apply appends_refl. intros i.
    first [done | apply bool_decide_eq_false, not_elem_of_nil].
  - apply Forall_cons in Hall as [Hi Hall]. apply NoDup_cons in Hnd as [Hni Hnd].
    destruct (add_edge_appends y_idx st i Hi) as (st1 & -> & Ha1). ok_step.
    destruct (IH st1) as (st2 & -> & Ha2); [|done|].
    { destruct Ha1 as [Hlen _]. by rewrite Hlen. }
    exists st2. split; [done|]. eapply appends_trans; [exact Ha1|exact Ha2| |].
    + intros i' [->%bool_decide_eq_true Hin%bool_decide_eq_true]. done.
    + intros i'. simpl.
      rewrite (bool_decide_ext (i' ∈ i :: idxs) (i' = i ∨ i' ∈ idxs))
        by apply elem_of_cons.
      apply bool_decide_or.
Qed.

Lemma add_interval_appends (n y_idx : Z) (it : TwoInterval) st :
  interval_ok n it = true → Z.of_nat (length st.1) = n →
  ∃ st', add_interval y_idx st it = Ok st'
         ∧ appends (contains it) y_idx st.1 st'.1.
Proof.
  intros Hok Hlen. unfold add_interval.
  destruct (is_empty it) eqn:Hemp.
  - exists st. split; [done|]. apply appends_refl. intros i. by apply empty_contains.
  - destruct (nonempty_bounds n it Hok Hemp) as (a & b & Hl & Hr & Hab & _).
    rewrite Hl, Hr. pose proof (interval_ok_bounds n it a b Hok Hl Hr).
    destruct (add_edges_appends y_idx (py_range a (b + 1)) st) as (st' & -> & Ha).
    { apply Forall_forall. intros i Hi%elem_of_py_range. lia. }
    { apply NoDup_py_range. }
    exists st'. split; [done|]. destruct Ha as [Hlen' Hrow]. split; [done|].
    intros i Hi. rewrite Hrow by done. f_equal.
    replace (contains it i) with (bool_decide (i ∈ py_range a (b + 1))); [done|].
    unfold contains. rewrite Hemp, Hl, Hr. apply bool_decide_ext.
    rewrite elem_of_py_range. lia.
Qed.

Lemma add_vertex_appends (n y_idx : Z) (yv : YVertex) st :
  yvertex_ok n yv = true → Z.of_nat (length st.1) = n →
  ∃ st', add_vertex st (y_idx, yv) = Ok st'
         ∧ appends (λ i, contains (first yv) i || contains (second yv) i)
             y_idx st.1 st'.1.
Proof.
  intros (Hf & Hs & Hord)%yvertex_ok_inv Hlen. unfold add_vertex. simpl.
  destruct (add_interval_appends n y_idx (first yv) st Hf Hlen) as (st1 & -> & Ha1).
  ok_step.
  destruct (add_interval_appends n y_idx (second yv) st1 Hs) as (st2 & -> & Ha2).
  { destruct Ha1 as [-> _]. done. }
  ok_step. exists st2. split; [done|].
  eapply appends_trans; [exact Ha1|exact Ha2| |done].
  intros i [(a1 & b1 & L1 & R1 & ?)%contains_spec (a2 & b2 & L2 & R2 & ?)%contains_spec].
  pose proof (ordered_ok_gap yv a1 b1 a2 b2 Hord L1 R1 L2 R2). lia.
Qed.

Lemma adjacentb_snoc (ys : list YVertex) (yv : YVertex) (i y : Z) :
  0 ≤ y →
  adjacentb (ys ++ [yv]) i y
  = if decide (y = Z.of_nat (length ys))
    then contains (first yv) i || contains (second yv) i
    else adjacentb ys i y.
Proof.
  intros Hy. unfold adjacentb. destruct (decide _) as [->|Hne].
  - by rewrite Nat2Z.id, list_lookup_middle.
  - destruct (decide (Z.to_nat y < length ys)%nat).
    + by rewrite lookup_app_l.
    + rewrite !lookup_ge_None_2; [done|lia|rewrite length_app; simpl; lia].
Qed.

Lemma build_adjacency_rows (n : Z) (ys : list YVertex) :
  0 ≤ n → forallb (yvertex_ok n) ys = true →
  ∃ st, foldM add_vertex (py_enumerate ys) (replicate (Z.to_nat n) [], ∅) = Ok st
        ∧ ∀ i, 0 ≤ i →
               row st.1 i
               = filter (λ y, adjacentb ys i y) (py_range 0 (Z.of_nat (length ys))).
Proof.
  intros Hn. induction ys as [|yv ys IH] using rev_ind; intros Hall.
  - simpl. eexists. split; [done|]. intros i Hi. simpl. apply row_replicate.
  - rewrite forallb_app in Hall. apply andb_true_iff in Hall as [Hall Hyv].
    simpl in Hyv. rewrite andb_true_r in Hyv.
    destruct (build_adjacency_prefix n ys Hn Hall) as (st0 & Hst0 & Hlen0 & _).
    destruct (IH Hall) as (st & Hst & Hrow).
    rewrite Hst0 in Hst. injection Hst as <-.
    rewrite py_enumerate_snoc, foldM_app, Hst0. ok_step. simpl.
    destruct (add_vertex_appends n (Z.of_nat (length ys)) yv st0 Hyv)
      as (st' & -> & Hlen' & Happ).
    { rewrite Hlen0. simpl. rewrite length_replicate. lia. }
    exists st'. split; [done|]. intros i Hi.
    rewrite Happ, Hrow by done. rewrite length_app. simpl.
    replace (Z.of_nat (length ys + 1)) with (Z.of_nat (length ys) + 1) by lia.
    rewrite py_range_snoc by lia. rewrite filter_app, filter_singleton; [|exact []].
    f_equal.
    + apply filter_ext_in. intros y Hy%elem_of_py_range.
      rewrite adjacentb_snoc by lia. destruct (decide _); [lia|done].
    + rewrite adjacentb_snoc by lia. destruct (decide (_ = _)); [|done].
      by destruct (contains (first yv) i || contains (second yv) i).
Qed.

(** X5. On a constructed graph [neighbors_of_x(i)] never raises: outside
    [[0, n-1]] it returns the empty list, and for an X-index it returns the
    Y-indices [y] with [i] in one of the intervals of [y], each once and in
    increasing order. *)
Theorem neighbors_of_x_exact (g : TwoIntervalBipartiteGraph) (i : Z) :
  valid_graph g →
  ∃ vn, neighbors_of_x g i = Ok vn
        ∧ vn = (if decide (0 ≤ i < n g)
                then filter (λ y, adjacentb (y_vertices g) i y) (py_range 0 (n g))
                else [])
        ∧ StronglySorted Z.lt vn ∧ NoDup vn.
Proof.
  intros Hv. pose proof Hv as (Hn & Hys & Hlen & Hall & Hb)%construct_Ok_inv.
  destruct (build_adjacency_rows (n g) (y_vertices g)) as (st & Hst & Hrow);
    [lia|done|].
  rewrite Hb in Hst. injection Hst as <-. simpl in Hrow.
  destruct (valid_graph_built g Hv) as ((Hxlen & _) & _).
  unfold neighbors_of_x. destruct (decide (0 ≤ i < n g)) as [Hi|Hi].
  - destruct (py_index_range (neighbors_x g) i) as (vn & -> & Hvn); [lia|].
    exists vn. assert (Hrw : row (neighbors_x g) i = vn) by (unfold row; by rewrite Hvn).
    rewrite Hrow, Hlen in Hrw by lia. subst vn. split; [done|]. split; [done|].
    split.
    + apply StronglySorted_filter, StronglySorted_py_range.
    + apply NoDup_filter, NoDup_py_range.
  - exists []. repeat split; constructor.
Qed.

Lemma neighbors_of_x_exact_witness :
  neighbors_of_x hamiltonian_n3_graph 0 = Ok [0; 2].
Proof.
  destruct (neighbors_of_x_exact hamiltonian_n3_graph 0 hamiltonian_n3_graph_valid)
    as (vn & Hvn & _).
  rewrite Hvn. revert Hvn. vm_compute. by intros [= <-].
Defined.

(** ** The edges a transition adds *)

Lemma adjacent_edge (g : TwoIntervalBipartiteGraph) (i y : Z) :
  valid_graph g → adjacent (y_vertices g) i y → x_edge i y ∈ edges g.
Proof.
  intros ((_ & _ & Hedge) & _)%valid_graph_built Hadj.
  apply Hedge. by exists i, y.
Qed.

(** X6. On a constructed graph every triple that [_enumerate_transitions]
    returns carries one of the tags T1-T5 and a duplicate-free list of added
    edges, each an edge of the graph at the current X-index [k]: two edges
    for T3, none for T5, one for T1, T2 and T4. *)
Theorem transitions_add_graph_edges (g : TwoIntervalBipartiteGraph) (s : DPState)
    (ts : list transition) (t : transition) :
  valid_graph g → enumerate_transitions g s = Ok ts → t ∈ ts →
  t.1.2 ∈ ["T1"; "T2"; "T3"; "T4"; "T5"]%string
  ∧ (∀ e, e ∈ t.2 → e ∈ edges g ∧ ∃ y, e = x_edge (k s) y)
  ∧ NoDup t.2
  ∧ length t.2 = (if decide (t.1.2 = "T5"%string) then 0
                  else if decide (t.1.2 = "T3"%string) then 2 else 1)%nat.
Proof.
  intros Hv Hts Ht.
  destruct (enumerate_transitions_elem g s ts t Hts Ht) as (_ & vn & Hvn & _ & Hf).
  destruct (valid_graph_built g Hv) as (Hfb & _).
  destruct (neighbors_of_x_total g (k s) Hfb) as (vn' & Hvn' & Hin).
  rewrite Hvn in Hvn'. injection Hvn' as <-.
  destruct Hf as [yc HL Hyc Hev|yo Oa HL Hyo Hno Ho|yc yo Oa HL Hyc Hev Hyo Hno Ho
                 |y0 HL Hy0 Hc|? ? ? ?]; simpl.
  - split; [apply list_elem_of_In; simpl; tauto|]. split; [|split; [apply NoDup_singleton|done]].
    intros e ->%list_elem_of_singleton. split; [|eauto].
    apply adjacent_edge, event_adjacent; auto.
  - split; [apply list_elem_of_In; simpl; tauto|]. split; [|split; [apply NoDup_singleton|done]].
    intros e ->%list_elem_of_singleton. split; [|eauto].
    apply adjacent_edge, event_adjacent; [done..|].
    apply elem_of_union in Hyo as [?|?]; auto.
  - split; [apply list_elem_of_In; simpl; tauto|]. split; [|split; [|done]].
    + intros e [->|[->|[]%elem_of_nil]%elem_of_cons]%elem_of_cons;
        (split; [|eauto]); apply adjacent_edge, event_adjacent; auto.
    + apply NoDup_cons. split; [|apply NoDup_singleton].
      intros [= ->]%list_elem_of_singleton. done.
  - split; [apply list_elem_of_In; simpl; tauto|]. split; [|split; [apply NoDup_singleton|done]].
    intros e ->%list_elem_of_singleton. split; [|eauto].
    apply adjacent_edge; [done|]. by apply Hin.
  - split; [apply list_elem_of_In; simpl; tauto|]. split; [|split; [constructor|done]].
    intros e []%elem_of_nil.
Qed.

Lemma transitions_add_graph_edges_witness :
  ∃ ts, enumerate_transitions hamiltonian_n3_graph (mkDPState 2 [2] 1) = Ok ts
        ∧ Forall (λ t : transition, ∀ e, e ∈ t.2 → e ∈ edges hamiltonian_n3_graph) ts.
Proof.
  eexists. split; [vm_compute; reflexivity|].
  apply Forall_forall. intros t Ht e He.
  eapply (transitions_add_graph_edges hamiltonian_n3_graph (mkDPState 2 [2] 1) _ t
            hamiltonian_n3_graph_valid); [vm_compute; reflexivity|exact Ht|exact He].
Defined.

(** ** The states a run leaves in [reachable] *)

Lemma py_sorted_NoDup (xs : list Z) : NoDup xs → NoDup (py_sorted xs).
Proof. unfold py_sorted. by rewrite merge_sort_Permutation. Qed.

Lemma fires_NoDup (g : TwoIntervalBipartiteGraph) (s : DPState) (vn : list Z)
    (t : transition) :
  NoDup (open_set s) → fires g s vn t → NoDup (open_set t.1.1).
Proof.
  intros Hnd Hf. destruct Hf; simpl; apply py_sorted_NoDup;
    first [by apply NoDup_filter | apply NoDup_elements | done].
Qed.

Lemma Reach_NoDup (g : TwoIntervalBipartiteGraph) (s : DPState) :
  Reach g s → NoDup (open_set s).
Proof.
  induction 1 as [s Hs|s ts t Hr IH Hk Hts Ht].
  - apply seed_shape in Hs as (_ & _ & [-> |(y & -> & _)]);
      [constructor|apply NoDup_singleton].
  - destruct (enumerate_transitions_elem g s ts t Hts Ht) as (_ & vn & _ & _ & Hf).
    by eapply fires_NoDup.
Qed.

Lemma Sorted_le_NoDup_lt (xs : list Z) :
  Sorted Z.le xs → NoDup xs → StronglySorted Z.lt xs.
Proof.
  intros Hs%Sorted_StronglySorted; [|apply _].
  induction Hs as [|x xs Hs IH Hall]; intros Hnd; [constructor|].
  apply NoDup_cons in Hnd as [Hx Hnd]. constructor; [auto|].
  apply Forall_forall. intros y Hy.
  pose proof (proj1 (Forall_forall _ _) Hall y Hy).
  assert (y ≠ x) by (intros ->; done). lia.
Qed.

(** X7. After a run on a constructed graph every state in [reachable] lies
    in a layer between 1 and [max(1, n)], has a loose flag 0 or 1 and an open
    set of at most two Y-indices in strictly increasing order. *)
Theorem reachable_states_well_formed (g : TwoIntervalBipartiteGraph)
    (st0 st : solver) (stats : DPStats) (s : DPState) :
  valid_graph g → run g st0 = Ok (stats, st) → s ∈ od_keys (reachable st) →
  1 ≤ k s ≤ Z.max 1 (n g)
  ∧ (loose_flag s = 0 ∨ loose_flag s = 1)
  ∧ (length (open_set s) ≤ 2)%nat
  ∧ Forall (λ y, 0 ≤ y < n g) (open_set s)
  ∧ StronglySorted Z.lt (open_set s).
Proof.
  intros Hv Hrun Hs.
  destruct (run_spec g st0 Hv) as (stats' & st' & Hrun' & _ & Hkeys & _).
  rewrite Hrun in Hrun'. injection Hrun' as <- <-. apply Hkeys in Hs.
  destruct (Reach_shape g s Hv Hs) as (HO & Hsorted & Hlen & HL).
  pose proof (Reach_layer g s Hs) as Hk. pose proof (Reach_NoDup g s Hs) as Hnd.
  split; [lia|]. split; [done|]. split; [done|]. split; [done|].
  by apply Sorted_le_NoDup_lt.
Qed.

Lemma reachable_states_well_formed_witness :
  ∃ stats st, run hamiltonian_n3_graph solver_empty = Ok (stats, st)
              ∧ Forall (λ s, 1 ≤ k s ≤ 3) (od_keys (reachable st)).
Proof.
  destruct (run_spec hamiltonian_n3_graph solver_empty hamiltonian_n3_graph_valid)
    as (stats & st & Hrun & _).
  exists stats, st. split; [exact Hrun|]. apply Forall_forall. intros s Hs.
  exact (proj1 (reachable_states_well_formed hamiltonian_n3_graph solver_empty st
                  stats s hamiltonian_n3_graph_valid Hrun Hs)).
Defined.

(** ** Graphs without second intervals *)

Lemma no_second_no_ev3 (g : TwoIntervalBipartiteGraph) (i y : Z) :
  Forall (λ yv, is_empty (second yv) = true) (y_vertices g) →
  y ∉ ev3 (classify_events_at g i).
Proof.
  intros Hall Hy. destruct (classify_events_spec g i y) as (_ & _ & H3 & _).
  apply H3 in Hy as (_ & yv & Hl & He).
  apply list_elem_of_lookup_2 in Hl.
  pose proof (proj1 (Forall_forall _ _) Hall yv Hl) as Hemp. simpl in Hemp.
  unfold is_left_endpoint in He. by rewrite Hemp in He.
Qed.

Lemma Reach_never_closed (g : TwoIntervalBipartiteGraph) (s : DPState) :
  Forall (λ yv, is_empty (second yv) = true) (y_vertices g) →
  Reach g s → ¬ (loose_flag s = 0 ∧ open_set s = []).
Proof.
  intros Hall. induction 1 as [s Hs|s ts t Hr IH Hk Hts Ht].
  - apply seed_shape in Hs as (_ & -> & _). intros [? _]. done.
  - destruct (enumerate_transitions_elem g s ts t Hts Ht) as (_ & vn & _ & _ & Hf).
    destruct Hf as [yc HL Hyc Hev|yo Oa HL Hyo Hno Ho|yc yo Oa HL Hyc Hev Hyo Hno Ho
                   |y0 HL Hy0 Hc|? ? ? ?]; simpl.
    + by apply no_second_no_ev3 in Hev.
    + intros [_ Hnil].
      assert (Hin : yo ∈ py_sorted (elements Oa)).
      { apply elem_of_py_sorted. apply (opens_elem g _ _ _ Ho). by right. }
      rewrite Hnil in Hin. by apply elem_of_nil in Hin.
    + by apply no_second_no_ev3 in Hev.
    + intros [? _]. done.
    + intros [HL Hnil]. apply IH. split; [done|].
      apply (f_equal length) in Hnil. rewrite py_sorted_length in Hnil.
      by destruct (open_set s).
Qed.

(** X8. If no Y-vertex of a constructed graph has a second interval, the run
    never reaches a state with loose flag 0 and an empty open set, so
    [run()] returns [accepted = False] and [has_hamiltonian_cycle()] returns
    [False], whether or not the graph has a Hamiltonian cycle. *)
Theorem run_rejects_single_interval_graphs (g : TwoIntervalBipartiteGraph)
    (st0 : solver) :
  valid_graph g →
  Forall (λ yv, is_empty (second yv) = true) (y_vertices g) →
  ∃ stats st, run g st0 = Ok (stats, st)
              ∧ accepted stats = false
              ∧ (∀ s, s ∈ od_keys (reachable st) →
                      ¬ (loose_flag s = 0 ∧ open_set s = []))
              ∧ has_hamiltonian_cycle g st0 = Ok (false, st).
Proof.
  intros Hv Hall.
  destruct (run_spec g st0 Hv) as (stats & st & Hrun & Htrue & Hkeys & Hacc & _).
  assert (Hnever : ∀ s, s ∈ od_keys (reachable st) →
                        ¬ (loose_flag s = 0 ∧ open_set s = [])).
  { intros s Hs%Hkeys. by apply (Reach_never_closed g). }
  assert (Hfalse : accepted stats = false).
  { rewrite Hacc.
    destruct (od_get (reachable st) (final_state g)) as [b|] eqn:E; [|done].
    exfalso. apply (Hnever (final_state g)); [|done].
    destruct (decide (final_state g ∈ od_keys (reachable st))) as [?|Hn]; [done|].
    apply od_get_None in Hn. congruence. }
  exists stats, st. split; [done|]. split; [done|]. split; [done|].
  unfold has_hamiltonian_cycle. rewrite Hrun. simpl. by rewrite Hfalse.
Qed.

Lemma square_graph_valid : valid_graph square_graph.
Proof. vm_compute. reflexivity. Qed.

Lemma run_rejects_single_interval_graphs_witness :
  (∃ stats st, run square_graph solver_empty = Ok (stats, st)
               ∧ accepted stats = false)
  ∧ find_cycle 5 square_graph
    = Ok (Some [("X"%string, 0); ("Y"%string, 0); ("X"%string, 1); ("Y"%string, 1)]).
Proof.
  split; [|vm_compute; reflexivity].
  assert (Hall : Forall (λ yv, is_empty (second yv) = true) (y_vertices square_graph)).
  { repeat constructor. }
  destruct (run_rejects_single_interval_graphs square_graph solver_empty
              square_graph_valid Hall) as (stats & st & Hrun & Hacc & _).
  by exists stats, st.
Defined.

(** ** An induction principle for the run *)

Lemma foldM_inv_Ok {A S : Type} (P : S → Prop) (body : S → A → result S)
    (xs : list A) (st st' : S) :
  (∀ st x st', P st → x ∈ xs → body st x = Ok st' → P st') →
  P st → foldM body xs st = Ok st' → P st'.
Proof.
  revert st. induction xs as [|x xs IH]; intros st Hbody HP; simpl.
  - intros [= <-]. done.
  - intros H. apply bind_Ok in H as (st1 & H1 & H).
    apply (IH st1); [|by eapply Hbody; [done|left|done]|done].
    intros st2 x' st2' HP2 Hx'. apply Hbody; [done|by right].
Qed.

Lemma foldl_inv {A S : Type} (P : S → Prop) (f : S → A → S) (xs : list A) (st : S) :
  (∀ st x, P st → x ∈ xs → P (f st x)) → P st → P (foldl f st xs).
Proof.
  revert st. induction xs as [|x xs IH]; intros st Hf HP; simpl; [done|].
  apply IH; [|apply Hf; [done|left]]. intros st' x' HP' Hx'. apply Hf; [done|by right].
Qed.

Lemma od_get_set_ne {K V : Type} `{EqDecision K} (d : list (K * V)) (key key' : K) (v : V) :
  key ≠ key' → od_get (od_set d key v) key' = od_get d key'.
Proof.
  intros Hne. induction d as [|[k' v'] d IH]; simpl.
  - by destruct (decide (key = key')).
  - destruct (decide (k' = key)) as [->|Hk]; simpl.
    + by destruct (decide (key = key')).
    + destruct (decide (k' = key')); [done|apply IH].
Qed.

Lemma od_mem_true_false {K V : Type} `{EqDecision K} (d : list (K * V)) (key : K) :
  od_mem d key = false → key ∉ od_keys d.
Proof. intros Hm Hin%od_mem_true. congruence. Qed.

Lemma discover_get_mono (st : solver) (s prev c : DPState) (ttype : string)
    (es : list Edge) (v : bool) :
  od_get (reachable st) c = Some v →
  od_get (reachable (discover st s prev ttype es)) c = Some v.
Proof.
  intros Hc. unfold discover. destruct (od_mem (reachable st) s) eqn:Hm; [done|].
  simpl. rewrite od_get_set_ne; [done|]. intros ->.
  apply od_mem_true_false in Hm. apply od_get_None in Hm. congruence.
Qed.

Lemma run_Ok_inv (g : TwoIntervalBipartiteGraph) (st0 st : solver) (stats : DPStats) :
  run g st0 = Ok (stats, st) →
  ∃ st1 spk,
    initial_states g solver_empty = Ok st1
    ∧ foldM (run_layer g) (py_range 1 (n g)) (st1, []) = Ok (st, spk)
    ∧ total_states stats = Z.of_nat (length (reachable st))
    ∧ states_per_k stats = spk
    ∧ max_states_per_k stats
      = match spk with [] => 0 | _ => py_max (od_values spk) end
    ∧ stats_transitions_per_type stats = transitions_per_type st
    ∧ accepted stats = default false (od_get (reachable st) (final_state g)).
Proof.
  unfold run. intros H. apply bind_Ok in H as (st1 & H1 & H).
  apply bind_Ok in H as ([st2 spk] & H2 & H). injection H as <- <-.
  exists st1, spk. simpl. done.
Qed.

(** A property of the solver that holds once the loose state is stored and
    that every discovery (by INIT, or by a transition of a state stored in
    [reachable]) preserves, holds when [run()] returns. *)
Lemma run_ind (g : TwoIntervalBipartiteGraph) (I : solver → Prop)
    (st0 st : solver) (stats : DPStats) :
  I (mkSolver [(base_state, true)] [] []) →
  (∀ st y yv x0,
     I st → neighbors_of_x g 0 = Ok x0 → y ∈ x0 →
     py_index (y_vertices g) y = Ok yv →
     I (discover st (mkDPState 1 (if second_right_of_x0 yv then [y] else []) 1)
          (mkDPState 0 [] 1) "INIT" [x_edge 0 y])) →
  (∀ st state ts t,
     I st → state ∈ od_keys (reachable st) → 1 ≤ k state < n g →
     enumerate_transitions g state = Ok ts → t ∈ ts →
     I (discover st t.1.1 state t.1.2 t.2)) →
  run g st0 = Ok (stats, st) → I st.
Proof.
  intros Hbase Hinit Hstep (st1 & spk & H1 & H2 & _)%run_Ok_inv.
  assert (HI1 : I st1).
  { unfold initial_states in H1. apply bind_Ok in H1 as (x0 & Hx0 & H1).
    revert H1. apply foldM_inv_Ok; [|exact Hbase].
    intros st' y st'' HI Hy Hb. unfold initial_states_step in Hb.
    apply bind_Ok in Hb as (yv & Hyv & Hb). injection Hb as <-. by eapply Hinit. }
  change st with ((st, spk).1).
  revert H2. apply (foldM_inv_Ok (λ acc, I acc.1)); [|exact HI1].
  intros [st2 spk2] kk [st3 spk3] HI2 Hkk%elem_of_py_range Hb. simpl in *.
  unfold run_layer in Hb. apply bind_Ok in Hb as (st4 & Hb & Heq).
  injection Heq as <- <-. revert Hb. apply foldM_inv_Ok; [|exact HI2].
  intros st5 c st6 HI5 [Hkc Hc]%list_elem_of_filter Hb. unfold run_state in Hb.
  destruct (od_get (reachable st5) c) as [[|]|] eqn:Hget; simpl in Hb;
    try (by injection Hb as <-).
  apply bind_Ok in Hb as (ts & Hts & Hb). injection Hb as <-.
  assert (Hgen : I (foldl (λ st (t : transition), discover st t.1.1 c t.1.2 t.2) st5 ts)
                 ∧ od_get (reachable (foldl (λ st (t : transition),
                      discover st t.1.1 c t.1.2 t.2) st5 ts)) c = Some true);
    [|by destruct Hgen].
  apply (foldl_inv (λ st, I st ∧ od_get (reachable st) c = Some true)); [|done].
  intros st7 t [HI7 Hget7] Ht. split; [|by apply discover_get_mono].
  apply (Hstep st7 c ts t); [done| |lia|done|done].
  destruct (decide (c ∈ od_keys (reachable st7))) as [?|Hn]; [done|].
  apply od_get_None in Hn. congruence.
Qed.

(** ** The three maps stay in step *)

Lemma od_set_new {K V : Type} `{EqDecision K} (d : list (K * V)) (key : K) (v : V) :
  key ∉ od_keys d → od_set d key v = d ++ [(key, v)].
Proof.
  unfold od_keys. induction d as [|[k' v'] d IH]; simpl; [done|].
  rewrite not_elem_of_cons. intros [Hne Hn].
  destruct (decide (k' = key)); [done|]. by rewrite IH.
Qed.

Lemma sum_values_cons {K : Type} (key : K) (v : Z) (d : list (K * Z)) :
  sum_values ((key, v) :: d) = v + sum_values d.
Proof. reflexivity. Qed.

Lemma sum_values_set {K : Type} `{EqDecision K} (d : list (K * Z)) (key : K) (v : Z) :
  sum_values (od_set d key v) = sum_values d - default 0 (od_get d key) + v.
Proof.
  induction d as [|[k' v'] d IH]; simpl.
  - rewrite sum_values_cons. unfold sum_values. simpl. lia.
  - destruct (decide (k' = key)) as [->|Hne]; rewrite !sum_values_cons; simpl; [lia|].
    rewrite IH. lia.
Qed.

Lemma count_transition_sum (d : list (string * Z)) (ttype : string) :
  sum_values (count_transition d ttype) = sum_values d + 1.
Proof. unfold count_transition. rewrite sum_values_set. lia. Qed.

Lemma discover_in_step (st : solver) (s prev : DPState) (ttype : string)
    (es : list Edge) :
  maps_in_step st → maps_in_step (discover st s prev ttype es).
Proof.
  intros (Hkeys & Hnd & Hsum). unfold discover.
  destruct (od_mem (reachable st) s) eqn:Hm; [done|].
  apply od_mem_true_false in Hm.
  assert (Hp : s ∉ od_keys (predecessor st)).
  { intros Hin. apply Hm. rewrite Hkeys. by right. }
  unfold maps_in_step. simpl.
  rewrite (od_set_new (reachable st)), (od_set_new (predecessor st)) by done.
  unfold od_keys in *. rewrite !fmap_app, Hkeys. simpl. split; [done|]. split.
  - change (NoDup ((base_state :: (predecessor st).*1) ++ [s])).
    rewrite <- Hkeys. apply NoDup_app. split; [done|]. split; [|apply NoDup_singleton].
    intros x Hx ->%list_elem_of_singleton. done.
  - rewrite count_transition_sum, Hsum, length_app. simpl. lia.
Qed.

(** X9. When [run()] returns, [reachable] lists, without repetition, the
    loose state [(1, ∅, 1)] followed by the keys of [predecessor] in the same
    order: every other state has exactly one predecessor record.  The
    per-type transition counts add up to [total_states - 1]. *)
Theorem run_maps_in_step (g : TwoIntervalBipartiteGraph) (st0 st : solver)
    (stats : DPStats) :
  run g st0 = Ok (stats, st) →
  od_keys (reachable st) = base_state :: od_keys (predecessor st)
  ∧ NoDup (od_keys (reachable st))
  ∧ total_states stats = Z.of_nat (length (predecessor st)) + 1
  ∧ sum_values (stats_transitions_per_type stats) = total_states stats - 1.
Proof.
  intros Hrun.
  assert (Hstep : maps_in_step st).
  { revert Hrun. apply run_ind.
    - split; [done|]. split; [apply NoDup_singleton|done].
    - intros. by apply discover_in_step.
    - intros. by apply discover_in_step. }
  destruct Hstep as (Hkeys & Hnd & Hsum).
  apply run_Ok_inv in Hrun as (_ & _ & _ & _ & Htot & _ & _ & Htpt & _).
  split; [done|]. split; [done|].
  assert (Hlen : length (reachable st) = S (length (predecessor st))).
  { apply (f_equal length) in Hkeys. unfold od_keys in Hkeys. simpl in Hkeys.
    by rewrite !length_fmap in Hkeys. }
  rewrite Htot, Htpt, Hsum, Hlen. lia.
Qed.

Lemma run_maps_in_step_witness :
  ∃ stats st, run hamiltonian_n3_graph solver_empty = Ok (stats, st)
              ∧ total_states stats = 11
              ∧ sum_values (stats_transitions_per_type stats) = 10.
Proof.
  destruct (run_spec hamiltonian_n3_graph solver_empty hamiltonian_n3_graph_valid)
    as (stats & st & Hrun & _).
  destruct (run_maps_in_step hamiltonian_n3_graph solver_empty st stats Hrun)
    as (_ & _ & _ & Hsum).
  exists stats, st. split; [exact Hrun|].
  assert (Htot : total_states stats = 11).
  { revert Hrun. vm_compute. by intros [= <- <-]. }
  split; [exact Htot|]. rewrite Hsum, Htot. reflexivity.
Defined.

(** ** Predecessor records *)

Lemma elem_of_od_set {K V : Type} `{EqDecision K} (d : list (K * V)) (key : K) (v : V)
    (p : K * V) :
  p ∈ od_set d key v → p ∈ d ∨ p = (key, v).
Proof.
  induction d as [|[k' v'] d IH]; simpl.
  - intros ->%list_elem_of_singleton. by right.
  - destruct (decide (k' = key)) as [->|Hne].
    + intros [->|?]%elem_of_cons; [by right|]. left. by right.
    + intros [->|Hin]%elem_of_cons; [left; left|].
      destruct (IH Hin); [left; by right|by right].
Qed.

Lemma record_ok_mono (g : TwoIntervalBipartiteGraph) (st st' : solver)
    (s : DPState) (p : DPPredecessor) :
  (∀ c, c ∈ od_keys (reachable st) → c ∈ od_keys (reachable st')) →
  record_ok g st s p → record_ok g st' s p.
Proof.
  intros Hmono [Hs Hp]. split; [auto|].
  destruct Hp as [?|(Hprev & ts & Hts & Ht)]; [by left|]. right. eauto.
Qed.

Lemma discover_records (g : TwoIntervalBipartiteGraph) (st : solver)
    (s prev : DPState) (ttype : string) (es : list Edge) :
  (∀ st', (∀ c, c ∈ od_keys (reachable st) → c ∈ od_keys (reachable st')) →
          s ∈ od_keys (reachable st') →
          record_ok g st' s (mkDPPredecessor prev ttype es)) →
  (∀ s' p, (s', p) ∈ predecessor st → record_ok g st s' p) →
  ∀ s' p, (s', p) ∈ predecessor (discover st s prev ttype es) →
          record_ok g (discover st s prev ttype es) s' p.
Proof.
  intros Hnew Hold s' p. unfold discover.
  destruct (od_mem (reachable st) s) eqn:Hm; [apply Hold|]. simpl.
  assert (Hmono : ∀ c, c ∈ od_keys (reachable st) →
            c ∈ od_keys (od_set (reachable st) s true)).
  { intros c Hc. apply od_keys_set. by left. }
  intros [Hin|[= -> ->]]%elem_of_od_set.
  - eapply record_ok_mono; [|by apply Hold]. exact Hmono.
  - apply (Hnew (mkSolver _ _ _)); [exact Hmono|]. simpl. apply od_keys_set. by right.
Qed.

(** X10. When [run()] returns, every record of [predecessor] is true to the
    run: the state it is stored for is in [reachable] and lies one layer
    above the recorded previous state, and the record is either an INIT
    record from [(0, ∅, 1)] with one edge from X-index 0 to one of its
    neighbours, or names a state of [reachable] together with a tag and an
    edge list that [_enumerate_transitions] returns for that state with this
    very successor. *)
Theorem run_predecessors_are_transitions (g : TwoIntervalBipartiteGraph)
    (st0 st : solver) (stats : DPStats) (s : DPState) (p : DPPredecessor) :
  run g st0 = Ok (stats, st) → (s, p) ∈ predecessor st →
  record_ok g st s p ∧ k s = k (prev_state p) + 1.
Proof.
  intros Hrun Hin.
  assert (Hall : ∀ s p, (s, p) ∈ predecessor st →
                        record_ok g st s p ∧ k s = k (prev_state p) + 1);
    [|by apply Hall].
  clear s p Hin. revert Hrun.
  apply (run_ind g (λ st, ∀ s p, (s, p) ∈ predecessor st →
                          record_ok g st s p ∧ k s = k (prev_state p) + 1)).
  - intros s p []%elem_of_nil.
  - intros st1 y yv x0 HI Hx0 Hy Hyv s p Hin.
    assert (Hk : k s = k (prev_state p) + 1).
    { unfold discover in Hin. destruct (od_mem _ _); [by apply HI|].
      apply elem_of_od_set in Hin as [Hin|[= -> ->]]; [by apply HI|done]. }
    split; [|done]. clear Hk. revert s p Hin. apply discover_records.
    + intros st' _ Hs. split; [done|]. left. simpl. eauto 10.
    + intros s p Hin. by apply HI.
  - intros st1 c ts [[s' tt] es] HI Hc Hkc Hts Ht s p Hin. simpl in *.
    assert (Hk : k s = k (prev_state p) + 1).
    { unfold discover in Hin. destruct (od_mem _ _); [by apply HI|].
      apply elem_of_od_set in Hin as [Hin|[= -> ->]]; [by apply HI|]. simpl.
      destruct (enumerate_transitions_elem g c ts _ Hts Ht) as (_ & vn & _ & _ & Hf).
      by apply fires_successor in Hf as (Hk & _). }
    split; [|done]. clear Hk. revert s p Hin. apply discover_records.
    + intros st' Hmono Hs. split; [done|]. right. simpl. split; [auto|]. eauto.
    + intros s p Hin. by apply HI.
Qed.

Lemma run_predecessors_are_transitions_witness :
  ∃ stats st, run hamiltonian_n3_graph solver_empty = Ok (stats, st)
              ∧ Forall (λ sp : DPState * DPPredecessor,
                          k sp.1 = k (prev_state sp.2) + 1) (predecessor st).
Proof.
  destruct (run_spec hamiltonian_n3_graph solver_empty hamiltonian_n3_graph_valid)
    as (stats & st & Hrun & _).
  exists stats, st. split; [exact Hrun|]. apply Forall_forall. intros [s p] Hin.
  exact (proj2 (run_predecessors_are_transitions hamiltonian_n3_graph solver_empty st
                  stats s p Hrun Hin)).
Defined.

(** ** Backtracking: completeness *)

Lemma visited_bool (N : Z) (xn : list (list Z)) (st : search) (cb b : bool) (cur c : Z) :
  search_inv N xn st cb cur → 0 ≤ c < N → (tag b, c) ∉ path st →
  visited b st !! Z.to_nat c = Some false.
Proof.
  intros Hinv Hc Hnot.
  pose proof (visited_length N xn st b cb cur Hinv) as Hlen.
  destruct Hinv as (_ & _ & _ & _ & _ & _ & _ & Hvis).
  destruct (lookup_lt_is_Some_2 (visited b st) (Z.to_nat c)) as [[|] Hv]; [lia| |done].
  apply Hvis in Hv; done.
Qed.

(** A loop of [dfs] that returns [False] has refuted every unmarked
    candidate as the next vertex of a cycle. *)
Lemma dfs_loop_complete (N : Z) (xn : list (list Z))
    (rec : Z → search → result (bool * search)) (to_x : bool) (cur : Z)
    (cands : list Z) (st st' : search) :
  search_inv N xn st (negb to_x) cur →
  Forall (λ c, 0 ≤ c < N
               ∧ joined (list_edge N xn) (tag (negb to_x), cur) (tag to_x, c)) cands →
  (∀ c st1 st1', search_inv N xn st1 to_x c →
                 length (path st1) = S (length (path st)) →
                 rec c st1 = Ok (false, st1') →
                 st1' = st1
                 ∧ ∀ cyc, cycle_ok N xn cyc → ¬ path st1 `prefix_of` cyc) →
  dfs_loop rec to_x cands st = Ok (false, st') →
  ∀ c, c ∈ cands → visited to_x st !! Z.to_nat c = Some false →
       ∀ cyc, cycle_ok N xn cyc → ¬ (path st ++ [(tag to_x, c)]) `prefix_of` cyc.
Proof.
  intros Hinv Hcands Hrec.
  induction Hcands as [|c0 cands [Hc0 Hj] _ IH]; simpl; intros Hloop c Hc Hfalse.
  { by apply elem_of_nil in Hc. }
  assert (Hlen : Z.of_nat (length (visited to_x st)) = N) by by eapply visited_length.
  destruct (py_index_range (visited to_x st) c0) as (seen & Hidx & Hseen); [lia|].
  rewrite Hidx in Hloop. revert Hloop. ok_step.
  destruct seen.
  { intros Hloop. apply elem_of_cons in Hc as [->|Hc]; [congruence|]. by apply IH. }
  rewrite py_setitem_range by lia. ok_step.
  destruct st as [vx vy p].
  pose proof (search_inv_push N xn vx vy p to_x cur c0 Hinv Hc0 Hj Hseen) as Hinv1.
  destruct to_x; simpl in *.
  - intros Hloop. apply bind_Ok in Hloop as ([found st2] & Hr & Hloop).
    destruct found; [done|].
    destruct (Hrec c0 _ st2 Hinv1) as [-> Hnone]; [|done|].
    { simpl. rewrite length_app. simpl. lia. }
    simpl in Hloop. rewrite py_pop_snoc in Hloop. revert Hloop. ok_step. simpl.
    rewrite py_setitem_range by (rewrite length_insert; lia). ok_step.
    rewrite insert_false_true by done. intros Hloop.
    apply elem_of_cons in Hc as [->|Hc]; [exact Hnone|by apply IH].
  - intros Hloop. apply bind_Ok in Hloop as ([found st2] & Hr & Hloop).
    destruct found; [done|].
    destruct (Hrec c0 _ st2 Hinv1) as [-> Hnone]; [|done|].
    { simpl. rewrite length_app. simpl. lia. }
    simpl in Hloop. rewrite py_pop_snoc in Hloop. revert Hloop. ok_step. simpl.
    rewrite py_setitem_range by (rewrite length_insert; lia). ok_step.
    rewrite insert_false_true by done. intros Hloop.
    apply elem_of_cons in Hc as [->|Hc]; [exact Hnone|by apply IH].
Qed.

Lemma cycle_next (N : Z) (xn : list (list Z)) (st : search) (cx : bool) (cur : Z)
    (cyc : list (string * Z)) :
  search_inv N xn st cx cur → cycle_ok N xn cyc →
  Z.of_nat (length (path st)) ≠ 2 * N → path st `prefix_of` cyc →
  ∃ idx, (path st ++ [(tag (negb cx), idx)]) `prefix_of` cyc
         ∧ 0 ≤ idx < N
         ∧ joined (list_edge N xn) (tag cx, cur) (tag (negb cx), idx)
         ∧ (tag (negb cx), idx) ∉ path st.
Proof.
  intros (_ & _ & Hlast & Halt & _ & _ & _ & _)
         (Hlen & Halt' & Hnd & Hrg & Hch & _) Hne [rest Hcyc].
  destruct rest as [|[t idx] rest].
  { rewrite app_nil_r in Hcyc. subst cyc. done. }
  assert (Hx : cyc !! length (path st) = Some (t, idx)).
  { rewrite Hcyc. by rewrite list_lookup_middle. }
  assert (Ht : t = tag (negb cx)).
  { apply Halt' in Hx. simpl in Hx. rewrite Hx. f_equal.
    apply (alternates_next _ _ cur); [done|]. by rewrite negb_involutive. }
  subst t. exists idx. split; [|split; [|split]].
  - exists rest. by rewrite <- app_assoc.
  - apply (Hrg (tag (negb cx), idx)). by eapply list_elem_of_lookup_2.
  - apply last_index in Hlast as (m & Hm & Hlast).
    apply (Hch m); [|by rewrite <- Hm].
    rewrite Hcyc. rewrite lookup_app_l by lia. done.
  - intros Hin. rewrite Hcyc in Hnd. apply NoDup_app in Hnd as (_ & Hdisj & _).
    apply (Hdisj _ Hin). left.
Qed.

(** A call of [dfs] that returns [False] has refuted the current path as
    the beginning of a cycle. *)
Lemma dfs_complete (N : Z) (xn yn : list (list Z)) :
  rows_in_range N xn → transposed N xn yn →
  ∀ (depth : nat) (cx : bool) (cur : Z) (st st' : search),
    search_inv N xn st cx cur →
    Z.of_nat (length (path st)) ≤ 2 * N →
    dfs depth N xn yn cx cur st = Ok (false, st') →
    ∀ cyc, cycle_ok N xn cyc → ¬ path st `prefix_of` cyc.
Proof.
  intros Hrows Htr. pose proof Hrows as [Hxlen Hxrows]. pose proof Htr as [Hylen Hyrows].
  induction depth as [|depth IH]; intros cx cur st st' Hinv Hle Hdfs cyc Hcyc Hpre;
    [done|].
  simpl in Hdfs. pose proof (search_inv_current _ _ _ _ _ Hinv) as Hcur.
  destruct (decide (Z.of_nat (length (path st)) = 2 * N)) as [Hfull|Hnot].
  - assert (cyc = path st) as ->.
    { destruct Hpre as [rest ->]. destruct Hcyc as (Hlen & _).
      rewrite length_app in Hlen. destruct rest; [by rewrite app_nil_r|].
      simpl in Hlen. lia. }
    destruct (search_inv_head _ _ _ _ _ Hinv) as (fi & Hidx & Hhead & Hfi).
    rewrite Hidx in Hdfs. revert Hdfs. ok_step. cbv iota beta.
    rewrite (bool_decide_eq_true_2 ("X"%string = "X"%string)) by done.
    destruct Hinv as (_ & _ & Hlast & _). destruct Hcyc as (_ & _ & _ & _ & _ & Hcl).
    specialize (Hcl _ _ Hlast Hhead).
    destruct cx; simpl.
    + intros _. destruct Hcl as [(_ & ? & _)|(? & _)]; done.
    + destruct depth as [|depth']; [done|]. unfold py_call, is_edge.
      destruct (py_index_range xn fi) as (rw & -> & Hrw); [lia|]. ok_step. ok_step.
      intros [= Hb%bool_decide_eq_false _]. apply Hb.
      destruct Hcl as [(? & _)|(_ & _ & _ & Hin)]; [done|].
      unfold row in Hin. simpl in Hin. by rewrite Hrw in Hin.
  - destruct (cycle_next N xn st cx cur cyc Hinv Hcyc Hnot Hpre)
      as (idx & Hpre' & Hidx & Hj & Hnin).
    pose proof (visited_bool N xn st cx (negb cx) cur idx Hinv Hidx Hnin) as Hfalse.
    assert (Hrec : ∀ b c st1 st1',
              search_inv N xn st1 b c →
              length (path st1) = S (length (path st)) →
              dfs depth N xn yn b c st1 = Ok (false, st1') →
              st1' = st1 ∧ ∀ cyc, cycle_ok N xn cyc → ¬ path st1 `prefix_of` cyc).
    { intros b c st1 st1' Hinv1 Hlen1 Hd. split.
      - destruct (dfs_spec N xn yn Hrows Htr depth b c st1 Hinv1)
          as [(b' & st2 & Hd' & Hf & _)|[Hd' _]]; [lia| |congruence].
        rewrite Hd in Hd'. injection Hd' as <- <-. by apply Hf.
      - eapply IH; [exact Hinv1|lia|exact Hd]. }
    destruct cx; simpl in *.
    + destruct (py_index_range xn cur) as (rw & Hi & Hrw); [lia|].
      rewrite Hi in Hdfs. revert Hdfs. ok_step. intros Hdfs.
      refine (dfs_loop_complete N xn _ false cur rw st st' Hinv _ _ Hdfs idx _ Hfalse
                cyc Hcyc Hpre').
      * apply Forall_forall. intros c Hc.
        assert (Hc' : c ∈ row xn cur) by (unfold row; by rewrite Hrw).
        split; [exact (Hxrows cur c Hcur Hc')|]. left. simpl. done.
      * intros c st1 st1'. apply Hrec.
      * destruct Hj as [(_ & _ & _ & Hin)|(? & _)]; [|done].
        unfold row in Hin. simpl in Hin. by rewrite Hrw in Hin.
    + destruct (py_index_range yn cur) as (rw & Hi & Hrw); [lia|].
      rewrite Hi in Hdfs. revert Hdfs. ok_step. intros Hdfs.
      refine (dfs_loop_complete N xn _ true cur rw st st' Hinv _ _ Hdfs idx _ Hfalse
                cyc Hcyc Hpre').
      * apply Forall_forall. intros c Hc.
        assert (Hc' : c ∈ row yn cur) by (unfold row; by rewrite Hrw).
        apply Hyrows in Hc' as Hedge; [|done]. split; [apply Hedge|].
        right. simpl. done.
      * intros c st1 st1'. apply Hrec.
      * destruct Hj as [(? & _)|(_ & _ & Hedge)]; [done|]. simpl in Hedge.
        apply Hyrows in Hedge; [|done]. unfold row in Hedge. by rewrite Hrw in Hedge.
Qed.

Lemma try_starts_complete (N : Z) (xn yn : list (list Z)) (starts : list Z)
    (st : search) (depth : nat) :
  rows_in_range N xn → transposed N xn yn → 1 ≤ N →
  Forall (λ s, 0 ≤ s < N) starts →
  Z.of_nat (length (visited_x st)) = N → Z.of_nat (length (visited_y st)) = N →
  try_starts depth N xn yn starts st = Ok None →
  ∀ s, s ∈ starts → ∀ cyc, cycle_ok N xn cyc → head cyc ≠ Some ("X"%string, s).
Proof.
  intros Hrows Htr HN Hstarts. revert st.
  induction Hstarts as [|start starts Hs _ IH]; intros st Hx Hy; simpl.
  { intros _ s []%elem_of_nil. }
  destruct (reset_visited_spec N st) as (st1 & -> & Hx1 & Hy1 & Hf); [lia|done|done|].
  ok_step. simpl. rewrite py_setitem_range by lia. ok_step.
  pose proof (search_inv_start N xn (visited_x st1) (visited_y st1) start Hx1 Hy1 Hs Hf)
    as Hinv.
  destruct (dfs_spec N xn yn Hrows Htr depth true start _ Hinv)
    as [(b & st' & Hdfs & Hfalse & Htrue)|[Hdfs _]]; [simpl; lia| |].
  2: { simpl in Hdfs. by rewrite Hdfs. }
  simpl in Hdfs. rewrite Hdfs. ok_step. destruct b; [done|].
  intros Hrest s [->|Hin]%elem_of_cons cyc Hcyc.
  - intros Hhead.
    refine (dfs_complete N xn yn Hrows Htr _ true start _ st' Hinv _ Hdfs cyc Hcyc _);
      [simpl; lia|].
    simpl. destruct cyc as [|x cyc]; [done|]. injection Hhead as ->. by exists cyc.
  - rewrite (Hfalse eq_refl) in Hrest.
    eapply (IH _ _ _ Hrest); [done|done].
    Unshelve. all: simpl; by rewrite ?length_insert.
Qed.

Lemma edge_adjacent (g : TwoIntervalBipartiteGraph) (i y : Z) :
  valid_graph g → graph_edge g i y → list_edge (n g) (neighbors_x g) i y.
Proof.
  intros Hv Hedge. pose proof Hv as ((_ & Hrow & Hedges) & _)%valid_graph_built.
  apply Hedges in Hedge as (i' & y' & Hadj & [= -> ->]).
  pose proof (adjacent_index_range g i' y' Hv Hadj) as Hi.
  split; [done|]. by apply Hrow.
Qed.

Lemma hamiltonian_cycle_ok (g : TwoIntervalBipartiteGraph) (c : list (string * Z)) :
  valid_graph g → hamiltonian_cycle g c → cycle_ok (n g) (neighbors_x g) c.
Proof.
  intros Hv (Hlen & Halt & Hnd & Hvis & Hch & Hcl).
  destruct (valid_graph_rows g Hv) as (HN & _ & _).
  split; [done|]. split; [done|]. split; [done|]. split; [|split].
  - set (U := ((λ i, ("X"%string, i)) <$> py_range 0 (n g))
              ++ ((λ i, ("Y"%string, i)) <$> py_range 0 (n g))).
    assert (HU : NoDup U).
    { apply NoDup_app. split; [|split].
      - apply NoDup_fmap_2; [by intros ? ? [= ?]|apply NoDup_py_range].
      - intros x (i & -> & _)%list_elem_of_fmap (j & [=] & _)%list_elem_of_fmap.
      - apply NoDup_fmap_2; [by intros ? ? [= ?]|apply NoDup_py_range]. }
    assert (Hsub : ∀ a, a ∈ U → a ∈ c).
    { intros a [(i & -> & Hi%elem_of_py_range)%list_elem_of_fmap
               |(i & -> & Hi%elem_of_py_range)%list_elem_of_fmap]%elem_of_app;
        by apply Hvis. }
    assert (Hperm : U ≡ₚ c).
    { apply submseteq_length_Permutation; [by apply NoDup_submseteq|].
      unfold U. rewrite length_app, !length_fmap, !length_py_range. lia. }
    intros a Ha. rewrite <- Hperm in Ha. unfold U in Ha.
    apply elem_of_app in Ha as [(i & -> & Hi%elem_of_py_range)%list_elem_of_fmap
                              |(i & -> & Hi%elem_of_py_range)%list_elem_of_fmap]; done.
  - intros j a b Ha Hb. eapply joined_mono; [intros i y; apply (edge_adjacent g i y Hv)|].
    by eapply Hch.
  - intros a b Ha Hb. eapply joined_mono; [intros i y; apply (edge_adjacent g i y Hv)|].
    by eapply Hcl.
Qed.

(** A [None] that [find_cycle()] returns is a refutation, whatever number of
    nested calls was allowed. *)
Lemma find_cycle_None (g : TwoIntervalBipartiteGraph) (depth : nat) :
  valid_graph g → find_cycle depth g = Ok None → ¬ ∃ c, hamiltonian_cycle g c.
Proof.
  intros Hv Hfc [c Hc]. pose proof (hamiltonian_cycle_ok g c Hv Hc) as Hok.
  unfold find_cycle in Hfc. destruct (decide (n g = 0)) as [H0|H0]; [done|].
  destruct (valid_graph_rows g Hv) as (HN & Hrows & _).
  destruct (build_y_neighbors_spec (n g) (neighbors_x g) HN Hrows) as (yn & Hyn & Htr).
  rewrite Hyn in Hfc. revert Hfc. ok_step. intros Hfc.
  destruct Hok as (Hlen & Halt & Hnd & Hrg & Hch & Hcl).
  destruct c as [|[t s] c']; [simpl in Hlen; lia|].
  pose proof (Halt 0%nat (t, s) eq_refl) as Ht. simpl in Ht. subst t.
  assert (Hs : 0 ≤ s < n g) by (apply (Hrg ("X"%string, s)); left).
  refine (try_starts_complete (n g) (neighbors_x g) yn (py_range 0 (n g)) _ depth
            Hrows Htr _ _ _ _ Hfc s _ (("X"%string, s) :: c') _ eq_refl).
  - lia.
  - apply Forall_forall. intros s' Hs'%elem_of_py_range. done.
  - simpl. rewrite length_replicate. lia.
  - simpl. rewrite length_replicate. lia.
  - by apply elem_of_py_range.
  - done.
Qed.





(** ** Per-layer statistics *)

Lemma foldM_prefix_inv {A S : Type} (P : list A → S → Prop)
    (body : S → A → result S) (xs : list A) (st st' : S) :
  P [] st →
  (∀ pre x st st', P pre st → (pre ++ [x]) `prefix_of` xs →
                   body st x = Ok st' → P (pre ++ [x]) st') →
  foldM body xs st = Ok st' → P xs st'.
Proof.
  intros H0 Hstep.
  assert (Hgen : ∀ rest pre st, P pre st → pre ++ rest = xs →
                                foldM body rest st = Ok st' → P xs st').
  { induction rest as [|x rest IH]; intros pre st1 HP Hxs; simpl.
    - intros [= <-]. rewrite app_nil_r in Hxs. by subst.
    - intros H. apply bind_Ok in H as (st2 & H2 & H).
      apply (IH (pre ++ [x]) st2); [|by rewrite <- app_assoc|done].
      eapply Hstep; [done| |done]. exists rest. by rewrite <- app_assoc. }
  by apply (Hgen xs [] st).
Qed.

Lemma discover_keys (st : solver) (s prev : DPState) (ttype : string) (es : list Edge) :
  od_keys (reachable (discover st s prev ttype es)) = od_keys (reachable st)
  ∨ od_keys (reachable (discover st s prev ttype es)) = od_keys (reachable st) ++ [s].
Proof.
  unfold discover. destruct (od_mem (reachable st) s) eqn:Hm; [by left|]. right.
  simpl. apply od_mem_true_false in Hm. rewrite od_set_new by done.
  unfold od_keys. by rewrite fmap_app.
Qed.

Lemma discover_count (st : solver) (s prev : DPState) (ttype : string)
    (es : list Edge) (j : Z) :
  k s ≠ j → count_layer j (discover st s prev ttype es) = count_layer j st.
Proof.
  intros Hne. unfold count_layer.
  destruct (discover_keys st s prev ttype es) as [-> | ->]; [done|].
  rewrite filter_app, filter_cons_False, filter_nil, app_nil_r; done.
Qed.

Lemma run_state_count (g : TwoIntervalBipartiteGraph) (st st' : solver)
    (c : DPState) (j : Z) :
  run_state g st c = Ok st' → j ≠ k c + 1 → count_layer j st' = count_layer j st.
Proof.
  unfold run_state. destruct (negb _); [by intros [= <-]|].
  intros H Hj. apply bind_Ok in H as (ts & Hts & H). injection H as <-.
  apply (foldl_inv (λ st1, count_layer j st1 = count_layer j st)); [|done].
  intros st1 t <- Ht. apply discover_count.
  destruct (enumerate_transitions_elem g c ts t Hts Ht) as (_ & vn & _ & _ & Hf).
  apply fires_successor in Hf as (-> & _). lia.
Qed.

Lemma run_layer_count (g : TwoIntervalBipartiteGraph) (st st' : solver)
    (spk spk' : list (Z * Z)) (m : Z) :
  run_layer g (st, spk) m = Ok (st', spk') →
  spk' = od_set spk m (count_layer m st)
  ∧ ∀ j, j ≠ m + 1 → count_layer j st' = count_layer j st.
Proof.
  unfold run_layer. intros H. apply bind_Ok in H as (st1 & H1 & H).
  injection H as <- <-. split; [done|]. intros j Hj. revert H1.
  apply (foldM_inv_Ok (λ st2, count_layer j st2 = count_layer j st)); [|done].
  intros st2 c st3 <- [Hkc _]%list_elem_of_filter Hb.
  eapply run_state_count; [done|lia].
Qed.

Lemma prefix_sorted_lt (pre : list Z) (m : Z) (xs : list Z) :
  StronglySorted Z.lt xs → (pre ++ [m]) `prefix_of` xs → Forall (λ x, x < m) pre.
Proof.
  intros Hs [rest ->]. rewrite <- app_assoc in Hs.
  induction pre as [|x pre IH]; [constructor|].
  simpl in Hs. apply StronglySorted_inv in Hs as [Hs Hall]. constructor; [|auto].
  apply (proj1 (Forall_forall _ _) Hall). apply elem_of_app. right. left.
Qed.

Lemma py_max_spec (x : Z) (xs : list Z) :
  py_max (x :: xs) ∈ x :: xs ∧ Forall (λ y, y ≤ py_max (x :: xs)) (x :: xs).
Proof.
  unfold py_max. revert x. induction xs as [|y xs IH]; intros x; simpl.
  - split; [left|]. constructor; [lia|constructor].
  - destruct (IH (Z.max x y)) as [Hin Hall]. split.
    + apply elem_of_cons in Hin as [->|Hin].
      * destruct (Z.max_spec x y) as [[_ ->]|[_ ->]]; [right; left|left].
      * right. by right.
    + apply Forall_cons in Hall as [Hm Hall]. constructor; [lia|].
      constructor; [lia|done].
Qed.

(** X12. When [run()] returns, [states_per_k] has exactly the keys
    [1, ..., n-1] in this order (the last layer [n] is not reported), and
    the value stored for a layer is the number of states of that layer in
    [reachable] at the end of the run.  [max_states_per_k] is 0 when there
    is no such layer and otherwise the largest of these values. *)
Theorem run_states_per_k (g : TwoIntervalBipartiteGraph) (st0 st : solver)
    (stats : DPStats) :
  run g st0 = Ok (stats, st) →
  od_keys (states_per_k stats) = py_range 1 (n g)
  ∧ (∀ j c, (j, c) ∈ states_per_k stats → c = count_layer j st)
  ∧ ((py_range 1 (n g) = [] ∧ max_states_per_k stats = 0)
     ∨ (max_states_per_k stats ∈ od_values (states_per_k stats)
        ∧ ∀ c, c ∈ od_values (states_per_k stats) → c ≤ max_states_per_k stats)).
Proof.
  intros (st1 & spk & _ & Hloop & _ & -> & Hmax & _)%run_Ok_inv.
  assert (Hinv : od_keys spk = py_range 1 (n g)
                 ∧ ∀ j c, (j, c) ∈ spk → c = count_layer j st).
  { change spk with ((st, spk).2). change st with ((st, spk).1) at 2.
    revert Hloop.
    apply (foldM_prefix_inv (λ pre acc, od_keys acc.2 = pre
             ∧ ∀ j c, (j, c) ∈ acc.2 → c = count_layer j acc.1)).
    - split; [done|]. intros j c []%elem_of_nil.
    - intros pre m [st2 spk2] [st3 spk3] [Hkeys Hcount] Hpre Hb. simpl in *.
      apply run_layer_count in Hb as [-> Hsame].
      pose proof (prefix_sorted_lt pre m _ (StronglySorted_py_range 1 (n g)) Hpre) as Hlt.
      assert (Hnew : m ∉ od_keys spk2).
      { rewrite Hkeys. intros Hin.
        pose proof (proj1 (Forall_forall _ _) Hlt m Hin) as Hm. simpl in Hm. lia. }
      rewrite od_set_new by done. split.
      + unfold od_keys in *. by rewrite fmap_app, Hkeys.
      + intros j c [Hin|[= -> ->]%list_elem_of_singleton]%elem_of_app.
        * rewrite Hsame; [by apply Hcount|].
          assert (Hj : j ∈ od_keys spk2).
          { unfold od_keys. apply list_elem_of_fmap. by exists (j, c). }
          rewrite Hkeys in Hj.
          pose proof (proj1 (Forall_forall _ _) Hlt j Hj) as Hjm. simpl in Hjm. lia.
        * rewrite Hsame; [done|lia]. }
  destruct Hinv as [Hkeys Hcount]. split; [done|]. split; [done|].
  rewrite Hmax. destruct spk as [|[j c] spk].
  - left. by rewrite <- Hkeys.
  - right. destruct (py_max_spec c (od_values spk)) as [Hin Hall].
    split; [exact Hin|]. intros c' Hc'. by apply (proj1 (Forall_forall _ _) Hall).
Qed.

Lemma run_states_per_k_witness :
  ∃ stats st, run hamiltonian_n3_graph solver_empty = Ok (stats, st)
              ∧ od_keys (states_per_k stats) = [1; 2].
Proof.
  destruct (run_spec hamiltonian_n3_graph solver_empty hamiltonian_n3_graph_valid)
    as (stats & st & Hrun & _).
  exists stats, st. split; [exact Hrun|].
  exact (proj1 (run_states_per_k hamiltonian_n3_graph solver_empty st stats Hrun)).
Defined.

(** ** X-indices without events *)

Lemma strictly_inside_spec (it : TwoInterval) (i : Z) :
  strictly_inside it i = true ↔ ∃ a b, l it = Some a ∧ r it = Some b ∧ a < i < b.
Proof.
  unfold strictly_inside, is_empty.
  destruct (l it) as [a|], (r it) as [b|]; simpl;
    try (split; [done | intros (? & ? & ? & ? & ?); congruence]).
  rewrite bool_decide_eq_true. split.
  - intros ?. by exists a, b.
  - intros (? & ? & [= <-] & [= <-] & ?). done.
Qed.

Lemma contains_cases (it : TwoInterval) (i : Z) :
  contains it i = true →
  is_left_endpoint it i = true ∨ is_right_endpoint it i = true
  ∨ strictly_inside it i = true.
Proof.
  intros (a & b & Hl & Hr & Hi)%contains_spec.
  unfold is_left_endpoint, is_right_endpoint, strictly_inside, is_empty.
  rewrite Hl, Hr. simpl.
  destruct (decide (i = a)) as [->|Ha]; [left; by apply bool_decide_eq_true|].
  destruct (decide (i = b)) as [->|Hb]; [right; left; by apply bool_decide_eq_true|].
  right. right. apply bool_decide_eq_true. lia.
Qed.

(** X13. On a constructed graph the four event sets at X-index [i] are all
    empty (the condition under which T5 fires) exactly when [i] lies
    strictly inside an interval of every one of its neighbours. *)
Theorem no_events_iff_strictly_inside (g : TwoIntervalBipartiteGraph) (i : Z) :
  valid_graph g →
  no_events g i
  ↔ ∀ y, adjacent (y_vertices g) i y →
         ∃ yv, y_vertices g !! Z.to_nat y = Some yv
               ∧ (strictly_inside (first yv) i = true
                  ∨ strictly_inside (second yv) i = true).
Proof.
  intros Hv. split.
  - intros (H1 & H2 & H3 & H4) y (Hy & yv & Hl & Hc). exists yv. split; [done|].
    destruct (classify_events_spec g i y) as (S1 & S2 & S3 & S4).
    rewrite H1 in S1. rewrite H2 in S2. rewrite H3 in S3. rewrite H4 in S4.
    destruct Hc as [Hc|Hc]; apply contains_cases in Hc as [Hc|[Hc|Hc]]; auto.
    + exfalso. apply (not_elem_of_empty (C:=gset Z) y), S1. eauto.
    + exfalso. apply (not_elem_of_empty (C:=gset Z) y), S2. eauto.
    + exfalso. apply (not_elem_of_empty (C:=gset Z) y), S3. eauto.
    + exfalso. apply (not_elem_of_empty (C:=gset Z) y), S4. eauto.
  - intros Hall.
    assert (Hnone : ∀ y, ¬ (y ∈ ev1 (classify_events_at g i)
                            ∨ y ∈ ev2 (classify_events_at g i)
                            ∨ y ∈ ev3 (classify_events_at g i)
                            ∨ y ∈ ev4 (classify_events_at g i))).
    { intros y Hev. pose proof (event_adjacent g i y Hv Hev) as Hadj.
      destruct (Hall y Hadj) as (yv & Hl & Hin).
      pose proof (valid_graph_vertex g _ yv Hv Hl) as Hok.
      apply yvertex_ok_inv in Hok as (Hf & Hs & Hord).
      destruct (classify_events_spec g i y) as (S1 & S2 & S3 & S4).
      assert (Hend : ∃ it, (it = first yv ∨ it = second yv)
                ∧ (is_left_endpoint it i = true ∨ is_right_endpoint it i = true)).
      { destruct Hev as [H|[H|[H|H]]];
          [apply S1 in H|apply S2 in H|apply S3 in H|apply S4 in H];
          destruct H as (_ & yv' & Hl' & He); rewrite Hl in Hl'; injection Hl' as <-;
          eauto 6. }
      destruct Hend as (it & Hit & (a & b & La & Rb & Hi)%endpoint_bounds).
      assert (Hin' : ∃ it', (it' = first yv ∨ it' = second yv)
                ∧ ∃ a' b', l it' = Some a' ∧ r it' = Some b' ∧ a' < i < b').
      { destruct Hin as [Hs'%strictly_inside_spec|Hs'%strictly_inside_spec]; eauto. }
      destruct Hin' as (it' & Hit' & a' & b' & La' & Rb' & Hi').
      destruct Hit as [-> | ->], Hit' as [-> | ->].
      - rewrite La in La'. rewrite Rb in Rb'. injection La' as <-. injection Rb' as <-. lia.
      - pose proof (ordered_ok_gap yv a b a' b' Hord La Rb La' Rb').
        pose proof (interval_ok_bounds _ _ _ _ Hf La Rb). lia.
      - pose proof (ordered_ok_gap yv a' b' a b Hord La' Rb' La Rb).
        pose proof (interval_ok_bounds _ _ _ _ Hs La Rb). lia.
      - rewrite La in La'. rewrite Rb in Rb'. injection La' as <-. injection Rb' as <-. lia. }
    unfold no_events. repeat split; apply elem_of_equiv_empty_L; intros y Hy;
      apply (Hnone y); auto.
Qed.

Lemma no_events_iff_strictly_inside_witness :
  ¬ no_events hamiltonian_n3_graph 1.
Proof.
  intros Hno.
  destruct (proj1 (no_events_iff_strictly_inside hamiltonian_n3_graph 1
                     hamiltonian_n3_graph_valid) Hno 0) as (yv & Hl & Hin).
  { split; [lia|]. exists (mkYVertex (iv 0 1) iv_none). split; [done|]. by left. }
  injection Hl as <-. by destruct Hin.
Defined.

(** ** A sufficient condition for acceptance *)

Lemma fires_enumerated (g : TwoIntervalBipartiteGraph) (s : DPState) (vn : list Z)
    (t : transition) :
  valid_graph g → open_in_range g s → k s < n g →
  neighbors_of_x g (k s) = Ok vn → vn ≠ [] → fires g s vn t →
  ∃ ts, enumerate_transitions g s = Ok ts ∧ t ∈ ts.
Proof.
  intros Hv HO Hk Hvn Hne Hf.
  destruct (enumerate_transitions_total g s Hv HO) as [ts Hts].
  exists ts. split; [done|].
  destruct (enumerate_transitions_fires g s ts Hts)
    as [[[?|Hnil] _]|(_ & vn' & Hvn' & _ & Hiff)]; [lia|congruence|].
  rewrite Hvn in Hvn'. injection Hvn' as <-. by apply Hiff.
Qed.

Lemma py_sorted_singleton (y : Z) : py_sorted [y] = [y].
Proof. apply py_sorted_id. repeat constructor. Qed.

(** X14. Let a constructed graph with [n >= 2] have a Y-vertex [y] adjacent
    to X-index 0 whose second interval starts at [n-1], and let every
    X-index from 1 to [n-2] have a neighbour that is convex there.  Then the
    run reaches [(n, ∅, 0)] (by INIT, T4 on every layer in between, and T1 at
    [n-1]) and [run()] returns [accepted = True], whatever the other edges
    of the graph are; X-index [n-1] may for instance have [y] as its only
    neighbour. *)
Theorem run_accepts_along_open_vertex (g : TwoIntervalBipartiteGraph)
    (st0 : solver) (y : Z) (yv : YVertex) :
  valid_graph g → 2 ≤ n g →
  0 ≤ y → y_vertices g !! Z.to_nat y = Some yv →
  contains (first yv) 0 = true → is_left_endpoint (second yv) (n g - 1) = true →
  (∀ i, 1 ≤ i ≤ n g - 2 →
        ∃ y', adjacent (y_vertices g) i y' ∧ is_convex_at g y' i = Ok true) →
  ∃ stats st, run g st0 = Ok (stats, st) ∧ accepted stats = true.
Proof.
  intros Hv Hn Hy Hyv Hc0 Hend Hconv.
  pose proof (valid_graph_vertex g _ yv Hv Hyv) as Hok.
  apply yvertex_ok_inv in Hok as (Hf & Hs & Hord).
  destruct (valid_graph_built g Hv) as (Hfb & Hlen & _).
  assert (Hyr : 0 ≤ y < n g) by (apply lookup_lt_Some in Hyv; lia).
  assert (Hne2 : is_empty (second yv) = false ∧ l (second yv) = Some (n g - 1)).
  { unfold is_left_endpoint in Hend. apply andb_true_iff in Hend as [He Hl].
    apply negb_true_iff in He. by apply bool_decide_eq_true in Hl. }
  destruct Hne2 as [Hne2 Hl2].
  assert (Hseed : Reach g (mkDPState 1 [y] 1)).
  { apply Reach_seed. right. exists y, yv. split; [|split; [done|]].
    - split; [done|]. exists yv. auto.
    - unfold second_right_of_x0. rewrite Hne2, Hl2. simpl.
      by rewrite bool_decide_eq_true_2 by lia. }
  assert (Hopen : ∀ kk, open_in_range g (mkDPState kk [y] 1)).
  { intros kk. unfold open_in_range. simpl. constructor; [done|constructor]. }
  assert (Hlayers : ∀ m : nat, 1 + Z.of_nat m ≤ n g - 1 →
                               Reach g (mkDPState (1 + Z.of_nat m) [y] 1)).
  { induction m as [|m IH]; intros Hm.
    - by replace (1 + Z.of_nat 0) with 1 by lia.
    - set (kk := 1 + Z.of_nat m).
      destruct (Hconv kk) as (y' & Hadj & Hcv); [lia|].
      destruct (neighbors_of_x_total g kk Hfb) as (vn & Hvn & Hin).
      assert (Hy' : y' ∈ vn) by (apply Hin; split; [lia|done]).
      destruct (fires_enumerated g (mkDPState kk [y] 1) vn
                  (mkDPState (kk + 1) (py_sorted [y]) 1, "T4"%string, [x_edge kk y']))
        as (ts & Hts & Ht); [done|apply Hopen|simpl; lia|done| |by apply fires_T4|].
      { intros ->. by apply elem_of_nil in Hy'. }
      pose proof (Reach_step g _ ts _ (IH ltac:(lia)) ltac:(simpl; lia) Hts Ht) as Hr.
      simpl in Hr. rewrite py_sorted_singleton in Hr.
      by replace (1 + Z.of_nat (S m)) with (kk + 1) by lia. }
  assert (Hlast : Reach g (mkDPState (n g - 1) [y] 1)).
  { replace (n g - 1) with (1 + Z.of_nat (Z.to_nat (n g - 2))) by lia.
    apply Hlayers. lia. }
  assert (Hfinal : Reach g (final_state g)).
  { destruct (neighbors_of_x_total g (n g - 1) Hfb) as (vn & Hvn & Hin).
    assert (Hyin : y ∈ vn).
    { apply Hin. split; [lia|]. split; [lia|]. exists yv. split; [done|]. right.
      apply (endpoint_contains (n g)); auto. }
    destruct (fires_enumerated g (mkDPState (n g - 1) [y] 1) vn
                (mkDPState (n g - 1 + 1)
                   (py_sorted (filter (λ y0, y0 ≠ y) [y])) 0,
                 "T1"%string, [x_edge (n g - 1) y]))
      as (ts & Hts & Ht); [done|apply Hopen|simpl; lia|done| | |].
    { intros ->. by apply elem_of_nil in Hyin. }
    { apply (fires_T1 g (mkDPState (n g - 1) [y] 1) vn y); simpl; [done|by left|].
      apply classify_events_spec. split; [lia|]. by exists yv. }
    pose proof (Reach_step g _ ts _ Hlast ltac:(simpl; lia) Hts Ht) as Hr.
    simpl in Hr. rewrite filter_cons_False, filter_nil in Hr by (intros ?; done).
    unfold final_state. by replace (n g) with (n g - 1 + 1) at 1 by lia. }
  destruct (run_spec g st0 Hv) as (stats & st & Hrun & Hall & Hkeys & Hacc & _).
  exists stats, st. split; [done|]. rewrite Hacc. apply accepted_iff; [done|].
  by apply Hkeys.
Qed.

Lemma pendant_graph_valid : valid_graph pendant_graph.
Proof. vm_compute. reflexivity. Qed.

Lemma run_accepts_along_open_vertex_witness :
  (∃ stats st, run pendant_graph solver_empty = Ok (stats, st)
               ∧ accepted stats = true)
  ∧ find_cycle 5 pendant_graph = Ok None.
Proof.
  split; [|vm_compute; reflexivity].
  apply (run_accepts_along_open_vertex pendant_graph solver_empty 0
           (mkYVertex (iv 0 0) (iv 1 1)) pendant_graph_valid).
  - simpl. lia.
  - lia.
  - reflexivity.
  - reflexivity.
  - reflexivity.
  - simpl. intros i Hi. lia.
Defined.

(** ** Vertices on a cycle *)

Lemma tag_X_even (j : nat) : "X"%string = tag (Nat.even j) → Nat.even j = true.
Proof. by destruct (Nat.even j). Qed.

Lemma even_lt_even (j m : nat) :
  Nat.even j = true → Nat.even m = true → (j < m)%nat → (S j < m)%nat.
Proof.
  intros [a ->]%Nat.even_spec [b ->]%Nat.even_spec ?. lia.
Qed.

Lemma length_even (N : Z) {A : Type} (c : list A) :
  Z.of_nat (length c) = 2 * N → Nat.even (length c) = true.
Proof. intros H. apply Nat.even_spec. exists (Z.to_nat N). lia. Qed.

(** On a closed alternating path of at least four vertices, an X-vertex has
    two different neighbours. *)
Lemma cycle_two_neighbours (E : Z → Z → Prop) (N : Z) (c : list (string * Z)) (i : Z) :
  Z.of_nat (length c) = 2 * N → 2 ≤ N →
  alternates c → NoDup c → chained E c → closes E c →
  ("X"%string, i) ∈ c →
  ∃ y y', y ≠ y' ∧ E i y ∧ E i y'.
Proof.
  intros Hlen HN Halt Hnd Hch Hcl (j & Hj)%list_elem_of_lookup_1.
  pose proof (Halt j _ Hj) as Ht. simpl in Ht. apply tag_X_even in Ht.
  pose proof (lookup_lt_Some _ _ _ Hj) as Hjlt.
  pose proof (even_lt_even j (length c) Ht (length_even N c Hlen) Hjlt) as HSj.
  destruct (lookup_lt_is_Some_2 c (S j) HSj) as [[tb yb] Hb].
  destruct (Hch j _ _ Hj Hb) as [(_ & Htb & HE)|(? & _)]; [|done].
  simpl in Htb, HE. subst tb.
  assert (Hprev : ∃ (m : nat) ya, c !! m = Some ("Y"%string, ya) ∧ m ≠ S j ∧ E i ya).
  { destruct j as [|j'].
    - destruct (lookup_lt_is_Some_2 c (pred (length c))) as [[ta ya] Ha]; [lia|].
      destruct (Hcl (ta, ya) ("X"%string, i)) as [(_ & ? & _)|(Hta & _ & HE')].
      + by rewrite last_lookup.
      + by rewrite head_lookup.
      + done.
      + simpl in Hta, HE'. subst ta. exists (pred (length c)), ya.
        split; [done|]. split; [lia|done].
    - destruct (lookup_lt_is_Some_2 c j') as [[ta ya] Ha]; [lia|].
      destruct (Hch j' _ _ Ha Hj) as [(_ & ? & _)|(Hta & _ & HE')]; [done|].
      simpl in Hta, HE'. subst ta. exists j', ya. split; [done|]. split; [lia|done]. }
  destruct Hprev as (m & ya & Hm & Hne & HE').
  exists yb, ya. split; [|done]. intros ->.
  apply Hne. by apply (NoDup_lookup c m (S j) ("Y"%string, ya)).
Qed.



(** ** The first start of the search *)

(** A cycle can be read from any of its even positions. *)
Lemma cycle_ok_rotate (N : Z) (xn : list (list Z)) (c1 c2 : list (string * Z)) :
  cycle_ok N xn (c1 ++ c2) → Nat.even (length c1) = true → cycle_ok N xn (c2 ++ c1).
Proof.
  intros (Hlen & Halt & Hnd & Hrg & Hch & Hcl) He1.
  assert (He2 : Nat.even (length c2) = true).
  { pose proof (length_even N _ Hlen) as H.
    rewrite length_app, Nat.even_add, He1 in H. by destruct (Nat.even (length c2)). }
  assert (Hperm : c2 ++ c1 ≡ₚ c1 ++ c2) by apply Permutation_app_comm.
  assert (Hlk1 : ∀ (j : nat) b, c2 !! j = Some b →
                                (c1 ++ c2) !! (length c1 + j)%nat = Some b).
  { intros j b Hb. rewrite lookup_app_r by lia.
    by replace (length c1 + j - length c1)%nat with j by lia. }
  assert (Hlk2 : ∀ (j : nat) b, c1 !! j = Some b → (c1 ++ c2) !! j = Some b).
  { intros j b Hb. by apply lookup_app_l_Some. }
  split; [|split; [|split; [|split; [|split]]]].
  - rewrite <- Hlen. f_equal. by apply Permutation_length.
  - intros j b Hj. apply lookup_app_Some in Hj as [Hj|[Hge Hj]].
    + apply Hlk1, Halt in Hj. rewrite Hj. f_equal.
      rewrite Nat.even_add, He1. by destruct (Nat.even j).
    + apply Hlk2, Halt in Hj. rewrite Hj. f_equal.
      replace j with (length c2 + (j - length c2))%nat at 2 by lia.
      rewrite Nat.even_add, He2. by destruct (Nat.even (j - length c2)).
  - by rewrite Hperm.
  - intros b Hb. apply Hrg. by rewrite <- Hperm.
  - intros j u w Hu Hw. apply lookup_app_Some in Hu as [Hu|[Hge Hu]].
    + pose proof (lookup_lt_Some _ _ _ Hu) as Hjlt.
      apply lookup_app_Some in Hw as [Hw|[Hge Hw]].
      * apply Hlk1 in Hu, Hw. rewrite Nat.add_succ_r in Hw. by apply (Hch _ _ _ Hu Hw).
      * replace (S j - length c2)%nat with 0%nat in Hw by lia.
        apply Hcl.
        -- rewrite last_lookup, length_app.
           replace (pred (length c1 + length c2)) with (length c1 + j)%nat by lia.
           by apply Hlk1.
        -- rewrite head_lookup. by apply Hlk2.
    + rewrite lookup_app_r in Hw by lia.
      replace (S j - length c2)%nat with (S (j - length c2)) in Hw by lia.
      apply Hlk2 in Hu, Hw. by apply (Hch _ _ _ Hu Hw).
  - intros u w Hlast Hhead.
    destruct c1 as [|x1 c1'].
    { rewrite app_nil_r in Hlast, Hhead. by apply Hcl. }
    destruct c2 as [|x2 c2'].
    { rewrite app_nil_r in Hcl. by apply Hcl. }
    rewrite last_lookup, length_app in Hlast.
    rewrite lookup_app_r in Hlast by (simpl; lia).
    replace (pred (length (x2 :: c2') + length (x1 :: c1')) - length (x2 :: c2'))%nat
      with (length c1') in Hlast by (simpl; lia).
    simpl in Hhead. injection Hhead as <-.
    apply (Hch (length c1') u x2).
    + by apply Hlk2.
    + pose proof (Hlk1 0%nat x2 eq_refl) as H0.
      by replace (length (x1 :: c1') + 0)%nat with (S (length c1')) in H0
        by (simpl; lia).
Qed.

Lemma py_range_head (a b : Z) : a < b → ∃ rest, py_range a b = a :: rest.
Proof.
  intros Hab. unfold py_range. destruct (Z.to_nat (b - a)) as [|m] eqn:E; [lia|].
  simpl. eexists. f_equal. lia.
Qed.

(** X16. On a constructed graph with [n > 0], a sequence returned by
    [find_cycle()] begins with [("X", 0)]: if the graph has a Hamiltonian
    cycle at all, the search from the first start finds one, so that no
    later iteration of the loop over the starts ever returns. *)
Theorem find_cycle_starts_at_X0 (g : TwoIntervalBipartiteGraph) (depth : nat)
    (c : list (string * Z)) :
  valid_graph g → n g ≠ 0 → find_cycle depth g = Ok (Some c) →
  head c = Some ("X"%string, 0).
Proof.
  intros Hv Hn0 Hfc.
  destruct (find_cycle_spec g depth Hv) as [(res & Hres & Hsound)|[Hr _]];
    [|congruence].
  rewrite Hfc in Hres. injection Hres as <-.
  pose proof (proj1 (Hsound c eq_refl)) as Hham.
  pose proof (hamiltonian_cycle_ok g c Hv Hham) as Hok.
  destruct (valid_graph_rows g Hv) as (HN & Hrows & _).
  unfold find_cycle in Hfc. destruct (decide (n g = 0)) as [|_]; [done|].
  destruct (build_y_neighbors_spec (n g) (neighbors_x g) HN Hrows) as (yn & Hyn & Htr).
  rewrite Hyn in Hfc. revert Hfc. ok_step.
  destruct (py_range_head 0 (n g)) as [rest ->]; [lia|]. simpl.
  set (st := mkSearch _ _ _).
  destruct (reset_visited_spec (n g) st) as (st1 & -> & Hx1 & Hy1 & Hf);
    [lia|simpl; rewrite length_replicate; lia|simpl; rewrite length_replicate; lia|].
  ok_step. simpl. rewrite py_setitem_range by lia. ok_step.
  pose proof (search_inv_start (n g) (neighbors_x g) (visited_x st1) (visited_y st1) 0
                Hx1 Hy1 ltac:(lia) Hf) as Hinv.
  destruct (dfs_spec (n g) (neighbors_x g) yn Hrows Htr depth true 0 _ Hinv)
    as [(b & st' & Hdfs & Hfalse & Htrue)|[Hdfs _]]; [simpl; lia| |].
  2: { simpl in Hdfs. by rewrite Hdfs. }
  simpl in Hdfs. rewrite Hdfs. ok_step. destruct b.
  - intros [= <-]. destruct (Htrue eq_refl) as (_ & [tl ->] & _). done.
  - intros _. exfalso.
    destruct Hham as (_ & Halt & _ & Hvis & _).
    destruct (Hvis 0 ltac:(lia)) as [(c1 & c2 & ->)%list_elem_of_split _].
    assert (He : Nat.even (length c1) = true).
    { apply tag_X_even. apply (Halt (length c1) ("X"%string, 0)).
      by apply list_lookup_middle. }
    pose proof (cycle_ok_rotate _ _ c1 (("X"%string, 0) :: c2) Hok He) as Hrot.
    refine (dfs_complete (n g) (neighbors_x g) yn Hrows Htr _ true 0 _ st' Hinv _ Hdfs
              _ Hrot _); [simpl; lia|].
    simpl. by eexists.
Qed.

Lemma find_cycle_starts_at_X0_witness :
  ∃ c, find_cycle 7 hamiltonian_n3_graph = Ok (Some c)
       ∧ head c = Some ("X"%string, 0).
Proof.
  destruct (find_cycle 7 hamiltonian_n3_graph) as [[c|]|e] eqn:Hfc;
    [|by vm_compute in Hfc|by vm_compute in Hfc].
  exists c. split; [done|].
  apply (find_cycle_starts_at_X0 hamiltonian_n3_graph 7 c hamiltonian_n3_graph_valid).
  - simpl. lia.
  - exact Hfc.
Defined.
